(** * Team generation of discord-teamgen: model and properties

    Shallow embedding of
    - [src/teamgen.ts]: [shuffle], [computeTeams], [optimizeTeams];
    - [src/services/permission.ts]: [TeamGenerationService] and
      [PermissionService];
    - [src/services/tournament.ts]: the roster pipeline of
      [TournamentService.generateTeams], [parseMatchString] and
      [recordMatch];
    - [src/db/utils.ts]: [generateTournamentId], the match statistics
      ([getTeamStats], [getTournamentSummary], [validateTeamsExist]) and the
      team assignments ([getPlayerTeam], [exchangePlayers],
      [addPlayerToTeam]), a table being the list of its rows.

    Conventions.
    - A rating (ADR) is a finite number with at most two decimals
      ([SetAdrSchema], "Float with 2 decimals" in [db/schema.ts]); it is held
      exactly, as an integer count of hundredths.  IEEE rounding is not
      modelled.  Spreads live in [number], which adds the infinities and NaN
      that [Math.max()], [Math.min()] and the initial [bestDiff] produce.
    - [Math.random] is a global stream: a fixed sequence [random : nat -> nat]
      of raw draws and a cursor in the program state that every call advances.
      [Math.floor(Math.random() * n)] is the raw draw reduced modulo [n].
    - Arrays of players that are passed around by reference (the caller's
      roster and the per-run copy) live in a heap of arrays; objects created
      and consumed inside one run are values.
    - A thrown exception is an [outcome]; the [while] loop of the optimizer
      takes fuel, and running out of it is a third outcome of its own.
    - Strings are strings of ASCII characters; scores and sequence numbers
      are integers below 2^53, which JavaScript holds exactly. *)

From Stdlib Require Import ZArith QArith Qround List Lia Permutation.
From Stdlib Require Import Ascii String DecimalString.
From Stdlib Require DecimalZ.
From stdpp Require Import base list strings gmap sorting.

Open Scope Z_scope.

(** ** JavaScript numbers that hold a spread *)

Inductive number : Type :=
  | NaN
  | NegInf
  | Fin (z : Z)
  | PosInf.

(** [a < b] *)
Definition num_ltb (a b : number) : bool :=
  match a, b with
  | NaN, _ | _, NaN => false
  | NegInf, NegInf => false
  | NegInf, _ => true
  | Fin _, NegInf => false
  | Fin x, Fin y => x <? y
  | Fin _, PosInf => true
  | PosInf, _ => false
  end.

(** [a <= b] *)
Definition num_leb (a b : number) : bool :=
  match a, b with
  | NaN, _ | _, NaN => false
  | NegInf, _ => true
  | Fin _, NegInf => false
  | Fin x, Fin y => x <=? y
  | Fin _, PosInf => true
  | PosInf, PosInf => true
  | PosInf, _ => false
  end.

(** [a - b] *)
Definition num_sub (a b : number) : number :=
  match a, b with
  | NaN, _ | _, NaN => NaN
  | Fin x, Fin y => Fin (x - y)
  | PosInf, PosInf | NegInf, NegInf => NaN
  | PosInf, _ | _, NegInf => PosInf
  | NegInf, _ | _, PosInf => NegInf
  end.

Definition num_max2 (a b : number) : number :=
  match a, b with
  | NaN, _ | _, NaN => NaN
  | _, _ => if num_ltb a b then b else a
  end.

Definition num_min2 (a b : number) : number :=
  match a, b with
  | NaN, _ | _, NaN => NaN
  | _, _ => if num_ltb b a then b else a
  end.

(** [Math.max(...xs)]: [-Infinity] on no argument. *)
Definition Math_max (xs : list number) : number := fold_left num_max2 xs NegInf.

(** [Math.min(...xs)]: [Infinity] on no argument. *)
Definition Math_min (xs : list number) : number := fold_left num_min2 xs PosInf.

(** ** Data of [teamgen.ts] *)

Record Player : Type := mkPlayer {
  name : string;
  adr : Z
}.

Record Team : Type := mkTeam {
  players : list Player;
  totalAdr : Z
}.

(** [ps.reduce((sum, p) => sum + p.adr, 0)] *)
Definition sumAdr (ps : list Player) : Z :=
  fold_left (fun sum p => sum + adr p) ps 0.

(** [Math.max(...totals) - Math.min(...totals)] with
    [totals = teams.map((t) => t.totalAdr)] *)
Definition spread (teams : list Team) : number :=
  let totals := map (fun t => Fin (totalAdr t)) teams in
  num_sub (Math_max totals) (Math_min totals).

(** ** Exceptions *)

(** The messages of [TeamGenerationError], one constructor per template,
    carrying the interpolated values. *)
Inductive TeamGenerationMessage : Type :=
  | NoPlayersProvided
      (* "No players provided for team generation" *)
  | CountNotDivisible (count teamSize : Z)
      (* "Player count (count) must be divisible by team size (teamSize)" *)
  | PlayersMissingAdr (names : list string)
      (* "Players missing ADR: " ++ names.join(", ") *)
  | PlayersInvalidAdr (names : list string)
      (* "Players with invalid ADR values: " ++ names.join(", ") *)
  | RunsNotPositive
      (* "Optimization runs must be a positive number" *)
  | RunsExceedMaximum (runs maxRuns : Q)
      (* "Optimization runs (runs) exceeds maximum allowed (maxRuns)" *)
  | TimedOut (runs : Q).
      (* "Team generation timed out. Try reducing ..." *)

(** The messages and codes of the [TournamentError]s of [generateTeams]. *)
Inductive TournamentMessage : Type :=
  | MissingAdr (names : list string)
      (* "Players missing ADR: " ++ names.join(", "), PLAYERS_MISSING_ADR *)
  | InvalidPlayerCount (count : Z)
      (* "Player count (count) must be divisible by 5 for team generation",
         INVALID_PLAYER_COUNT *)
  | PlayerMappingFailed (username : string)
      (* "Failed to map generated team player: username",
         PLAYER_MAPPING_FAILED *)
  | InvalidPlayerId (teamId playerId : string)
      (* "Invalid player ID found in team teamId: ...", INVALID_PLAYER_ID *)
  | TeamGenerationFailed (cause : option string).
      (* "Failed to generate teams: " ++ the message of the error caught,
         TEAM_GENERATION_FAILED; [None] for the message the engine gives a
         TypeError *)

Inductive exn : Type :=
  | Error (message : string)
  | TypeError
  | TeamGenerationError (message : TeamGenerationMessage)
  | TournamentError (message : TournamentMessage).

Inductive outcome (A : Type) : Type :=
  | Ok (a : A)
  | Throw (e : exn)
  | OutOfFuel.

Arguments Ok {A} a.
Arguments Throw {A} e.
Arguments OutOfFuel {A}.

(** ** Program state *)

Definition loc : Type := nat.

Record state : Type := mkState {
  heap : list (list Player);
  cursor : nat
}.

Definition M (A : Type) : Type := state -> outcome A * state.

Definition ret {A} (a : A) : M A := fun st => (Ok a, st).

Definition throw {A} (e : exn) : M A := fun st => (Throw e, st).

Definition outOfFuel {A} : M A := fun st => (OutOfFuel, st).

Definition bind {A B} (m : M A) (k : A -> M B) : M B :=
  fun st =>
    match m st with
    | (Ok a, st') => k a st'
    | (Throw e, st') => (Throw e, st')
    | (OutOfFuel, st') => (OutOfFuel, st')
    end.

Notation "'do' x <- m ; k" := (bind m (fun x => k))
  (at level 10, x pattern, m at level 100, k at level 200).

(** [a.length] and the elements of the array at [a]; an address always comes
    from an allocation, so the default is never taken on a live reference. *)
Definition readArray (a : loc) : M (list Player) :=
  fun st => (Ok (default [] (heap st !! a)), st).

(** [[...ps]] and [ps.map(f)]: a new array. *)
Definition allocArray (ps : list Player) : M loc :=
  fun st => (Ok (length (heap st)), mkState (heap st ++ [ps]) (cursor st)).

Section Random.

(** The sequence of raw values that [Math.random()] returns. *)
Variable random : nat -> nat.

(** [Math.random()] *)
Definition Math_random : M nat :=
  fun st => (Ok (random (cursor st)), mkState (heap st) (S (cursor st))).

(** [Math.floor(r * n)] for a draw [r] of [Math.random()] and a length [n]. *)
Definition scale (r n : nat) : nat :=
  match n with
  | O => O
  | _ => (r mod n)%nat
  end.

(** ** [shuffle] *)

(** [temp = array[i]; array[i] = array[j]; array[j] = temp].  The loop of
    [shuffle] keeps both indices in range. *)
Definition exchange {T} (i j : nat) (array : list T) : list T :=
  match array !! i, array !! j with
  | Some temp, Some y => <[j := temp]> (<[i := y]> array)
  | _, _ => array
  end.

(** The loop [for (let i = ...; i > 0; i--)] from index [i] down, on the
    array and the cursor of the random stream. *)
Fixpoint shuffleFrom {T} (i : nat) (array : list T) (c : nat) : list T * nat :=
  match i with
  | O => (array, c)
  | S i' =>
      let j := scale (random c) (i + 1) in
      shuffleFrom i' (exchange i j array) (S c)
  end.

Definition shuffleArray {T} (array : list T) (c : nat) : list T * nat :=
  shuffleFrom (length array - 1) array c.

(** [shuffle(a)] on an array of the heap, in place. *)
Definition shuffle (a : loc) : M unit :=
  fun st =>
    let '(ps, c) := shuffleArray (default [] (heap st !! a)) (cursor st) in
    (Ok tt, mkState (<[a := ps]> (heap st)) c).

(** [shuffle(indices)] on an array local to one iteration. *)
Definition shuffleLocal {T} (array : list T) : M (list T) :=
  fun st =>
    let '(xs, c) := shuffleArray array (cursor st) in
    (Ok xs, mkState (heap st) c).

(** ** [computeTeams] *)

(** [Array.from({ length: numTeams }, () => ({ players: [], totalAdr: 0 }))];
    a negative length gives the empty array. *)
Definition emptyTeams (numTeams : Z) : list Team :=
  replicate (Z.to_nat numTeams) (mkTeam [] 0).

(** [team.players.push(player); team.totalAdr += player.adr] *)
Definition addPlayer (team : Team) (player : Player) : Team :=
  mkTeam (players team ++ [player]) (totalAdr team + adr player).

(** The placement loop from index [i] on, [ps] being the players not yet
    placed.  [teams[i % numTeams]] on an index without a team is
    [undefined], and reading [players] of it throws. *)
Fixpoint placeFrom (numTeams : Z) (i : nat) (ps : list Player)
    (teams : list Team) : outcome (list Team) :=
  match ps with
  | [] => Ok teams
  | player :: ps' =>
      let k := Z.to_nat (Z.rem (Z.of_nat i) numTeams) in
      match teams !! k with
      | None => Throw TypeError
      | Some team =>
          placeFrom numTeams (S i) ps' (<[k := addPlayer team player]> teams)
      end
  end.

(** [computeTeams(players, teamSize)], for a length that is a multiple of a
    non-zero [teamSize] (the quotient is then the integer that
    [players.length / teamSize] is): [optimizeTeams] calls it on nothing
    else. *)
Definition computeTeams (ps : list Player) (teamSize : Z)
    : outcome (list Team * number) :=
  let numTeams := Z.quot (Z.of_nat (length ps)) teamSize in
  match placeFrom numTeams 0 ps (emptyTeams numTeams) with
  | Ok teams => Ok (teams, spread teams)
  | Throw e => Throw e
  | OutOfFuel => OutOfFuel
  end.

Definition lift {A} (o : outcome A) : M A := fun st => (o, st).

(** ** The local search of [optimizeTeams] *)

(** [teams[i]] for [i] one of the first two elements of [indices], itself
    [undefined] when [indices] is too short. *)
Definition teamAt (teams : list Team) (i : option nat) : option Team :=
  i ≫= (fun i => teams !! i).

(** [team.players[index] = player] followed by the recomputation of
    [team.totalAdr] by [reduce]. *)
Definition setPlayer (team : Team) (index : nat) (player : Player) : Team :=
  let ps := <[index := player]> (players team) in
  mkTeam ps (sumAdr ps).

(** The two assignments of a swap, and the two updates of the totals, on the
    teams at [i] and [j]; used with [(playerB, playerA)] for the swap and
    with [(playerA, playerB)] for the revert. *)
Definition assignPlayers (teams : list Team) (i j aIndex bIndex : nat)
    (teamA teamB : Team) (pa pb : Player) : list Team :=
  <[j := setPlayer teamB bIndex pb]> (<[i := setPlayer teamA aIndex pa]> teams).

(** The result of one iteration of the [while] loop: the teams, the tracked
    [adrDiff] and the counter [noImprovement]. *)
Definition searchState : Type := list Team * number * nat.

(** The body of the [while] loop.  [Math.random()] is called before the
    length it is multiplied with is read, so a draw precedes each
    [TypeError] on an [undefined] team; a player that is [undefined] is
    written into a team by the swap and makes the [reduce] throw.  The two
    indices are distinct ([shuffled_indices]), so [teamA] and [teamB] are
    two objects; the revert writes to the same two, which are then the teams
    at [i] and [j] as the swap left them. *)
Definition attempt (st : searchState) : M searchState :=
  let '(teams, adrDiff, noImprovement) := st in
  do indices <- shuffleLocal (seq 0 (length teams));
  let i := indices !! 0%nat in
  let j := indices !! 1%nat in
  do ra <- Math_random;
  match teamAt teams i, i with
  | Some teamA, Some i =>
      let aIndex := scale ra (length (players teamA)) in
      do rb <- Math_random;
      match teamAt teams j, j with
      | Some teamB, Some j =>
          let bIndex := scale rb (length (players teamB)) in
          match players teamA !! aIndex, players teamB !! bIndex with
          | Some playerA, Some playerB =>
              let swapped :=
                assignPlayers teams i j aIndex bIndex teamA teamB
                  playerB playerA in
              let newDiff := spread swapped in
              if num_ltb newDiff adrDiff then
                ret (swapped, newDiff, O)
              else
                match swapped !! i, swapped !! j with
                | Some teamA', Some teamB' =>
                    ret (assignPlayers swapped i j aIndex bIndex teamA' teamB'
                           playerA playerB,
                         adrDiff, S noImprovement)
                | _, _ => throw TypeError
                end
          | _, _ => throw TypeError
          end
      | _, _ => throw TypeError
      end
  | _, _ => throw TypeError
  end.

(** [while (noImprovement < maxNoImprovement) { ... }] *)
Fixpoint search (fuel : nat) (maxNoImprovement : Z) (st : searchState)
    : M (list Team * number) :=
  let '(teams, adrDiff, noImprovement) := st in
  if Z.of_nat noImprovement <? maxNoImprovement then
    match fuel with
    | O => outOfFuel
    | S fuel' =>
        do st' <- attempt st;
        search fuel' maxNoImprovement st'
    end
  else ret (teams, adrDiff).

(** ** [optimizeTeams] *)

(** [players.length % teamSize !== 0]; the remainder by zero is NaN, which
    is not [0]. *)
Definition notMultiple (length teamSize : Z) : bool :=
  (teamSize =? 0) || negb (Z.rem length teamSize =? 0).

Definition string_of_Z (z : Z) : string :=
  NilZero.string_of_int (Z.to_int z).

(** One run: copy, shuffle, initial teams, local search. *)
Definition oneRun (fuel : nat) (playersRef : loc) (teamSize maxNoImprovement : Z)
    : M (list Team * number) :=
  do ps <- readArray playersRef;
  do shuffled <- allocArray ps;
  do _ <- shuffle shuffled;
  do sh <- readArray shuffled;
  do init <- lift (computeTeams sh teamSize);
  search fuel maxNoImprovement (init.1, init.2, O).

(** The loop [for (let run = 0; run < runs; run++)] with [n] runs to go; the
    copy of the teams kept in [bestTeams] is a value. *)
Fixpoint runsLoop (n : nat) (fuel : nat) (playersRef : loc)
    (teamSize maxNoImprovement : Z) (bestTeams : list Team) (bestDiff : number)
    : M (list Team * number) :=
  match n with
  | O => ret (bestTeams, bestDiff)
  | S n' =>
      do r <- oneRun fuel playersRef teamSize maxNoImprovement;
      if num_ltb r.2 bestDiff then
        runsLoop n' fuel playersRef teamSize maxNoImprovement r.1 r.2
      else
        runsLoop n' fuel playersRef teamSize maxNoImprovement bestTeams bestDiff
  end.

(** The number of integers [run >= 0] with [run < runs]. *)
Definition runCount (runs : Q) : nat := Z.to_nat (Qceiling runs).

(** [optimizeTeams(players, teamSize, maxNoImprovement, runs)]; [fuel] bounds
    the iterations of each [while] loop. *)
Definition optimizeTeams (fuel : nat) (playersRef : loc)
    (teamSize maxNoImprovement : Z) (runs : Q) : M (list Team * number) :=
  do ps <- readArray playersRef;
  if notMultiple (Z.of_nat (length ps)) teamSize then
    throw (Error ("Player count must be a multiple of " ++ string_of_Z teamSize))
  else
    runsLoop (runCount runs) fuel playersRef teamSize maxNoImprovement [] PosInf.

(** The state in which the search of a run starts: the shuffled copy is the
    last array of the heap. *)
Definition afterShuffle (playersRef : loc) (st : state) : list Player * state :=
  let ps := default [] (heap st !! playersRef) in
  let sh := shuffleArray ps (cursor st) in
  (sh.1, mkState (heap st ++ [sh.1]) sh.2).

End Random.

(** ** [TeamGenerationService] of [services/permission.ts] *)

(** A value that arrives where TypeScript announces a number. *)
Inductive value (N : Type) : Type :=
  | VUndefined
  | VNull
  | VString (s : string)
  | VNumber (n : N).

Arguments VUndefined {N}.
Arguments VNull {N}.
Arguments VString {N} s.
Arguments VNumber {N} n.

(** [TournamentPlayer]; the rating is in hundredths. *)
Record TournamentPlayer : Type := mkTournamentPlayer {
  tp_id : string;
  tp_username : string;
  tp_display_name : option string;
  tp_adr : value Z
}.

Record GeneratedTeam : Type := mkGeneratedTeam {
  gt_id : string;
  gt_players : list TournamentPlayer;
  gt_average_adr : Z;
  gt_total_adr : Z
}.

Record TeamGenerationResult : Type := mkTeamGenerationResult {
  result_teams : list GeneratedTeam;
  adr_difference : number;
  optimization_runs : Q
}.

(** The fields that the constructor sets from its options. *)
Record TeamGenerationService : Type := mkTeamGenerationService {
  defaultRuns : Q;
  maxRuns : Q;
  serviceTeamSize : Z
}.

(** [new TeamGenerationService()] *)
Definition defaultService : TeamGenerationService :=
  mkTeamGenerationService 200 200 5.

Definition Qltb (a b : Q) : bool := negb (Qle_bool b a).

(** [p.adr === undefined || p.adr === null] *)
Definition adrMissing (p : TournamentPlayer) : bool :=
  match tp_adr p with
  | VUndefined | VNull => true
  | _ => false
  end.

(** [typeof p.adr !== "number" || p.adr < 0 || p.adr > 999.99] *)
Definition adrInvalid (p : TournamentPlayer) : bool :=
  match tp_adr p with
  | VNumber z => (z <? 0) || (99999 <? z)
  | _ => true
  end.

(** [validatePlayers(players)] *)
Definition validatePlayers (svc : TeamGenerationService)
    (ps : list TournamentPlayer) : outcome unit :=
  if (length ps =? 0)%nat then
    Throw (TeamGenerationError NoPlayersProvided)
  else if notMultiple (Z.of_nat (length ps)) (serviceTeamSize svc) then
    Throw (TeamGenerationError
             (CountNotDivisible (Z.of_nat (length ps)) (serviceTeamSize svc)))
  else
    let playersWithoutAdr := filter (fun p => adrMissing p = true) ps in
    if (0 <? length playersWithoutAdr)%nat then
      Throw (TeamGenerationError
               (PlayersMissingAdr (map tp_username playersWithoutAdr)))
    else
      let invalidAdrPlayers := filter (fun p => adrInvalid p = true) ps in
      if (0 <? length invalidAdrPlayers)%nat then
        Throw (TeamGenerationError
                 (PlayersInvalidAdr (map tp_username invalidAdrPlayers)))
      else Ok tt.

(** [validateRuns(runs)] *)
Definition validateRuns (svc : TeamGenerationService) (runs : value Q)
    : outcome Q :=
  match runs with
  | VUndefined => Ok (defaultRuns svc)
  | VNumber q =>
      if Qltb q 1 then Throw (TeamGenerationError RunsNotPositive)
      else if Qltb (maxRuns svc) q then
        Throw (TeamGenerationError (RunsExceedMaximum q (maxRuns svc)))
      else Ok q
  | _ => Throw (TeamGenerationError RunsNotPositive)
  end.

(** [a || b] on strings, [a] possibly [undefined] or [null]. *)
Definition orElse (a : option string) (b : string) : string :=
  match a with
  | Some (String c s) => String c s
  | _ => b
  end.

(** The rating of a player that passed [validatePlayers]. *)
Definition numberOf (v : value Z) : Z :=
  match v with
  | VNumber z => z
  | _ => 0
  end.

(** [convertToTeamgenFormat(players)] *)
Definition convertToTeamgenFormat (ps : list TournamentPlayer) : list Player :=
  map (fun player =>
         mkPlayer (orElse (tp_display_name player) (tp_username player))
                  (numberOf (tp_adr player))) ps.

(** [generateTeamId(teamNumber)] *)
Definition generateTeamId (teamNumber : Z) : string :=
  "TEAM" ++ string_of_Z teamNumber.

(** [Math.round(averageAdr * 100) / 100], in hundredths: the quotient of the
    total by the number of players, rounded half up. *)
Definition averageAdr (team : Team) : Z :=
  let n := Z.of_nat (length (players team)) in
  if 0 <? n then (2 * totalAdr team + n) / (2 * n) else 0.

(** The player that [convertFromTeamgenFormat] makes of a player of a
    team; its id is "populated by the service layer". *)
Definition fromTeamgenPlayer (p : Player) : TournamentPlayer :=
  mkTournamentPlayer "" (name p) (Some (name p)) (VNumber (adr p)).

(** [convertFromTeamgenFormat(teams)] *)
Definition convertFromTeamgenFormat (teams : list Team) : list GeneratedTeam :=
  imap (fun index team =>
          mkGeneratedTeam
            (generateTeamId (Z.of_nat index + 1))
            (map fromTeamgenPlayer (players team))
            (averageAdr team)
            (totalAdr team)) teams.

(** [Math.min(500, Math.floor(10000 / optimizationRuns))] *)
Definition maxIterations (optimizationRuns : Q) : Z :=
  Z.min 500 (Qfloor (10000 / optimizationRuns)).

(** [generateBalancedTeams(players, runs)].  [executionTime] is the
    difference of the two readings of [Date.now()] that the [catch] block
    compares with 80% of [maxExecutionTime]; [random] is the stream of
    [Math.random]. *)
Definition generateBalancedTeams (random : nat -> nat)
    (svc : TeamGenerationService) (executionTime : Z) (fuel : nat) (ps : list TournamentPlayer)
    (runs : value Q) : M TeamGenerationResult :=
  do _ <- lift (validatePlayers svc ps);
  do optimizationRuns <- lift (validateRuns svc runs);
  do teamgenPlayers <- allocArray (convertToTeamgenFormat ps);
  fun st =>
    match optimizeTeams random fuel teamgenPlayers (serviceTeamSize svc)
            (maxIterations optimizationRuns) optimizationRuns st with
    | (Ok result, st') =>
        (Ok (mkTeamGenerationResult (convertFromTeamgenFormat result.1)
               result.2 optimizationRuns), st')
    | (Throw e, st') =>
        if 20000 <? executionTime then
          (Throw (TeamGenerationError (TimedOut optimizationRuns)), st')
        else (Throw e, st')
    | (OutOfFuel, st') => (OutOfFuel, st')
    end.

(** ** [TournamentService.generateTeams] of [services/tournament.ts] *)

(** A row of [players], joined to a tournament player when it exists. *)
Record PlayerRow : Type := mkPlayerRow {
  row_username : option string;
  row_displayName : option string
}.

(** What [getTournamentPlayers] returns for one player. *)
Record TournamentPlayerRow : Type := mkTournamentPlayerRow {
  playerId : string;
  row_adr : option Z;
  player : option PlayerRow
}.

(** [tp.player?.username] *)
Definition usernameOf (tp : TournamentPlayerRow) : option string :=
  player tp ≫= row_username.

(** [tp.player?.displayName || tp.player?.username || "Unknown"]: the name
    used in team generation. *)
Definition nameUsedInTeamGen (tp : TournamentPlayerRow) : string :=
  orElse (player tp ≫= row_displayName) (orElse (usernameOf tp) "Unknown").

(** The conversion to the team generation format. *)
Definition toTeamGenPlayer (tp : TournamentPlayerRow) : TournamentPlayer :=
  mkTournamentPlayer (playerId tp)
    (orElse (usernameOf tp) "Unknown")
    (Some (nameUsedInTeamGen tp))
    (match row_adr tp with Some z => VNumber z | None => VNull end).

(** [nameToPlayerMap.set(nameUsedInTeamGen, tp)] *)
Definition setName (m : gmap string TournamentPlayerRow)
    (tp : TournamentPlayerRow) : gmap string TournamentPlayerRow :=
  <[nameUsedInTeamGen tp := tp]> m.

(** The loop that fills [nameToPlayerMap]. *)
Definition nameToPlayerMap (tps : list TournamentPlayerRow)
    : gmap string TournamentPlayerRow :=
  fold_left setName tps ∅.

(** [team.players.map((player) => ...)]: the lookup of each player of a
    generated team by its name; the first name without a row throws. *)
Fixpoint mapPlayers (m : gmap string TournamentPlayerRow)
    (ps : list TournamentPlayer) : outcome (list TournamentPlayer) :=
  match ps with
  | [] => Ok []
  | p :: ps' =>
      match m !! tp_username p with
      | None => Throw (TournamentError (PlayerMappingFailed (tp_username p)))
      | Some tournamentPlayer =>
          match mapPlayers m ps' with
          | Ok ps'' =>
              Ok (mkTournamentPlayer (playerId tournamentPlayer) (tp_username p)
                    (tp_display_name p) (tp_adr p) :: ps'')
          | Throw e => Throw e
          | OutOfFuel => OutOfFuel
          end
      end
  end.

(** [result.teams.map((team) => ({ ...team, players: ... }))] *)
Fixpoint mapTeams (m : gmap string TournamentPlayerRow)
    (teams : list GeneratedTeam) : outcome (list GeneratedTeam) :=
  match teams with
  | [] => Ok []
  | team :: teams' =>
      match mapPlayers m (gt_players team) with
      | Ok ps =>
          match mapTeams m teams' with
          | Ok teams'' =>
              Ok (mkGeneratedTeam (gt_id team) ps (gt_average_adr team)
                    (gt_total_adr team) :: teams'')
          | Throw e => Throw e
          | OutOfFuel => OutOfFuel
          end
      | Throw e => Throw e
      | OutOfFuel => OutOfFuel
      end
  end.

(** The white space of ASCII, which is what [trim] removes of it. *)
Definition isSpace (c : Ascii.ascii) : bool :=
  let n := nat_of_ascii c in
  ((9 <=? n) && (n <=? 13) || (n =? 32))%nat.

Fixpoint allSpaces (s : string) : bool :=
  match s with
  | EmptyString => true
  | String c s' => isSpace c && allSpaces s'
  end.

(** The first [!playerId || playerId.trim() === ""] of the teams. *)
Definition firstBlankId (teams : list GeneratedTeam)
    : option (string * string) :=
  head (concat (map (fun team =>
          map (fun p => (gt_id team, tp_id p))
              (filter (fun p => allSpaces (tp_id p) = true) (gt_players team)))
        teams)).

(** The errors that the [catch] block of [generateTeams] wraps. *)
Definition wrapError (e : exn) : exn :=
  match e with
  | Error message => TournamentError (TeamGenerationFailed (Some message))
  | TypeError => TournamentError (TeamGenerationFailed None)
  | _ => e
  end.

(** [generateTeams(runs)] from the roster that [getTournamentPlayers]
    returns for the open tournament, whose teams are not locked, to the
    teams handed to [createTeams], which is taken to succeed. *)
Definition generateTeams (random : nat -> nat)
    (svc : TeamGenerationService) (executionTime : Z) (fuel : nat) (tournamentPlayers : list TournamentPlayerRow)
    (runs : value Q) : M (list GeneratedTeam) :=
  let playersWithoutAdr :=
    filter (fun p => row_adr p = None) tournamentPlayers in
  if (0 <? length playersWithoutAdr)%nat then
    throw (TournamentError
             (MissingAdr (map (fun p => orElse (usernameOf p) (playerId p))
                              playersWithoutAdr)))
  else if negb (Z.rem (Z.of_nat (length tournamentPlayers)) 5 =? 0) then
    throw (TournamentError
             (InvalidPlayerCount (Z.of_nat (length tournamentPlayers))))
  else
    fun st =>
      match generateBalancedTeams random svc executionTime fuel
              (map toTeamGenPlayer tournamentPlayers) runs st with
      | (Ok result, st') =>
          match mapTeams (nameToPlayerMap tournamentPlayers)
                  (result_teams result) with
          | Ok teamsWithPlayerIds =>
              match firstBlankId teamsWithPlayerIds with
              | Some (teamId, blank) =>
                  (Throw (TournamentError (InvalidPlayerId teamId blank)), st')
              | None => (Ok teamsWithPlayerIds, st')
              end
          | Throw e => (Throw (wrapError e), st')
          | OutOfFuel => (OutOfFuel, st')
          end
      | (Throw e, st') => (Throw (wrapError e), st')
      | (OutOfFuel, st') => (OutOfFuel, st')
      end.

(** The ids of the players of the generated teams, team after team. *)
Definition teamIds (teams : list GeneratedTeam) : list string :=
  concat (map (fun team => map tp_id (gt_players team)) teams).

(** The id that the name map gives the player of a team. *)
Definition idByName (m : gmap string TournamentPlayerRow) (p : Player)
    : string :=
  match m !! name p with
  | Some tournamentPlayer => playerId tournamentPlayer
  | None => ""
  end.

(** The player that the optimizer receives for a row of the roster. *)
Definition rowPlayer (tp : TournamentPlayerRow) : Player :=
  mkPlayer (nameUsedInTeamGen tp) (default 0 (row_adr tp)).

(** Two calls of the same function on the same arguments, one after the
    other: the second finds [Math.random] where the first left it. *)
Definition twice {A} (call : M A) : M (A * A) :=
  do first <- call;
  do second <- call;
  ret (first, second).

(** ** Predicates of the specification *)

(** All the members of the teams, team after team. *)
Definition members (teams : list Team) : list Player :=
  concat (map players teams).

(** Every [totalAdr] is the sum of the ratings of the team's members. *)
Definition consistent (teams : list Team) : Prop :=
  Forall (fun t => totalAdr t = sumAdr (players t)) teams.

(** [teams] has [length roster / teamSize] teams of [teamSize] members each
    and holds every participant of [roster] once. *)
Definition partitionOf (roster : list Player) (teamSize : Z)
    (teams : list Team) : Prop :=
  Z.of_nat (length teams) = Z.of_nat (length roster) / teamSize
  /\ Forall (fun t => Z.of_nat (length (players t)) = teamSize) teams
  /\ members teams ≡ₚ roster.

(** The sizes of the teams, in order. *)
Definition sizes (teams : list Team) : list nat :=
  map (fun t => length (players t)) teams.

(** What [optimizeTeams] promises of the teams and the spread it returns. *)
Definition goodResult (roster : list Player) (teamSize : Z)
    (teams : list Team) (adrDiff : number) : Prop :=
  partitionOf roster teamSize teams /\ consistent teams
  /\ adrDiff = spread teams.

(** Two program states, each with its own stream of draws, that no
    computation can tell apart: the heaps are equal and the draws to come
    are the same. *)
Definition sameDraws (random1 random2 : nat -> nat) (st1 st2 : state) : Prop :=
  heap st1 = heap st2
  /\ forall k, random1 (cursor st1 + k)%nat = random2 (cursor st2 + k)%nat.

(** Two computations that behave alike on states with the same draws. *)
Definition alike (random1 random2 : nat -> nat) {A} (m1 m2 : M A) : Prop :=
  forall st1 st2, sameDraws random1 random2 st1 st2 ->
    (m1 st1).1 = (m2 st2).1
    /\ sameDraws random1 random2 (m1 st1).2 (m2 st2).2.

Definition num_le (a b : number) : Prop := num_leb a b = true.
Definition num_lt (a b : number) : Prop := num_ltb a b = true.

(** ** Example data *)

(** A stream of draws. *)
Definition exampleRandom (n : nat) : nat := ((n * 7 + 3) mod 11)%nat.

(** Ten players rated 50, 60, ..., 140. *)
Definition exampleRoster : list Player :=
  [mkPlayer "p1" 5000; mkPlayer "p2" 6000; mkPlayer "p3" 7000;
   mkPlayer "p4" 8000; mkPlayer "p5" 9000; mkPlayer "p6" 10000;
   mkPlayer "p7" 11000; mkPlayer "p8" 12000; mkPlayer "p9" 13000;
   mkPlayer "p10" 14000].

(** The caller's array at address 0, and the random stream at its start. *)
Definition exampleState : state := mkState [exampleRoster] 0.

(** A roster of five players, a single team of five. *)
Definition fiveState : state := mkState [take 5 exampleRoster] 0.

(** Five participants: the rating of the first is missing, the rating of
    the second is negative, the rating of the third is above 999.99. *)
Definition mixedRoster : list TournamentPlayer :=
  [mkTournamentPlayer "1" "ann" None VUndefined;
   mkTournamentPlayer "2" "bob" None (VNumber (-500));
   mkTournamentPlayer "3" "cat" None (VNumber 100000);
   mkTournamentPlayer "4" "dan" None (VNumber 8000);
   mkTournamentPlayer "5" "eve" None (VNumber 9000)].

(** The same participants, the rating of the first being 50. *)
Definition invalidRoster : list TournamentPlayer :=
  mkTournamentPlayer "1" "ann" None (VNumber 5000) :: drop 1 mixedRoster.

(** The state of a program that has made no array and drawn no number. *)
Definition emptyState : state := mkState [] 0.

(** A row of a tournament player with a username and no display name. *)
Definition exampleRow (id username : string) (rating : Z)
    : TournamentPlayerRow :=
  mkTournamentPlayerRow id (Some rating)
    (Some (mkPlayerRow (Some username) None)).

(** Ten tournament players with distinct names. *)
Definition distinctRows : list TournamentPlayerRow :=
  [exampleRow "1" "ann" 5000; exampleRow "2" "bob" 6000;
   exampleRow "3" "cat" 7000; exampleRow "4" "dan" 8000;
   exampleRow "5" "eve" 9000; exampleRow "6" "fay" 10000;
   exampleRow "7" "gus" 11000; exampleRow "8" "hal" 12000;
   exampleRow "9" "ian" 13000; exampleRow "10" "jon" 14000].

(** The same players, the ninth being called "ann" like the first. *)
Definition collidingRows : list TournamentPlayerRow :=
  <[8%nat := exampleRow "9" "ann" 13000]> distinctRows.

(** ** More of [teamgen.ts] *)

(** The results of the runs of [optimizeTeams] in the order of the runs,
    as long as they return: what [bestTeams] and [bestDiff] are chosen
    from. *)
Fixpoint runResults (random : nat -> nat) (n : nat) (fuel : nat)
    (playersRef : loc) (teamSize maxNoImprovement : Z) (st : state)
    : list (list Team * number) :=
  match n with
  | O => []
  | S n' =>
      match oneRun random fuel playersRef teamSize maxNoImprovement st with
      | (Ok r, st') =>
          r :: runResults random n' fuel playersRef teamSize maxNoImprovement st'
      | _ => []
      end
  end.

(** Every team has one member. *)
Definition singletons (teams : list Team) : Prop :=
  Forall (fun n => n = 1%nat) (sizes teams).

(** [Math.max(...ratings) - Math.min(...ratings)] over the ratings of a
    roster. *)
Definition ratingRange (roster : list Player) : number :=
  num_sub (Math_max (map (fun p => Fin (adr p)) roster))
          (Math_min (map (fun p => Fin (adr p)) roster)).

(** Four players with low ratings (0.01, 0.03, 0.04 and 0.08), for two teams
    of two. *)
Definition smallRoster : list Player :=
  [mkPlayer "a" 1; mkPlayer "b" 3; mkPlayer "c" 4; mkPlayer "d" 8].

Definition smallState : state := mkState [smallRoster] 0.

(** ** [PermissionService] of [services/permission.ts] *)

(** How a call ends that throws errors of one class. *)
Inductive completion (E A : Type) : Type :=
  | Normal (a : A)
  | Abrupt (e : E).

Arguments Normal {E A} a.
Arguments Abrupt {E A} e.

(** [PermissionError], which has one message:
    "Insufficient permissions. Admin role required." *)
Inductive PermissionError : Type :=
  | InsufficientPermissions.

Record PermissionService : Type := mkPermissionService {
  adminRoleIds : list string
}.

(** The part of [DiscordGuildMember] that the service reads. *)
Record DiscordGuildMember : Type := mkDiscordGuildMember {
  roles : list string
}.

(** The part of [DiscordInteraction] that the service reads; [member] is
    optional. *)
Record DiscordInteraction : Type := mkDiscordInteraction {
  member : option DiscordGuildMember
}.

(** [s.split(sep)] for a separator of one character: the pieces between the
    separators, empty ones included. *)
Fixpoint split (sep : Ascii.ascii) (s : string) : list string :=
  match s with
  | EmptyString => [EmptyString]
  | String c s' =>
      if Ascii.eqb c sep then EmptyString :: split sep s'
      else
        match split sep s' with
        | part :: parts => String c part :: parts
        | [] => [String c EmptyString]
        end
  end.

(** [s.trimStart()] and [s.trimEnd()] on strings of ASCII characters. *)
Fixpoint trimStart (s : string) : string :=
  match s with
  | EmptyString => EmptyString
  | String c s' => if isSpace c then trimStart s' else s
  end.

Fixpoint trimEnd (s : string) : string :=
  match s with
  | EmptyString => EmptyString
  | String c s' =>
      match trimEnd s' with
      | EmptyString => if isSpace c then EmptyString else String c EmptyString
      | rest => String c rest
      end
  end.

(** [s.trim()] *)
Definition trim (s : string) : string := trimEnd (trimStart s).

(** [PermissionService.fromEnvironment(env)], from the value of
    [env.TOURNAMENT_ADMIN_ROLES]; the empty string is falsy. *)
Definition fromEnvironment (TOURNAMENT_ADMIN_ROLES : option string)
    : PermissionService :=
  mkPermissionService
    match TOURNAMENT_ADMIN_ROLES with
    | Some (String c s) =>
        filter (fun id => (0 < String.length id)%nat)
               (map trim (split "," (String c s)))
    | _ => []
    end.

(** [xs.includes(x)] on strings *)
Definition includes (xs : list string) (x : string) : bool :=
  existsb (String.eqb x) xs.

(** [extractUserRoles(interaction)] *)
Definition extractUserRoles (interaction : DiscordInteraction) : list string :=
  match member interaction with
  | Some m => roles m
  | None => []
  end.

(** [checkAdminPermission(interaction)] *)
Definition checkAdminPermission (svc : PermissionService)
    (interaction : DiscordInteraction) : bool :=
  if (length (adminRoleIds svc) =? 0)%nat then false
  else
    let userRoles := extractUserRoles interaction in
    existsb (fun adminRole => includes userRoles adminRole) (adminRoleIds svc).

(** [requireAdminPermission(interaction)] *)
Definition requireAdminPermission (svc : PermissionService)
    (interaction : DiscordInteraction) : completion PermissionError unit :=
  let hasPermission := checkAdminPermission svc interaction in
  if negb hasPermission then Abrupt InsufficientPermissions else Normal tt.

(** The characters of a string. *)
Definition chars (s : string) : list Ascii.ascii := list_ascii_of_string s.

(** A string of ASCII characters. *)
Definition asciiOnly (s : string) : Prop :=
  Forall (fun c => (nat_of_ascii c < 128)%nat) (chars s).

(** A role id as [fromEnvironment] keeps it: not empty, without a comma,
    without white space at either end. *)
Definition roleId (id : string) : Prop :=
  id <> EmptyString /\ trim id = id /\ ("," : Ascii.ascii) ∉ chars id.

(** ** [parseMatchString] of [services/tournament.ts] *)

(** [\d] *)
Definition isDigit (c : Ascii.ascii) : bool :=
  let n := nat_of_ascii c in ((48 <=? n) && (n <=? 57))%nat.

(** [[A-Z0-9]] *)
Definition isUpperOrDigit (c : Ascii.ascii) : bool :=
  let n := nat_of_ascii c in ((65 <=? n) && (n <=? 90))%nat || isDigit c.

(** The longest prefix of [s] whose characters satisfy [p], and the rest
    of [s]. *)
Fixpoint span (p : Ascii.ascii -> bool) (s : string) : string * string :=
  match s with
  | EmptyString => (EmptyString, EmptyString)
  | String c s' =>
      if p c then let '(m, rest) := span p s' in (String c m, rest)
      else (EmptyString, s)
  end.

(** A group [([p]+)] that is followed by a character outside of [p] or by
    the end of the input: greedy, and not empty.  Giving back a character
    would put a character of [p] where the pattern goes on with "-" or
    ends, so the longest match is the only one to try. *)
Definition plus (p : Ascii.ascii -> bool) (s : string)
    : option (string * string) :=
  match span p s with
  | (EmptyString, _) => None
  | (m, rest) => Some (m, rest)
  end.

(** The "-" of the pattern. *)
Definition hyphen (s : string) : option string :=
  match s with
  | String "-" rest => Some rest
  | _ => None
  end.

(** [matchString.match(/^([A-Z0-9]+)-(\d+)-(\d+)-([A-Z0-9]+)$/)]: the four
    groups of the match, if there is one. *)
Definition matchGroups (matchString : string)
    : option (string * string * string * string) :=
  '(team1Id, r) ← plus isUpperOrDigit matchString;
  r ← hyphen r;
  '(score1Str, r) ← plus isDigit r;
  r ← hyphen r;
  '(score2Str, r) ← plus isDigit r;
  r ← hyphen r;
  '(team2Id, r) ← plus isUpperOrDigit r;
  match r with
  | EmptyString => Some (team1Id, score1Str, score2Str, team2Id)
  | _ => None
  end.

(** The integer that a string of decimal digits denotes. *)
Definition digitsValue (digits : string) : Z :=
  match NilEmpty.uint_of_string digits with
  | Some d => Z.of_uint d
  | None => 0
  end.

(** [parseInt(s, 10)] on a string of ASCII characters, [None] being NaN:
    white space is skipped, a sign is read, and the longest run of digits
    that follows is the number.  An integer below 2^53 is the number that
    JavaScript returns; above that JavaScript rounds, and the model does
    not. *)
Definition parseInt10 (s : string) : option Z :=
  let s := trimStart s in
  let '(sign, s) :=
    match s with
    | String "-" rest => (-1, rest)
    | String "+" rest => (1, rest)
    | _ => (1, s)
    end in
  match span isDigit s with
  | (EmptyString, _) => None
  | (digits, _) => Some (sign * digitsValue digits)
  end.

(** The codes of the [TournamentError]s of [parseMatchString]:
    INVALID_MATCH_FORMAT, INVALID_SCORES and SAME_TEAM_MATCH. *)
Inductive MatchStringError : Type :=
  | InvalidMatchFormat
  | InvalidScores
  | SameTeamMatch.

Record ParsedMatch : Type := mkParsedMatch {
  pm_team1Id : string;
  pm_score1 : Z;
  pm_score2 : Z;
  pm_team2Id : string
}.

(** [parseMatchString(matchString)] *)
Definition parseMatchString (matchString : string)
    : completion MatchStringError ParsedMatch :=
  match matchGroups matchString with
  | None => Abrupt InvalidMatchFormat
  | Some (team1Id, score1Str, score2Str, team2Id) =>
      match parseInt10 score1Str, parseInt10 score2Str with
      | Some score1, Some score2 =>
          if (score1 <? 0) || (score2 <? 0) then Abrupt InvalidScores
          else if String.eqb team1Id team2Id then Abrupt SameTeamMatch
          else Normal (mkParsedMatch team1Id score1 score2 team2Id)
      | _, _ => Abrupt InvalidScores
      end
  end.

(** Every character of [s] satisfies [p]. *)
Definition allChars (p : Ascii.ascii -> bool) (s : string) : Prop :=
  Forall (fun c => p c = true) (chars s).

(** What the regular expression of [parseMatchString] denotes: a string
    made of four groups, none empty, with "-" between them. *)
Definition matchShape (s team1Id score1Str score2Str team2Id : string)
    : Prop :=
  s = String.append team1Id (String "-" (String.append score1Str
        (String "-" (String.append score2Str (String "-" team2Id)))))
  /\ team1Id <> EmptyString /\ allChars isUpperOrDigit team1Id
  /\ score1Str <> EmptyString /\ allChars isDigit score1Str
  /\ score2Str <> EmptyString /\ allChars isDigit score2Str
  /\ team2Id <> EmptyString /\ allChars isUpperOrDigit team2Id.

(** ** [generateTournamentId] of [db/utils.ts] *)

(** [parts[parts.length - 1]] for [parts = id.split("-")] *)
Definition lastPart (id : string) : string :=
  List.last (split "-" id) EmptyString.

(** The sequence numbers of the ids that the query returns: the last parts
    that [parseInt] reads as numbers, in ascending order. *)
Definition sequenceNumbers (existingIds : list string) : list Z :=
  merge_sort Z.le (omap (fun id => parseInt10 (lastPart id)) existingIds).

(** The loop that looks for the next sequence number. *)
Fixpoint nextSequenceFrom (nextSequence : Z) (numbers : list Z) : Z :=
  match numbers with
  | [] => nextSequence
  | num :: rest =>
      if num =? nextSequence then nextSequenceFrom (nextSequence + 1) rest
      else nextSequence
  end.

(** [generateTournamentId(date)], [existingIds] being the ids of the
    tournaments that the query finds for the date. *)
Definition generateTournamentId (date : string) (existingIds : list string)
    : string :=
  String.append date
    (String "-" (string_of_Z (nextSequenceFrom 1 (sequenceNumbers existingIds)))).

(** The id of the tournament of a date with a sequence number. *)
Definition tournamentId (date : string) (sequence : Z) : string :=
  String.append date (String "-" (string_of_Z sequence)).

(** ** Matches: [MatchRepository] of [db/utils.ts] and [recordMatch] *)

(** The columns of the tables [teams] and [matches] that the code reads;
    [(tournamentId, id)] is the primary key of [teams]. *)
Record TeamRow : Type := mkTeamRow {
  teamTournamentId : string;
  teamRowId : string
}.

Record Match : Type := mkMatch {
  matchTournamentId : string;
  team1Id : string;
  team2Id : string;
  score1 : Z;
  score2 : Z
}.

Record Database : Type := mkDatabase {
  teamsTable : list TeamRow;
  matchesTable : list Match
}.

(** The rows of [getMatches(tournamentId)]; their order, which is by time of
    creation, plays no part in what is computed from them. *)
Definition getMatches (db : Database) (tournamentId : string) : list Match :=
  filter (fun m => matchTournamentId m = tournamentId) (matchesTable db).

(** The counters of the loop of [getTeamStats]. *)
Record Tally : Type := mkTally {
  wins : Z;
  losses : Z;
  totalScoreFor : Z;
  totalScoreAgainst : Z
}.

(** The body of the loop [for (const match of teamMatches)]. *)
Definition tallyMatch (teamId : string) (t : Tally) (m : Match) : Tally :=
  if String.eqb (team1Id m) teamId then
    mkTally
      (if score2 m <? score1 m then wins t + 1 else wins t)
      (if score2 m <? score1 m then losses t
       else if score1 m <? score2 m then losses t + 1 else losses t)
      (totalScoreFor t + score1 m)
      (totalScoreAgainst t + score2 m)
  else
    mkTally
      (if score1 m <? score2 m then wins t + 1 else wins t)
      (if score1 m <? score2 m then losses t
       else if score2 m <? score1 m then losses t + 1 else losses t)
      (totalScoreFor t + score2 m)
      (totalScoreAgainst t + score1 m).

Record TeamStats : Type := mkTeamStats {
  tally : Tally;
  totalMatches : Z
}.

(** The rows of the query of [getTeamStats]. *)
Definition teamMatches (db : Database) (tournamentId teamId : string)
    : list Match :=
  filter (fun m => matchTournamentId m = tournamentId
                   /\ (team1Id m = teamId \/ team2Id m = teamId))
         (matchesTable db).

(** [getTeamStats(tournamentId, teamId)] *)
Definition getTeamStats (db : Database) (tournamentId teamId : string)
    : TeamStats :=
  mkTeamStats
    (fold_left (tallyMatch teamId) (teamMatches db tournamentId teamId)
       (mkTally 0 0 0 0))
    (Z.of_nat (length (teamMatches db tournamentId teamId))).

Record TeamSummary : Type := mkTeamSummary {
  summaryTeamId : string;
  summaryWins : Z;
  summaryLosses : Z;
  summaryTotalMatches : Z;
  goalDifference : Z
}.

Record TournamentSummary : Type := mkTournamentSummary {
  summaryMatches : Z;
  totalGoals : Z;
  averageGoalsPerMatch : Q;
  teamStats : list TeamSummary
}.

(** [getTournamentSummary(tournamentId)]; the average is the quotient that
    JavaScript rounds to a double. *)
Definition getTournamentSummary (db : Database) (tournamentId : string)
    : TournamentSummary :=
  let allMatches := getMatches db tournamentId in
  let total := Z.of_nat (length allMatches) in
  let goals := fold_left (fun sum m => sum + score1 m + score2 m) allMatches 0 in
  let tournamentTeams :=
    filter (fun t => teamTournamentId t = tournamentId) (teamsTable db) in
  mkTournamentSummary total goals
    (if 0 <? total then inject_Z goals / inject_Z total else 0)%Q
    (map (fun team =>
            let stats := getTeamStats db tournamentId (teamRowId team) in
            mkTeamSummary (teamRowId team)
              (wins (tally stats)) (losses (tally stats)) (totalMatches stats)
              (totalScoreFor (tally stats) - totalScoreAgainst (tally stats)))
         tournamentTeams).

(** [validateTeamsExist(tournamentId, team1Id, team2Id)]: the ids that are
    missing. *)
Definition validateTeamsExist (db : Database)
    (tournamentId team1 team2 : string) : list string :=
  let existingIds :=
    map teamRowId
      (filter (fun t => teamTournamentId t = tournamentId
                        /\ (teamRowId t = team1 \/ teamRowId t = team2))
              (teamsTable db)) in
  (if includes existingIds team1 then [] else [team1])
  ++ (if includes existingIds team2 then [] else [team2]).

(** What [recordMatch] throws before it writes: the error of
    [parseMatchString], or TEAMS_NOT_FOUND with the missing ids. *)
Inductive RecordMatchError : Type :=
  | MatchStringRejected (e : MatchStringError)
  | TeamsNotFound (missingTeams : list string).

(** [recordMatch(matchString)] in the open tournament [tournamentId], as far
    as the tables [teams] and [matches] go: the database is taken to answer,
    and the row that [createMatch] inserts is the match returned. *)
Definition recordMatch (tournamentId matchString : string) (db : Database)
    : completion RecordMatchError Match * Database :=
  match parseMatchString matchString with
  | Abrupt e => (Abrupt (MatchStringRejected e), db)
  | Normal parsed =>
      match validateTeamsExist db tournamentId
              (pm_team1Id parsed) (pm_team2Id parsed) with
      | [] =>
          let row :=
            mkMatch tournamentId (pm_team1Id parsed) (pm_team2Id parsed)
              (pm_score1 parsed) (pm_score2 parsed) in
          (Normal row, mkDatabase (teamsTable db) (matchesTable db ++ [row]))
      | missingTeams => (Abrupt (TeamsNotFound missingTeams), db)
      end
  end.

(** The database after a series of calls of [recordMatch], whether they
    succeed or throw. *)
Definition recordMatches (tournamentId : string) (matchStrings : list string)
    (db : Database) : Database :=
  fold_left (fun db matchString => (recordMatch tournamentId matchString db).2)
    matchStrings db.

(** The sum of a column over rows. *)
Definition sumOver {A} (f : A -> Z) (rows : list A) : Z :=
  fold_right (fun row sum => f row + sum) 0 rows.

(** What one match adds to the counters of a team. *)
Definition matchTally (teamId : string) (m : Match) : Tally :=
  tallyMatch teamId (mkTally 0 0 0 0) m.

(** The team is one of the two of the match. *)
Definition involves (teamId : string) (m : Match) : Prop :=
  team1Id m = teamId \/ team2Id m = teamId.

(** The ids of the teams of a tournament. *)
Definition teamIdsOf (db : Database) (tournamentId : string) : list string :=
  map teamRowId
    (filter (fun t => teamTournamentId t = tournamentId) (teamsTable db)).

(** Every match of the tournament is between two different teams of the
    tournament: what [recordMatch] checks before it writes. *)
Definition matchesSound (db : Database) (tournamentId : string) : Prop :=
  Forall (fun m => team1Id m <> team2Id m
                   /\ team1Id m ∈ teamIdsOf db tournamentId
                   /\ team2Id m ∈ teamIdsOf db tournamentId)
         (getMatches db tournamentId).

(** A database with the two teams of one tournament and no match. *)
Definition exampleDatabase : Database :=
  mkDatabase
    [mkTeamRow "2024-01-15-1" "TEAM1"; mkTeamRow "2024-01-15-1" "TEAM2"] [].

(** The same teams after three matches. *)
Definition playedDatabase : Database :=
  mkDatabase (teamsTable exampleDatabase)
    [mkMatch "2024-01-15-1" "TEAM1" "TEAM2" 16 9;
     mkMatch "2024-01-15-1" "TEAM2" "TEAM1" 3 3;
     mkMatch "2024-01-15-1" "TEAM2" "TEAM1" 13 11].

(** ** Team assignments: [TeamRepository] of [db/utils.ts] *)

(** A row of [team_players]. *)
Record TeamPlayerRow : Type := mkTeamPlayerRow {
  rowTeamId : string;
  rowTournamentId : string;
  rowPlayerId : string
}.

(** The rows of a player in a tournament. *)
Definition playerRows (teamPlayers : list TeamPlayerRow)
    (tournamentId playerId : string) : list TeamPlayerRow :=
  filter (fun r => rowTournamentId r = tournamentId /\ rowPlayerId r = playerId)
         teamPlayers.

(** [getPlayerTeam(tournamentId, playerId)]: the first row of the query, if
    any. *)
Definition getPlayerTeam (teamPlayers : list TeamPlayerRow)
    (tournamentId playerId : string) : option TeamPlayerRow :=
  head (playerRows teamPlayers tournamentId playerId).

(** [update(teamPlayers).set({ teamId }).where(...)] on the rows of a player
    in a tournament. *)
Definition setTeamId (tournamentId playerId teamId : string)
    (teamPlayers : list TeamPlayerRow) : list TeamPlayerRow :=
  map (fun r =>
         if decide (rowTournamentId r = tournamentId /\ rowPlayerId r = playerId)
         then mkTeamPlayerRow teamId (rowTournamentId r) (rowPlayerId r)
         else r)
      teamPlayers.

(** The two errors that [exchangePlayers] of the repository throws itself,
    wrapped in "Failed to exchange players". *)
Inductive ExchangeError : Type :=
  | PlayersNotFound
  | PlayersOnSameTeam.

(** [exchangePlayers(tournamentId, player1Id, player2Id)] of the repository,
    on a table in which the two updates meet the primary key: a player with
    rows in two teams would be put twice into one. *)
Definition exchangePlayers (tournamentId player1Id player2Id : string)
    (teamPlayers : list TeamPlayerRow)
    : completion ExchangeError (list TeamPlayerRow) :=
  match getPlayerTeam teamPlayers tournamentId player1Id,
        getPlayerTeam teamPlayers tournamentId player2Id with
  | Some player1Team, Some player2Team =>
      if String.eqb (rowTeamId player1Team) (rowTeamId player2Team) then
        Abrupt PlayersOnSameTeam
      else
        Normal
          (setTeamId tournamentId player2Id (rowTeamId player1Team)
             (setTeamId tournamentId player1Id (rowTeamId player2Team)
                teamPlayers))
  | _, _ => Abrupt PlayersNotFound
  end.

(** The errors that [addPlayerToTeam] of the repository throws itself. *)
Inductive AddPlayerError : Type :=
  | TeamDoesNotExist
  | TeamFull
  | AlreadyAssigned (teamId : string).

(** The players of a team of a tournament. *)
Definition teamRows (teamPlayers : list TeamPlayerRow)
    (tournamentId teamId : string) : list TeamPlayerRow :=
  filter (fun r => rowTournamentId r = tournamentId /\ rowTeamId r = teamId)
         teamPlayers.

(** [addPlayerToTeam(tournamentId, playerId, teamId)] of the repository; the
    insert is taken to succeed, the player being a row of [players]. *)
Definition addPlayerToTeam (teams : list TeamRow)
    (tournamentId playerId teamId : string) (teamPlayers : list TeamPlayerRow)
    : completion AddPlayerError (list TeamPlayerRow) :=
  let teamExists :=
    take 1 (filter (fun t => teamTournamentId t = tournamentId
                             /\ teamRowId t = teamId) teams) in
  if (length teamExists =? 0)%nat then Abrupt TeamDoesNotExist
  else
    let currentPlayers := teamRows teamPlayers tournamentId teamId in
    if (5 <=? length currentPlayers)%nat then Abrupt TeamFull
    else
      match take 1 (playerRows teamPlayers tournamentId playerId) with
      | existingTeamAssignment :: _ =>
          Abrupt (AlreadyAssigned (rowTeamId existingTeamAssignment))
      | [] =>
          Normal (teamPlayers
                  ++ [mkTeamPlayerRow teamId tournamentId playerId])
      end.

(** No player is in two rows of the tournament. *)
Definition assignedOnce (teamPlayers : list TeamPlayerRow)
    (tournamentId : string) : Prop :=
  NoDup (map rowPlayerId
           (filter (fun r => rowTournamentId r = tournamentId) teamPlayers)).

(** No team of the tournament has more than five players. *)
Definition withinCapacity (teamPlayers : list TeamPlayerRow)
    (tournamentId : string) : Prop :=
  forall teamId, (length (teamRows teamPlayers tournamentId teamId) <= 5)%nat.

(** Two teams of two tournaments. *)
Definition exampleAssignments : list TeamPlayerRow :=
  [mkTeamPlayerRow "TEAM1" "2024-01-15-1" "1";
   mkTeamPlayerRow "TEAM1" "2024-01-15-1" "2";
   mkTeamPlayerRow "TEAM2" "2024-01-15-1" "3";
   mkTeamPlayerRow "TEAM2" "2024-01-14-1" "1";
   mkTeamPlayerRow "TEAM2" "2024-01-15-1" "4"].

(** What the two updates of [exchangePlayers] make of a row: the rows of
    the first player get the second team, the rows of the second player
    the first team. *)
Definition movedRow (tournamentId player1Id player2Id team1 team2 : string)
    (r : TeamPlayerRow) : TeamPlayerRow :=
  if decide (rowTournamentId r = tournamentId /\ rowPlayerId r = player1Id)
  then mkTeamPlayerRow team2 (rowTournamentId r) (rowPlayerId r)
  else if decide (rowTournamentId r = tournamentId /\ rowPlayerId r = player2Id)
  then mkTeamPlayerRow team1 (rowTournamentId r) (rowPlayerId r)
  else r.

(** * Properties *)

(** ** Spreads *)

Lemma num_lt_le a b : num_lt a b -> num_le a b.
Proof. unfold num_lt, num_le. destruct a, b; simpl; try done. lia. Qed.

Lemma num_le_trans a b c : num_le a b -> num_le b c -> num_le a c.
Proof. unfold num_le. destruct a, b, c; simpl; try done. lia. Qed.

Lemma num_le_refl a : a <> NaN -> num_le a a.
Proof. unfold num_le. destruct a; simpl; try done. lia. Qed.

Lemma num_lt_PosInf a : a <> NaN -> a <> PosInf -> num_lt a PosInf.
Proof. by destruct a. Qed.

Lemma Math_max_Fin (zs : list Z) (a : Z) :
  fold_left num_max2 (map Fin zs) (Fin a) = Fin (fold_left Z.max zs a).
Proof.
  revert a. induction zs as [|z zs IH]; intros a; [done|].
  cbn [map fold_left]. unfold num_max2 at 2, num_ltb.
  destruct (Z.ltb_spec a z).
  - rewrite IH. f_equal. f_equal. lia.
  - rewrite IH. f_equal. f_equal. lia.
Qed.

Lemma Math_min_Fin (zs : list Z) (a : Z) :
  fold_left num_min2 (map Fin zs) (Fin a) = Fin (fold_left Z.min zs a).
Proof.
  revert a. induction zs as [|z zs IH]; intros a; [done|].
  cbn [map fold_left]. unfold num_min2 at 2, num_ltb.
  destruct (Z.ltb_spec z a).
  - rewrite IH. f_equal. f_equal. lia.
  - rewrite IH. f_equal. f_equal. lia.
Qed.

Lemma fold_max_ge (zs : list Z) (a : Z) : a <= fold_left Z.max zs a.
Proof.
  revert a. induction zs as [|z zs IH]; intros a; simpl; [lia|].
  specialize (IH (Z.max a z)). lia.
Qed.

Lemma fold_min_le (zs : list Z) (a : Z) : fold_left Z.min zs a <= a.
Proof.
  revert a. induction zs as [|z zs IH]; intros a; simpl; [lia|].
  specialize (IH (Z.min a z)). lia.
Qed.

Lemma spread_nil : spread [] = NegInf.
Proof. reflexivity. Qed.

(** The spread of at least one team is a finite number, and not negative. *)
Lemma spread_cons (t : Team) (teams : list Team) :
  exists z, spread (t :: teams) = Fin z /\ 0 <= z.
Proof.
  unfold spread, Math_max, Math_min. cbn [map fold_left].
  change (num_max2 NegInf (Fin (totalAdr t))) with (Fin (totalAdr t)).
  change (num_min2 PosInf (Fin (totalAdr t))) with (Fin (totalAdr t)).
  rewrite <- (map_map totalAdr Fin), Math_max_Fin, Math_min_Fin.
  eexists. split; [reflexivity|].
  pose proof (fold_max_ge (map totalAdr teams) (totalAdr t)).
  pose proof (fold_min_le (map totalAdr teams) (totalAdr t)). lia.
Qed.

Lemma spread_single (t : Team) : spread [t] = Fin 0.
Proof. unfold spread; simpl. f_equal. lia. Qed.

Lemma spread_not_NaN (teams : list Team) : spread teams <> NaN.
Proof.
  destruct teams as [|t teams]; [done|].
  destruct (spread_cons t teams) as (z & -> & _). done.
Qed.

Lemma spread_not_PosInf (teams : list Team) : spread teams <> PosInf.
Proof.
  destruct teams as [|t teams]; [done|].
  destruct (spread_cons t teams) as (z & -> & _). done.
Qed.

(** ** Partitions *)

Lemma sumAdr_snoc (ps : list Player) (p : Player) :
  sumAdr (ps ++ [p]) = sumAdr ps + adr p.
Proof. unfold sumAdr. by rewrite fold_left_app. Qed.

Lemma members_insert (teams : list Team) (i : nat) (t t' : Team) :
  teams !! i = Some t ->
  members (<[i := t']> teams) ++ players t ≡ₚ players t' ++ members teams.
Proof.
  revert i. induction teams as [|u teams IH]; intros [|i] Hi; simplify_eq/=.
  - unfold members; simpl.
    rewrite <- !app_assoc. apply Permutation_app_head, Permutation_app_comm.
  - unfold members in *; simpl. rewrite <- app_assoc, (IH _ Hi).
    rewrite !app_assoc. apply Permutation_app_tail, Permutation_app_comm.
Qed.

Lemma consistent_insert (teams : list Team) (i : nat) (t : Team) :
  consistent teams -> totalAdr t = sumAdr (players t) ->
  consistent (<[i := t]> teams).
Proof. intros H Ht. by apply Forall_insert. Qed.

(** ** [shuffle] permutes *)

Section Shuffle.

Variable random : nat -> nat.

Lemma exchange_Permutation {T} (i j : nat) (l : list T) : exchange i j l ≡ₚ l.
Proof.
  unfold exchange.
  destruct (l !! i) eqn:Hi; [|done]. destruct (l !! j) eqn:Hj; [|done].
  by apply Permutation_insert_swap.
Qed.

Lemma scale_lt (r n : nat) : (0 < n)%nat -> (scale r n < n)%nat.
Proof.
  intros Hn. unfold scale. destruct n; [lia|]. apply Nat.mod_upper_bound. lia.
Qed.

(** In the loop of [shuffle], [i] is below the length and [j] is at most
    [i]: both elements exist, and [exchange] is the three assignments. *)
Lemma exchange_in_range {T} (i : nat) (r : nat) (l : list T) :
  (i < length l)%nat ->
  exists x y,
    l !! i = Some x /\ l !! scale r (i + 1) = Some y
    /\ exchange i (scale r (i + 1)) l
       = <[scale r (i + 1) := x]> (<[i := y]> l).
Proof.
  intros Hi. pose proof (scale_lt r (i + 1) ltac:(lia)) as Hj.
  destruct (lookup_lt_is_Some_2 l i Hi) as [x Hx].
  destruct (lookup_lt_is_Some_2 l (scale r (i + 1)) ltac:(lia)) as [y Hy].
  exists x, y. unfold exchange. by rewrite Hx, Hy.
Qed.

Lemma shuffleFrom_spec {T} (i : nat) (l : list T) (c : nat) :
  (shuffleFrom random i l c).1 ≡ₚ l /\ (shuffleFrom random i l c).2 = (c + i)%nat.
Proof.
  revert l c. induction i as [|i IH]; intros l c; simpl.
  - split; [done|lia].
  - match goal with
    | |- context [shuffleFrom random i ?a ?b] => destruct (IH a b) as [H1 H2]
    end.
    split; [|rewrite H2; lia]. by rewrite H1, exchange_Permutation.
Qed.

Lemma shuffleArray_Permutation {T} (l : list T) (c : nat) :
  (shuffleArray random l c).1 ≡ₚ l.
Proof. apply shuffleFrom_spec. Qed.

Lemma shuffleArray_cursor {T} (l : list T) (c : nat) :
  (shuffleArray random l c).2 = (c + (length l - 1))%nat.
Proof. apply shuffleFrom_spec. Qed.

(** The first two elements of the shuffled team indices: two distinct
    indices of teams, when there are two teams. *)
Lemma shuffled_indices (n c : nat) (i j : nat) :
  (shuffleArray random (seq 0 n) c).1 !! 0%nat = Some i ->
  (shuffleArray random (seq 0 n) c).1 !! 1%nat = Some j ->
  i <> j /\ (i < n)%nat /\ (j < n)%nat.
Proof.
  intros Hi Hj.
  pose proof (shuffleArray_Permutation (seq 0 n) c) as HP.
  assert (NoDup (shuffleArray random (seq 0 n) c).1) as HN.
  { rewrite HP. apply NoDup_seq. }
  split; [|split].
  - intros ->. by pose proof (NoDup_lookup _ _ _ _ HN Hi Hj).
  - apply list_elem_of_lookup_2 in Hi. rewrite HP in Hi.
    apply elem_of_seq in Hi. lia.
  - apply list_elem_of_lookup_2 in Hj. rewrite HP in Hj.
    apply elem_of_seq in Hj. lia.
Qed.

Lemma shuffled_indices_exist (n c : nat) :
  (2 <= n)%nat ->
  exists i j, (shuffleArray random (seq 0 n) c).1 !! 0%nat = Some i
    /\ (shuffleArray random (seq 0 n) c).1 !! 1%nat = Some j.
Proof.
  intros Hn.
  pose proof (shuffleArray_Permutation (seq 0 n) c) as HP.
  apply Permutation_length in HP. rewrite length_seq in HP.
  destruct ((shuffleArray random (seq 0 n) c).1) as [|i [|j l]]; simpl in *;
    try lia.
  by exists i, j.
Qed.

End Shuffle.

(** ** The round-robin placement *)

Lemma quotient_unique (nt q r q' r' : nat) :
  (r < nt)%nat -> (r' < nt)%nat -> (q * nt + r = q' * nt + r')%nat ->
  q' = q /\ r' = r.
Proof.
  intros Hr Hr' Heq.
  assert (q' = q) as ->.
  { destruct (Nat.lt_trichotomy q q') as [H|[H|H]]; [|done|]; exfalso; nia. }
  split; [done|lia].
Qed.

Lemma placeFrom_spec (nt : nat) (ps : list Player) :
  forall (q r : nat) (teams : list Team),
    (r < nt)%nat -> length teams = nt ->
    (forall k t, teams !! k = Some t ->
       length (players t) = (q + (if decide (k < r)%nat then 1 else 0))%nat) ->
    exists teams',
      placeFrom (Z.of_nat nt) (q * nt + r) ps teams = Ok teams'
      /\ length teams' = nt
      /\ members teams' ≡ₚ members teams ++ ps
      /\ (consistent teams -> consistent teams')
      /\ (forall q' r', (q * nt + r + length ps = q' * nt + r')%nat ->
            (r' < nt)%nat ->
            forall k t, teams' !! k = Some t ->
              length (players t) = (q' + (if decide (k < r')%nat then 1 else 0))%nat).
Proof.
  induction ps as [|p ps IH]; intros q r teams Hr Hlen Hinv.
  - exists teams. simpl. rewrite app_nil_r. repeat split; try done.
    intros q' r' Heq Hr' k t Hk.
    simpl in Heq. rewrite Nat.add_0_r in Heq.
    destruct (quotient_unique nt q r q' r') as [-> ->]; [done..|]. by apply Hinv.
  - cbn [placeFrom].
    assert (Z.to_nat (Z.rem (Z.of_nat (q * nt + r)) (Z.of_nat nt)) = r) as ->.
    { rewrite Z.rem_mod_nonneg by lia.
      rewrite <- Nat2Z.inj_mod, Nat2Z.id.
      rewrite Nat.add_comm, Nat.Div0.mod_add. by apply Nat.mod_small. }
    destruct (lookup_lt_is_Some_2 teams r) as [team Hteam]; [lia|].
    rewrite Hteam.
    set (teams1 := <[r := addPlayer team p]> teams).
    assert (length teams1 = nt) as Hlen1 by (unfold teams1; by rewrite length_insert).
    assert (members teams1 ≡ₚ members teams ++ [p]) as Hmem1.
    { pose proof (members_insert teams r team (addPlayer team p) Hteam) as HP.
      fold teams1 in HP. simpl in HP.
      apply (Permutation_app_inv_r (players team)). rewrite HP.
      rewrite (Permutation_app_comm (players team ++ [p])), <- app_assoc.
      apply Permutation_app_head, Permutation_app_comm. }
    assert (consistent teams -> consistent teams1) as Hcons1.
    { intros Hc. apply consistent_insert; [done|]. simpl.
      rewrite sumAdr_snoc. f_equal.
      eapply Forall_lookup_1 in Hc; [|exact Hteam]. done. }
    destruct (decide (S r < nt)%nat) as [Hlt|Hge].
    + destruct (IH q (S r) teams1) as (teams' & HOk & ? & HP & HC & HL); [done|done| |].
      { intros k t Hk. unfold teams1 in Hk.
        destruct (decide (k = r)) as [->|Hne].
        - rewrite list_lookup_insert_eq in Hk by lia. simplify_eq/=.
          rewrite length_app, (Hinv _ _ Hteam). simpl.
          repeat case_decide; lia.
        - rewrite list_lookup_insert_ne in Hk by done.
          rewrite (Hinv _ _ Hk). repeat case_decide; lia. }
      exists teams'.
      replace (S (q * nt + r)) with (q * nt + S r)%nat by lia.
      split; [done|]. split; [done|]. split.
      { rewrite HP, Hmem1, <- app_assoc. done. }
      split; [tauto|].
      intros q' r' Heq. apply HL. simpl in Heq. lia.
    + destruct (IH (S q) 0%nat teams1) as (teams' & HOk & ? & HP & HC & HL); [lia|done| |].
      { intros k t Hk. unfold teams1 in Hk.
        pose proof (lookup_lt_Some _ _ _ Hk) as Hk'.
        rewrite length_insert in Hk'.
        destruct (decide (k = r)) as [->|Hne].
        - rewrite list_lookup_insert_eq in Hk by lia. simplify_eq/=.
          rewrite length_app, (Hinv _ _ Hteam). simpl.
          repeat case_decide; lia.
        - rewrite list_lookup_insert_ne in Hk by done.
          rewrite (Hinv _ _ Hk). repeat case_decide; lia. }
      exists teams'.
      replace (S (q * nt + r)) with (S q * nt + 0)%nat by lia.
      split; [done|]. split; [done|]. split.
      { rewrite HP, Hmem1, <- app_assoc. done. }
      split; [tauto|].
      intros q' r' Heq. apply HL. simpl in Heq. lia.
Qed.

Lemma members_emptyTeams (n : Z) : members (emptyTeams n) = [].
Proof.
  unfold emptyTeams, members. induction (Z.to_nat n) as [|k IH]; [done|].
  simpl. exact IH.
Qed.

Lemma consistent_emptyTeams (n : Z) : consistent (emptyTeams n).
Proof. unfold emptyTeams, consistent. by apply Forall_replicate. Qed.

(** [computeTeams] on a roster whose length is a multiple of a positive
    [teamSize]: the teams are a partition of the roster with consistent
    totals, and [adrDiff] is their spread. *)
Lemma computeTeams_spec (ps : list Player) (teamSize : Z) :
  0 < teamSize -> Z.of_nat (length ps) mod teamSize = 0 ->
  exists teams,
    computeTeams ps teamSize = Ok (teams, spread teams)
    /\ partitionOf ps teamSize teams /\ consistent teams.
Proof.
  intros Hts Hmod. unfold computeTeams.
  rewrite Z.quot_div_nonneg by lia.
  set (N := Z.of_nat (length ps)) in *.
  assert (0 <= N / teamSize) as Hnt by (apply Z.div_pos; lia).
  assert (N = teamSize * (N / teamSize)) as HN.
  { rewrite (Z.div_mod N teamSize) at 1 by lia. lia. }
  destruct (decide (N / teamSize = 0)) as [H0|Hpos].
  - assert (ps = []) as -> by (destruct ps; [done|simpl in *; lia]).
    rewrite H0. exists []. simpl. split; [done|]. split; [|constructor].
    split; [|split; [constructor|done]].
    simpl. by rewrite Z.div_0_l by lia.
  - set (nt := Z.to_nat (N / teamSize)).
    assert (Z.of_nat nt = N / teamSize) as Hnt' by (unfold nt; lia).
    rewrite <- Hnt'.
    destruct (placeFrom_spec nt ps 0 0 (emptyTeams (Z.of_nat nt)))
      as (teams & HOk & Hlen & HP & HC & HL).
    + lia.
    + unfold emptyTeams. rewrite length_replicate. lia.
    + intros k t Hk. unfold emptyTeams in Hk.
      apply lookup_replicate_1 in Hk as [-> _]. simpl. repeat case_decide; lia.
    + simpl in HOk. rewrite HOk. exists teams. split; [done|].
      split; [|apply HC, consistent_emptyTeams].
      split; [rewrite Hlen; exact Hnt'|]. split.
      * apply Forall_lookup_2. intros k t Hk.
        rewrite (HL (Z.to_nat teamSize) 0%nat) with (k := k);
          [repeat case_decide; lia| |lia|exact Hk].
        simpl. apply Nat2Z.inj.
        rewrite Nat.add_0_r, Nat2Z.inj_mul, Z2Nat.id, Hnt' by lia.
        fold N. lia.
      * by rewrite HP, members_emptyTeams.
Qed.

(** ** Swaps *)

Lemma sizes_insert (teams : list Team) (i : nat) (t t' : Team) :
  teams !! i = Some t -> length (players t') = length (players t) ->
  sizes (<[i := t']> teams) = sizes teams.
Proof.
  intros Hi Hlen. unfold sizes.
  rewrite list_fmap_insert. apply list_insert_id.
  rewrite list_lookup_fmap, Hi. simpl. by rewrite Hlen.
Qed.

Lemma setPlayer_consistent (t : Team) (a : nat) (p : Player) :
  totalAdr (setPlayer t a p) = sumAdr (players (setPlayer t a p)).
Proof. reflexivity. Qed.

Lemma setPlayer_length (t : Team) (a : nat) (p : Player) :
  length (players (setPlayer t a p)) = length (players t).
Proof. simpl. apply length_insert. Qed.

(** Writing back the player that was at [a] restores a consistent team. *)
Lemma setPlayer_revert (t : Team) (a : nat) (p q : Player) :
  players t !! a = Some p -> totalAdr t = sumAdr (players t) ->
  setPlayer (setPlayer t a q) a p = t.
Proof.
  intros Ha Ht. destruct t as [ps tot]; simpl in *.
  unfold setPlayer; simpl.
  rewrite list_insert_insert_eq, list_insert_id by done. by rewrite Ht.
Qed.

Lemma insert_Permutation {T} (l : list T) (i : nat) (x y : T) :
  l !! i = Some x -> <[i := y]> l ≡ₚ y :: delete i l.
Proof.
  intros Hi. rewrite insert_take_drop by (by eapply lookup_lt_Some).
  by rewrite delete_take_drop, <- Permutation_middle.
Qed.

Section Swap.

Variables (teams : list Team) (i j aIndex bIndex : nat).
Variables (teamA teamB : Team) (playerA playerB : Player).
Hypothesis Hi : teams !! i = Some teamA.
Hypothesis Hj : teams !! j = Some teamB.
Hypothesis Hij : i <> j.
Hypothesis Ha : players teamA !! aIndex = Some playerA.
Hypothesis Hb : players teamB !! bIndex = Some playerB.

Local Abbreviation swapped :=
  (assignPlayers teams i j aIndex bIndex teamA teamB playerB playerA).

Lemma swapped_lookup_i : swapped !! i = Some (setPlayer teamA aIndex playerB).
Proof using Hi Hij.
  unfold swapped, assignPlayers.
  rewrite list_lookup_insert_ne by done.
  apply list_lookup_insert_eq. by eapply lookup_lt_Some.
Qed.

Lemma swapped_lookup_j : swapped !! j = Some (setPlayer teamB bIndex playerA).
Proof using Hj.
  unfold swapped, assignPlayers.
  apply list_lookup_insert_eq. rewrite length_insert. by eapply lookup_lt_Some.
Qed.

Lemma swapped_length : length swapped = length teams.
Proof. unfold swapped, assignPlayers. by rewrite !length_insert. Qed.

Lemma swapped_sizes : sizes swapped = sizes teams.
Proof using Hi Hj Hij.
  unfold swapped, assignPlayers.
  rewrite (sizes_insert _ j teamB), (sizes_insert _ i teamA);
    auto using setPlayer_length.
  by rewrite list_lookup_insert_ne.
Qed.

Lemma swapped_consistent : consistent teams -> consistent swapped.
Proof.
  intros Hc. unfold swapped, assignPlayers.
  by repeat apply consistent_insert.
Qed.

(** A swap moves [playerB] into [teamA] and [playerA] into [teamB], and
    nobody else. *)
Lemma swapped_members : members swapped ≡ₚ members teams.
Proof using Hi Hj Hij Ha Hb.
  unfold swapped, assignPlayers.
  pose proof (members_insert teams i teamA (setPlayer teamA aIndex playerB) Hi)
    as H1.
  assert (<[i := setPlayer teamA aIndex playerB]> teams !! j = Some teamB) as Hj'
    by (by rewrite list_lookup_insert_ne).
  pose proof (members_insert _ j teamB (setPlayer teamB bIndex playerA) Hj')
    as H2.
  apply (Permutation_app_inv_r (players teamB ++ players teamA)).
  transitivity (players (setPlayer teamB bIndex playerA)
                  ++ players (setPlayer teamA aIndex playerB) ++ members teams).
  { rewrite app_assoc. etransitivity; [apply Permutation_app_tail, H2|].
    rewrite <- app_assoc. apply Permutation_app_head, H1. }
  rewrite (Permutation_app_comm (members teams)), app_assoc.
  apply Permutation_app_tail. simpl.
  rewrite (insert_Permutation _ _ _ playerA Hb).
  rewrite (insert_Permutation _ _ _ playerB Ha).
  rewrite (delete_Permutation _ _ _ Ha) at 2.
  rewrite (delete_Permutation _ _ _ Hb) at 2.
  simpl. rewrite <- !Permutation_middle. apply perm_swap.
Qed.

(** The revert, on the teams as the swap left them, restores the teams as
    they were before the swap. *)
Lemma reverted_teams :
  consistent teams ->
  assignPlayers swapped i j aIndex bIndex
    (setPlayer teamA aIndex playerB) (setPlayer teamB bIndex playerA)
    playerA playerB = teams.
Proof using Hi Hj Hij Ha Hb.
  intros Hc. unfold swapped, assignPlayers.
  assert (totalAdr teamA = sumAdr (players teamA)) as HA
    by exact (Forall_lookup_1 _ _ _ _ Hc Hi).
  assert (totalAdr teamB = sumAdr (players teamB)) as HB
    by exact (Forall_lookup_1 _ _ _ _ Hc Hj).
  rewrite !setPlayer_revert by done.
  rewrite (list_insert_insert_ne _ i j) by done.
  rewrite !list_insert_insert_eq.
  rewrite (list_insert_id _ i) by done.
  by rewrite list_insert_id.
Qed.

End Swap.

(** ** One iteration of the search *)

Section Attempt.

Variable random : nat -> nat.

(** An iteration that does not throw has picked two distinct teams and one
    member of each; it returns the swapped teams when the swap makes the
    spread smaller, and the result of the revert otherwise. *)
Lemma attempt_Ok teams adrDiff noImprovement st r st' :
  attempt random (teams, adrDiff, noImprovement) st = (Ok r, st') ->
  exists i j aIndex bIndex teamA teamB playerA playerB,
    teams !! i = Some teamA /\ teams !! j = Some teamB /\ i <> j
    /\ players teamA !! aIndex = Some playerA
    /\ players teamB !! bIndex = Some playerB
    /\ heap st' = heap st
    /\ let swapped :=
         assignPlayers teams i j aIndex bIndex teamA teamB playerB playerA in
       r = if num_ltb (spread swapped) adrDiff
           then (swapped, spread swapped, O)
           else (assignPlayers swapped i j aIndex bIndex
                   (setPlayer teamA aIndex playerB)
                   (setPlayer teamB bIndex playerA) playerA playerB,
                 adrDiff, S noImprovement).
Proof.
  unfold attempt, bind, shuffleLocal, Math_random, ret, throw, teamAt.
  destruct (shuffleArray random (seq 0 (length teams)) (cursor st))
    as [indices c] eqn:Hsh.
  cbn [heap cursor].
  destruct (indices !! 0%nat) as [i|] eqn:Hi0; cbn [mbind option_bind]; [|done].
  destruct (teams !! i) as [teamA|] eqn:Hi; [|done].
  destruct (indices !! 1%nat) as [j|] eqn:Hj1; cbn [mbind option_bind heap cursor]; [|done].
  destruct (teams !! j) as [teamB|] eqn:Hj; [|done].
  destruct (players teamA !! _) as [playerA|] eqn:Ha; [|done].
  destruct (players teamB !! _) as [playerB|] eqn:Hb; [|done].
  assert (i <> j) as Hij.
  { replace indices with (shuffleArray random (seq 0 (length teams)) (cursor st)).1
      in Hi0, Hj1 by (by rewrite Hsh).
    by destruct (shuffled_indices _ _ _ _ _ Hi0 Hj1). }
  intros H. eexists i, j, _, _, teamA, teamB, playerA, playerB.
  split; [exact Hi|]. split; [exact Hj|]. split; [exact Hij|].
  split; [exact Ha|]. split; [exact Hb|].
  rewrite (swapped_lookup_i _ _ _ _ _ _ _ _ _ Hi Hij) in H.
  rewrite (swapped_lookup_j _ _ _ _ _ _ _ _ _ Hj) in H.
  destruct (num_ltb _ adrDiff); simplify_eq/=; done.
Qed.


(** Whether accepted or reverted, a swap keeps the members, the sizes of the
    teams and the consistency of the totals; either the teams are the ones
    before the swap and the counter is one more, or the tracked spread is
    the spread of the new teams, strictly smaller than before, and the
    counter is zero. *)
Lemma attempt_step teams adrDiff noImprovement st r st' :
  attempt random (teams, adrDiff, noImprovement) st = (Ok r, st') ->
  consistent teams ->
  heap st' = heap st
  /\ members r.1.1 ≡ₚ members teams
  /\ sizes r.1.1 = sizes teams
  /\ consistent r.1.1
  /\ (r = (teams, adrDiff, S noImprovement)
      \/ (r.1.2 = spread r.1.1 /\ num_lt r.1.2 adrDiff /\ r.2 = O)).
Proof.
  intros H Hc.
  apply attempt_Ok in H
    as (i & j & a & b & tA & tB & pA & pB & Hi & Hj & Hij & Ha & Hb & Hh & Hr).
  split; [done|]. cbn zeta in Hr.
  rewrite (reverted_teams _ _ _ _ _ _ _ _ _ Hi Hj Hij Ha Hb Hc) in Hr.
  destruct (num_ltb _ adrDiff) eqn:Hlt; subst r; cbn [fst snd].
  - split; [by apply swapped_members|].
    split; [by apply swapped_sizes|].
    split; [by apply swapped_consistent|].
    right. done.
  - repeat split; try done. by left.
Qed.

Lemma attempt_heap s st : heap (attempt random s st).2 = heap st.
Proof.
  destruct s as [[teams adrDiff] noImprovement].
  unfold attempt, bind, shuffleLocal, Math_random, ret, throw.
  destruct (shuffleArray _ _ _) as [indices c].
  repeat (case_match; cbn [heap cursor snd]; try done).
Qed.

(** With two teams or more, none of them empty, an iteration does not
    throw. *)
Lemma attempt_total teams adrDiff noImprovement st :
  (2 <= length teams)%nat -> Forall (fun n => (0 < n)%nat) (sizes teams) ->
  exists r st', attempt random (teams, adrDiff, noImprovement) st = (Ok r, st').
Proof.
  intros Hlen Hne.
  destruct (shuffled_indices_exist random (length teams) (cursor st) Hlen)
    as (i & j & Hi0 & Hj1).
  destruct (shuffled_indices random _ _ _ _ Hi0 Hj1) as (Hij & Hi & Hj).
  destruct (lookup_lt_is_Some_2 teams i Hi) as [tA HA].
  destruct (lookup_lt_is_Some_2 teams j Hj) as [tB HB].
  assert (forall k t, teams !! k = Some t -> (0 < length (players t))%nat) as Hpos.
  { intros k t Hk. eapply Forall_lookup_1 in Hne; [exact Hne|].
    unfold sizes. by rewrite list_lookup_fmap, Hk. }
  assert (forall (l : list Player) r, (0 < length l)%nat ->
            is_Some (l !! scale r (length l))) as Hsc.
  { intros l r Hl. apply lookup_lt_is_Some_2. unfold scale.
    destruct (length l) eqn:E; [lia|]. apply Nat.mod_upper_bound. lia. }
  unfold attempt, bind, shuffleLocal, Math_random, ret, throw, teamAt.
  destruct (shuffleArray random (seq 0 (length teams)) (cursor st))
    as [indices c] eqn:Hsh.
  cbn [fst] in Hi0, Hj1. rewrite Hi0, Hj1.
  cbn [heap cursor mbind option_bind]. rewrite HA, HB.
  match goal with
  | |- context [players tA !! scale ?r _] =>
      destruct (Hsc (players tA) r (Hpos _ _ HA)) as [pA Ha]; rewrite Ha
  end.
  cbn [heap cursor].
  match goal with
  | |- context [players tB !! scale ?r _] =>
      destruct (Hsc (players tB) r (Hpos _ _ HB)) as [pB Hb]; rewrite Hb
  end.
  rewrite (swapped_lookup_i _ _ _ _ _ _ _ _ _ HA Hij).
  rewrite (swapped_lookup_j _ _ _ _ _ _ _ _ _ HB).
  destruct (num_ltb _ adrDiff); eauto.
Qed.

(** With a single team the second index is [undefined], and the iteration
    throws when it reads the members of the second team. *)
Lemma attempt_single t adrDiff noImprovement st :
  attempt random ([t], adrDiff, noImprovement) st
  = (Throw TypeError, mkState (heap st) (S (S (cursor st)))).
Proof. reflexivity. Qed.

(** Without a team both indices are [undefined]. *)
Lemma attempt_none adrDiff noImprovement st :
  attempt random ([], adrDiff, noImprovement) st
  = (Throw TypeError, mkState (heap st) (S (cursor st))).
Proof. reflexivity. Qed.

End Attempt.

(** ** The search loop *)

Lemma num_lt_trans a b c : num_lt a b -> num_lt b c -> num_lt a c.
Proof. unfold num_lt. destruct a, b, c; simpl; try done. lia. Qed.

Section Search.

Variable random : nat -> nat.
Variable maxNoImprovement : Z.

Lemma search_heap fuel s st :
  heap (search random fuel maxNoImprovement s st).2 = heap st.
Proof.
  revert s st. induction fuel as [|fuel IH]; intros [[teams d] n] st;
    cbn [search]; case_match; try done.
  unfold bind. pose proof (attempt_heap random (teams, d, n) st) as Hh.
  destruct (attempt random (teams, d, n) st) as [[s'| |] st1]; try done.
  by rewrite IH.
Qed.

(** The search keeps the members, the sizes and the consistency of the
    totals; the tracked spread never grows, and it is the spread of the
    teams at the end when it was at the start. *)
Lemma search_Ok fuel teams adrDiff noImprovement st teams' adrDiff' st' :
  search random fuel maxNoImprovement (teams, adrDiff, noImprovement) st
    = (Ok (teams', adrDiff'), st') ->
  consistent teams ->
  members teams' ≡ₚ members teams
  /\ sizes teams' = sizes teams
  /\ consistent teams'
  /\ (adrDiff = spread teams -> adrDiff' = spread teams')
  /\ (adrDiff' = adrDiff \/ num_lt adrDiff' adrDiff).
Proof.
  revert teams adrDiff noImprovement st.
  induction fuel as [|fuel IH]; intros teams d n st; cbn [search];
    case_match; try done.
  - intros [= -> ->] Hc. repeat split; auto.
  - unfold bind.
    destruct (attempt random (teams, d, n) st) as [[[[teams1 d1] n1]| |] st1]
      eqn:Hat; try done.
    intros Hs Hc.
    destruct (attempt_step random _ _ _ _ _ _ Hat Hc)
      as (_ & Hm & Hsz & Hc1 & Hcase). cbn [fst snd] in *.
    destruct (IH _ _ _ _ Hs Hc1) as (Hm' & Hsz' & Hc' & Hsp & Hle).
    split; [by rewrite Hm'|]. split; [by rewrite Hsz'|]. split; [done|].
    destruct Hcase as [[= -> -> ->]|(Hd1 & Hlt & _)].
    + split; done.
    + split; [auto|]. right.
      destruct Hle as [->|Hle]; [done|]. by eapply num_lt_trans.
  - intros [= -> ->] Hc. repeat split; auto.
Qed.

(** More fuel does not change a run that ended. *)
Lemma search_fuel_mono fuel fuel' s st :
  (search random fuel maxNoImprovement s st).1 <> OutOfFuel ->
  (fuel <= fuel')%nat ->
  search random fuel' maxNoImprovement s st
  = search random fuel maxNoImprovement s st.
Proof.
  revert fuel' s st.
  induction fuel as [|fuel IH]; intros fuel' [[teams d] n] st Hne Hle.
  - cbn [search] in *. destruct fuel'; cbn [search]; case_match; try done.
  - destruct fuel' as [|fuel']; [lia|]. cbn [search] in *.
    case_match; try done. unfold bind in *.
    destruct (attempt random (teams, d, n) st) as [[s1| |] st1]; try done.
    apply IH; [done|lia].
Qed.

(** The search ends: an accepted swap makes the spread, a natural number of
    hundredths, smaller, and the rejected swaps in a row are counted. *)
Lemma search_total (rank : nat) :
  forall teams noImprovement st z,
    (2 <= length teams)%nat -> Forall (fun n => (0 < n)%nat) (sizes teams) ->
    consistent teams -> spread teams = Fin z -> (Z.to_nat z <= rank)%nat ->
    exists fuel0 r st',
      forall fuel, (fuel0 <= fuel)%nat ->
        search random fuel maxNoImprovement (teams, Fin z, noImprovement) st
        = (Ok r, st').
Proof.
  induction rank as [rank IHrank] using lt_wf_ind.
  intros teams n st z Hlen Hne Hc Hsp Hrank.
  remember (Z.to_nat (maxNoImprovement - Z.of_nat n)) as k eqn:Hk.
  revert n st Hk. induction k as [|k IHk]; intros n st Hk.
  - exists 0%nat, (teams, Fin z), st. intros fuel _.
    destruct fuel; cbn [search]; case_match; try done; lia.
  - destruct (attempt_total random teams (Fin z) n st Hlen Hne)
      as ([[teams1 d1] n1] & st1 & Hat).
    destruct (attempt_step random _ _ _ _ _ _ Hat Hc)
      as (_ & Hm & Hsz & Hc1 & Hcase). cbn [fst snd] in *.
    destruct Hcase as [[= -> -> ->]|(Hd1 & Hlt & ->)].
    + destruct (IHk (S n) st1) as (fuel0 & r & st' & Hf); [lia|].
      exists (S fuel0), r, st'. intros [|fuel] Hfuel; [lia|].
      cbn [search]. case_match; [|lia]. unfold bind. rewrite Hat.
      apply Hf. lia.
    + assert (length teams1 = length teams) as Hlen1.
      { pose proof (f_equal length Hsz) as HL. unfold sizes in HL.
        by rewrite !length_map in HL. }
      destruct teams1 as [|t1 teams1]; [simpl in *; lia|].
      destruct (spread_cons t1 teams1) as (z1 & Hz1 & Hz1pos).
      rewrite Hz1 in Hd1. subst d1. unfold num_lt in Hlt. simpl in Hlt.
      destruct (IHrank (Z.to_nat z1) ltac:(lia) (t1 :: teams1) 0%nat st1 z1)
        as (fuel0 & r & st' & Hf); try done; try lia.
      { by rewrite Hsz. }
      exists (S fuel0), r, st'. intros [|fuel] Hfuel; [lia|].
      cbn [search]. case_match; [|lia]. unfold bind. rewrite Hat.
      apply Hf. lia.
Qed.

End Search.

(** ** One run *)

Lemma partitionOf_equiv roster roster' teamSize teams teams' :
  partitionOf roster teamSize teams ->
  sizes teams' = sizes teams -> members teams' ≡ₚ members teams ->
  roster ≡ₚ roster' ->
  partitionOf roster' teamSize teams'.
Proof.
  intros (Hn & Hsz & Hm) Hs Hm' Hr. split; [|split].
  - rewrite <- (Permutation_length Hr), <- Hn.
    pose proof (f_equal length Hs) as HL. unfold sizes in HL.
    rewrite !length_map in HL. by rewrite HL.
  - apply Forall_lookup_2. intros k t Hk.
    assert (sizes teams !! k = Some (length (players t))) as Hk'.
    { rewrite <- Hs. unfold sizes. by rewrite list_lookup_fmap, Hk. }
    unfold sizes in Hk'. rewrite list_lookup_fmap in Hk'.
    destruct (teams !! k) as [u|] eqn:Hu; [|done]. simpl in Hk'.
    injection Hk' as Hk'. rewrite <- Hk'.
    exact (Forall_lookup_1 _ _ _ _ Hsz Hu).
  - by rewrite Hm', Hm.
Qed.

Section Run.

Variable random : nat -> nat.
Variables (playersRef : loc) (teamSize maxNoImprovement : Z).

Lemma oneRun_unfold fuel st :
  oneRun random fuel playersRef teamSize maxNoImprovement st
  = match computeTeams (afterShuffle random playersRef st).1 teamSize with
    | Ok init =>
        search random fuel maxNoImprovement (init.1, init.2, O) (afterShuffle random playersRef st).2
    | Throw e => (Throw e, (afterShuffle random playersRef st).2)
    | OutOfFuel => (OutOfFuel, (afterShuffle random playersRef st).2)
    end.
Proof.
  unfold oneRun, bind, readArray, allocArray, shuffle, lift, afterShuffle.
  cbn [heap cursor fst snd].
  rewrite lookup_app_r, Nat.sub_diag by done. cbn [lookup list_lookup].
  change (default [] (Some ?x)) with x.
  destruct (shuffleArray random _ (cursor st)) as [sh c] eqn:Hsh.
  cbn [heap cursor fst snd].
  rewrite insert_app_r_alt, Nat.sub_diag by done.
  cbn [insert list_insert].
  rewrite lookup_app_r, Nat.sub_diag by done. cbn [lookup list_lookup].
  change (default [] (Some sh)) with sh.
  by destruct (computeTeams sh teamSize).
Qed.

(** A run only appends its shuffled copy to the heap, however it ends. *)
Lemma oneRun_heap fuel st :
  heap (oneRun random fuel playersRef teamSize maxNoImprovement st).2
  = heap st ++ [(afterShuffle random playersRef st).1].
Proof.
  rewrite oneRun_unfold.
  destruct (computeTeams _ teamSize) as [init| |]; try done.
  by rewrite search_heap.
Qed.

Variable roster : list Player.
Hypothesis Hsize : 0 < teamSize.
Hypothesis Hmod : Z.of_nat (length roster) mod teamSize = 0.

Lemma afterShuffle_roster st :
  heap st !! playersRef = Some roster ->
  (afterShuffle random playersRef st).1 ≡ₚ roster
  /\ heap (afterShuffle random playersRef st).2 !! playersRef = Some roster.
Proof.
  intros Hl. unfold afterShuffle. rewrite Hl. cbn [default fst snd heap].
  split; [apply shuffleArray_Permutation|].
  rewrite lookup_app_l; [done|]. by eapply lookup_lt_Some.
Qed.

(** The initial teams of a run. *)
Lemma initial_teams st :
  heap st !! playersRef = Some roster ->
  exists teams0,
    computeTeams (afterShuffle random playersRef st).1 teamSize = Ok (teams0, spread teams0)
    /\ partitionOf roster teamSize teams0 /\ consistent teams0.
Proof using Hsize Hmod.
  intros Hl. destruct (afterShuffle_roster st Hl) as [HP _].
  destruct (computeTeams_spec (afterShuffle random playersRef st).1 teamSize Hsize)
    as (teams0 & Hct & Hpart & Hc).
  { by rewrite (Permutation_length HP). }
  exists teams0. split; [done|]. split; [|done].
  by apply (partitionOf_equiv _ _ _ _ _ Hpart).
Qed.

(** What a run returns: a partition of the roster with consistent totals,
    its spread, and a spread no larger than the one of the initial teams. *)
Lemma oneRun_Ok fuel st teams adrDiff st' :
  heap st !! playersRef = Some roster ->
  oneRun random fuel playersRef teamSize maxNoImprovement st
    = (Ok (teams, adrDiff), st') ->
  partitionOf roster teamSize teams /\ consistent teams
  /\ adrDiff = spread teams
  /\ exists teams0,
       computeTeams (afterShuffle random playersRef st).1 teamSize = Ok (teams0, spread teams0)
       /\ num_le adrDiff (spread teams0).
Proof using Hsize Hmod.
  intros Hl. rewrite oneRun_unfold.
  destruct (initial_teams st Hl) as (teams0 & Hct & Hpart & Hc).
  rewrite Hct. cbn [fst snd]. intros Hs.
  destruct (search_Ok _ _ _ _ _ _ _ _ _ _ Hs Hc) as (Hm & Hsz & Hc' & Hsp & Hle).
  split; [by apply (partitionOf_equiv _ _ _ _ _ Hpart)|].
  split; [done|]. split; [auto|]. exists teams0. split; [done|].
  destruct Hle as [->|Hlt]; [|by apply num_lt_le].
  apply num_le_refl, spread_not_NaN.
Qed.

(** A run of at least two teams returns, with enough fuel. *)
Lemma oneRun_total st :
  heap st !! playersRef = Some roster ->
  2 <= Z.of_nat (length roster) / teamSize ->
  exists fuel0 r st',
    forall fuel, (fuel0 <= fuel)%nat ->
      oneRun random fuel playersRef teamSize maxNoImprovement st = (Ok r, st').
Proof using Hsize Hmod.
  intros Hl Hnt.
  destruct (initial_teams st Hl) as (teams0 & Hct & (Hn & Hsz & Hm) & Hc).
  destruct teams0 as [|t0 teams0]; [simpl in Hn; lia|].
  destruct (spread_cons t0 teams0) as (z & Hz & Hzpos).
  assert (2 <= length (t0 :: teams0))%nat as Hlen by lia.
  assert (Forall (fun n => (0 < n)%nat) (sizes (t0 :: teams0))) as Hne.
  { apply Forall_fmap. eapply Forall_impl; [exact Hsz|].
    intros t Ht. unfold compose. simpl in Ht. lia. }
  destruct (search_total random maxNoImprovement (Z.to_nat z) (t0 :: teams0)
              0%nat (afterShuffle random playersRef st).2 z Hlen Hne Hc Hz)
    as (fuel0 & r & st' & Hf); [lia|].
  exists fuel0, r, st'. intros fuel Hfuel.
  rewrite oneRun_unfold, Hct. cbn [fst snd]. rewrite Hz. by apply Hf.
Qed.

(** A run whose loop condition is false at once returns the initial teams. *)
Lemma oneRun_no_search fuel st teams0 adrDiff0 :
  maxNoImprovement <= 0 ->
  computeTeams (afterShuffle random playersRef st).1 teamSize = Ok (teams0, adrDiff0) ->
  oneRun random fuel playersRef teamSize maxNoImprovement st
  = (Ok (teams0, adrDiff0), (afterShuffle random playersRef st).2).
Proof.
  intros Hmax Hct. rewrite oneRun_unfold, Hct. cbn [fst snd].
  assert ((Z.of_nat 0 <? maxNoImprovement) = false) as Hcond
    by (apply Z.ltb_ge; simpl; lia).
  destruct fuel; cbn [search]; by rewrite Hcond.
Qed.

(** A run on a single team throws in its first iteration. *)
Lemma oneRun_single fuel st :
  heap st !! playersRef = Some roster ->
  Z.of_nat (length roster) = teamSize ->
  0 < maxNoImprovement ->
  exists st',
    oneRun random (S fuel) playersRef teamSize maxNoImprovement st
    = (Throw TypeError, st').
Proof using Hsize Hmod.
  intros Hl Hlen Hmax.
  destruct (initial_teams st Hl) as (teams0 & Hct & (Hn & _) & _).
  rewrite Hlen, Z.div_same in Hn by lia.
  destruct teams0 as [|t0 [|t1 teams0]]; simpl in Hn; try lia.
  eexists. rewrite oneRun_unfold, Hct. cbn [fst snd search].
  destruct (Z.of_nat 0 <? maxNoImprovement) eqn:Hcond;
    [|apply Z.ltb_ge in Hcond; simpl in Hcond; lia].
  unfold bind. by rewrite attempt_single.
Qed.

End Run.

(** ** The runs *)

Lemma runCount_pos (runs : Q) :
  (0 < runs)%Q -> exists n, runCount runs = S n.
Proof.
  intros Hr. unfold runCount.
  assert (0 < Qceiling runs) as Hc.
  { rewrite Zlt_Qlt. eapply Qlt_le_trans; [exact Hr|apply Qle_ceiling]. }
  exists (Z.to_nat (Qceiling runs - 1)). lia.
Qed.

Lemma runCount_nonpos (runs : Q) : (runs <= 0)%Q -> runCount runs = O.
Proof.
  intros Hr. unfold runCount.
  assert (Qceiling runs <= 0); [|lia].
  change 0 with (Qceiling 0). by apply Qceiling_resp_le.
Qed.

Section Runs.

Variable random : nat -> nat.
Variables (playersRef : loc) (teamSize maxNoImprovement : Z).
Variable roster : list Player.
Hypothesis Hsize : 0 < teamSize.
Hypothesis Hmod : Z.of_nat (length roster) mod teamSize = 0.

Lemma runsLoop_heap n fuel best bestDiff st :
  exists copies,
    heap (runsLoop random n fuel playersRef teamSize maxNoImprovement
            best bestDiff st).2 = heap st ++ copies.
Proof.
  revert best bestDiff st. induction n as [|n IH]; intros best bd st.
  - exists []. by rewrite app_nil_r.
  - cbn [runsLoop]. unfold bind.
    pose proof (oneRun_heap random playersRef teamSize maxNoImprovement fuel st)
      as Hh.
    destruct (oneRun _ _ _ _ _ st) as [[r| |] st1]; cbn [snd] in *.
    + destruct (num_ltb r.2 bd).
      * destruct (IH r.1 r.2 st1) as [copies Hc]. eexists.
        by rewrite Hc, Hh, <- app_assoc.
      * destruct (IH best bd st1) as [copies Hc]. eexists.
        by rewrite Hc, Hh, <- app_assoc.
    + by eexists.
    + by eexists.
Qed.

Lemma oneRun_roster fuel st :
  heap st !! playersRef = Some roster ->
  heap (oneRun random fuel playersRef teamSize maxNoImprovement st).2
    !! playersRef = Some roster.
Proof.
  intros Hl. rewrite oneRun_heap, lookup_app_l; [done|].
  by eapply lookup_lt_Some.
Qed.

(** The best teams kept across the runs are the result of one of the runs,
    as soon as there is a run. *)
Lemma runsLoop_Ok n fuel :
  forall best bestDiff st teams adrDiff st',
    heap st !! playersRef = Some roster ->
    (bestDiff = PosInf /\ n <> O) \/ goodResult roster teamSize best bestDiff ->
    runsLoop random n fuel playersRef teamSize maxNoImprovement best bestDiff st
      = (Ok (teams, adrDiff), st') ->
    goodResult roster teamSize teams adrDiff.
Proof using Hsize Hmod.
  induction n as [|n IH]; intros best bd st teams d st' Hl Hbest.
  - cbn [runsLoop]. intros [= -> -> ->]. by destruct Hbest as [[_ ?]|?].
  - cbn [runsLoop]. unfold bind.
    pose proof (oneRun_roster fuel st Hl) as Hl1.
    destruct (oneRun _ _ _ _ _ st) as [[[teams1 d1]| |] st1] eqn:Hrun;
      try done.
    cbn [fst snd] in *.
    destruct (oneRun_Ok random _ _ _ roster Hsize Hmod _ _ _ _ _ Hl Hrun)
      as (Hp & Hc & Hd & _).
    destruct (num_ltb d1 bd) eqn:Hlt.
    + apply IH; [done|]. right. exact (conj Hp (conj Hc Hd)).
    + apply IH; [done|]. right.
      destruct Hbest as [[-> _]|Hg]; [|done].
      rewrite (num_lt_PosInf d1) in Hlt; [done| |]; subst d1.
      * apply spread_not_NaN.
      * apply spread_not_PosInf.
Qed.

(** The spread kept across the runs is at most [bestDiff]. *)
Lemma runsLoop_le n fuel :
  forall best bestDiff st teams adrDiff st',
    heap st !! playersRef = Some roster ->
    bestDiff <> NaN ->
    runsLoop random n fuel playersRef teamSize maxNoImprovement best bestDiff st
      = (Ok (teams, adrDiff), st') ->
    num_le adrDiff bestDiff.
Proof using Hsize Hmod.
  induction n as [|n IH]; intros best bd st teams d st' Hl Hbd.
  - cbn [runsLoop]. intros [= -> -> ->]. by apply num_le_refl.
  - cbn [runsLoop]. unfold bind.
    pose proof (oneRun_roster fuel st Hl) as Hl1.
    destruct (oneRun _ _ _ _ _ st) as [[[teams1 d1]| |] st1] eqn:Hrun;
      try done.
    cbn [fst snd] in *.
    destruct (oneRun_Ok random _ _ _ roster Hsize Hmod _ _ _ _ _ Hl Hrun)
      as (Hp & Hc & Hd & _).
    destruct (num_ltb d1 bd) eqn:Hlt; intros Hloop.
    + eapply num_le_trans; [|apply num_lt_le; exact Hlt].
      eapply IH; [exact Hl1| |exact Hloop]. subst d1. apply spread_not_NaN.
    + eapply IH; [exact Hl1|done|exact Hloop].
Qed.

Lemma oneRun_returns st :
  heap st !! playersRef = Some roster ->
  2 <= Z.of_nat (length roster) / teamSize \/ maxNoImprovement <= 0 ->
  exists fuel0 r st',
    forall fuel, (fuel0 <= fuel)%nat ->
      oneRun random fuel playersRef teamSize maxNoImprovement st = (Ok r, st').
Proof using Hsize Hmod.
  intros Hl [Hnt|Hmax].
  - by apply (oneRun_total random _ _ _ roster).
  - destruct (initial_teams random _ _ roster Hsize Hmod st Hl)
      as (teams0 & Hct & _).
    exists 0%nat, (teams0, spread teams0), (afterShuffle random playersRef st).2.
    intros fuel _. by apply oneRun_no_search.
Qed.

(** All the runs return, with enough fuel. *)
Lemma runsLoop_total n :
  2 <= Z.of_nat (length roster) / teamSize \/ maxNoImprovement <= 0 ->
  forall best bestDiff st,
    heap st !! playersRef = Some roster ->
    exists fuel0 r st',
      forall fuel, (fuel0 <= fuel)%nat ->
        runsLoop random n fuel playersRef teamSize maxNoImprovement
          best bestDiff st = (Ok r, st').
Proof using Hsize Hmod.
  intros Hcase. induction n as [|n IH]; intros best bd st Hl.
  - exists 0%nat, (best, bd), st. done.
  - destruct (oneRun_returns st Hl Hcase) as (f1 & r1 & st1 & Hf1).
    assert (heap st1 !! playersRef = Some roster) as Hl1.
    { pose proof (oneRun_roster f1 st Hl) as H. by rewrite Hf1 in H. }
    destruct (IH (if num_ltb r1.2 bd then r1.1 else best)
                 (if num_ltb r1.2 bd then r1.2 else bd) st1 Hl1)
      as (f2 & r & st' & Hf2).
    exists (f1 `max` f2)%nat, r, st'. intros fuel Hfuel.
    cbn [runsLoop]. unfold bind. rewrite Hf1 by lia.
    destruct (num_ltb r1.2 bd); apply Hf2; lia.
Qed.

End Runs.

(** ** [optimizeTeams] *)

Section Optimize.

Variable random : nat -> nat.
Variables (playersRef : loc) (teamSize maxNoImprovement : Z) (runs : Q).
Variable roster : list Player.
Variable st : state.
Hypothesis Hroster : heap st !! playersRef = Some roster.

Lemma optimizeTeams_rejected fuel :
  notMultiple (Z.of_nat (length roster)) teamSize = true ->
  optimizeTeams random fuel playersRef teamSize maxNoImprovement runs st
  = (Throw (Error ("Player count must be a multiple of "
                   ++ string_of_Z teamSize)), st).
Proof using Hroster.
  intros Hn. unfold optimizeTeams, bind, readArray. rewrite Hroster.
  cbn [default from_option id]. by rewrite Hn.
Qed.

Lemma optimizeTeams_accepted fuel :
  notMultiple (Z.of_nat (length roster)) teamSize = false ->
  optimizeTeams random fuel playersRef teamSize maxNoImprovement runs st
  = runsLoop random (runCount runs) fuel playersRef teamSize maxNoImprovement
      [] PosInf st.
Proof using Hroster.
  intros Hn. unfold optimizeTeams, bind, readArray. rewrite Hroster.
  cbn [default from_option id]. by rewrite Hn.
Qed.

Lemma notMultiple_false :
  0 < teamSize -> Z.of_nat (length roster) mod teamSize = 0 ->
  notMultiple (Z.of_nat (length roster)) teamSize = false.
Proof.
  intros Hts Hmod. unfold notMultiple.
  rewrite Z.rem_mod_nonneg, Hmod by lia.
  destruct (Z.eqb_spec teamSize 0); [lia|done].
Qed.

Hypothesis Hsize : 0 < teamSize.
Hypothesis Hmod : Z.of_nat (length roster) mod teamSize = 0.
Hypothesis Hruns : (0 < runs)%Q.

Lemma optimizeTeams_Ok fuel teams adrDiff st' :
  optimizeTeams random fuel playersRef teamSize maxNoImprovement runs st
    = (Ok (teams, adrDiff), st') ->
  goodResult roster teamSize teams adrDiff.
Proof using Hroster Hsize Hmod Hruns.
  rewrite optimizeTeams_accepted by (by apply notMultiple_false).
  destruct (runCount_pos runs Hruns) as [n ->].
  apply (runsLoop_Ok random _ _ _ roster Hsize Hmod); [done|].
  left. done.
Qed.

Lemma optimizeTeams_returns :
  2 <= Z.of_nat (length roster) / teamSize \/ maxNoImprovement <= 0 ->
  exists fuel0 r st',
    forall fuel, (fuel0 <= fuel)%nat ->
      optimizeTeams random fuel playersRef teamSize maxNoImprovement runs st
      = (Ok r, st').
Proof using Hroster Hsize Hmod.
  intros Hcase.
  destruct (runsLoop_total random playersRef teamSize maxNoImprovement roster
              Hsize Hmod (runCount runs) Hcase [] PosInf st Hroster)
    as (fuel0 & r & st' & Hf).
  exists fuel0, r, st'. intros fuel Hfuel.
  rewrite optimizeTeams_accepted by (by apply notMultiple_false). by apply Hf.
Qed.

Lemma optimizeTeams_le_first fuel teams adrDiff st' :
  optimizeTeams random fuel playersRef teamSize maxNoImprovement runs st
    = (Ok (teams, adrDiff), st') ->
  exists teams0,
    computeTeams (afterShuffle random playersRef st).1 teamSize
      = Ok (teams0, spread teams0)
    /\ num_le adrDiff (spread teams0).
Proof using Hroster Hsize Hmod Hruns.
  rewrite optimizeTeams_accepted by (by apply notMultiple_false).
  destruct (runCount_pos runs Hruns) as [n ->].
  cbn [runsLoop]. unfold bind.
  pose proof (oneRun_roster random playersRef teamSize maxNoImprovement roster
                fuel st Hroster) as Hl1.
  destruct (oneRun _ _ _ _ _ st) as [[[teams1 d1]| |] st1] eqn:Hrun; try done.
  cbn [fst snd] in *.
  destruct (oneRun_Ok random _ _ _ roster Hsize Hmod _ _ _ _ _ Hroster Hrun)
    as (_ & _ & Hd & teams0 & Hct & Hle).
  rewrite (num_lt_PosInf d1);
    [|subst d1; apply spread_not_NaN|subst d1; apply spread_not_PosInf].
  intros Hloop. exists teams0. split; [done|].
  eapply num_le_trans; [|exact Hle].
  eapply (runsLoop_le random _ _ _ roster Hsize Hmod); [exact Hl1| |exact Hloop].
  subst d1. apply spread_not_NaN.
Qed.

(** The result, when there is one: the same for all large enough fuel. *)
Lemma optimizeTeams_result :
  2 <= Z.of_nat (length roster) / teamSize \/ maxNoImprovement <= 0 ->
  exists fuel0 teams adrDiff st',
    (forall fuel, (fuel0 <= fuel)%nat ->
       optimizeTeams random fuel playersRef teamSize maxNoImprovement runs st
       = (Ok (teams, adrDiff), st'))
    /\ goodResult roster teamSize teams adrDiff
    /\ exists teams0,
         computeTeams (afterShuffle random playersRef st).1 teamSize
           = Ok (teams0, spread teams0)
         /\ num_le adrDiff (spread teams0).
Proof using Hroster Hsize Hmod Hruns.
  intros Hcase.
  destruct (optimizeTeams_returns Hcase) as (fuel0 & [teams d] & st' & Hf).
  exists fuel0, teams, d, st'. split; [done|].
  pose proof (Hf fuel0 (le_n fuel0)) as H0. split.
  - by eapply optimizeTeams_Ok.
  - by eapply optimizeTeams_le_first.
Qed.

(** A roster of a single team: the first iteration of the first run throws,
    unless the loop is not entered at all. *)
Lemma optimizeTeams_single fuel :
  Z.of_nat (length roster) = teamSize -> 0 < maxNoImprovement ->
  exists st',
    optimizeTeams random (S fuel) playersRef teamSize maxNoImprovement runs st
    = (Throw TypeError, st').
Proof using Hroster Hsize Hmod Hruns.
  intros Hlen Hmax.
  rewrite optimizeTeams_accepted by (by apply notMultiple_false).
  destruct (runCount_pos runs Hruns) as [n ->].
  cbn [runsLoop]. unfold bind.
  destruct (oneRun_single random _ _ _ roster Hsize Hmod fuel st Hroster Hlen Hmax)
    as [st' ->].
  by exists st'.
Qed.

(** A single team is returned, with spread zero, when the search is not
    entered. *)
Lemma optimizeTeams_single_no_search :
  Z.of_nat (length roster) = teamSize -> maxNoImprovement <= 0 ->
  exists t st',
    (forall fuel,
       optimizeTeams random fuel playersRef teamSize maxNoImprovement runs st
       = (Ok ([t], Fin 0), st'))
    /\ players t ≡ₚ roster.
Proof using Hroster Hsize Hmod Hruns.
  intros Hlen Hmax.
  destruct (optimizeTeams_result (or_intror Hmax))
    as (fuel0 & teams & d & st' & Hf & ((Hn & _ & Hm) & _ & Hd) & _).
  rewrite Hlen, Z.div_same in Hn by lia.
  destruct teams as [|t [|u teams]]; simpl in Hn; try lia.
  rewrite spread_single in Hd. subst d.
  exists t, st'. split.
  - intros fuel. rewrite <- (Hf (fuel0 `max` fuel)%nat) by lia.
    rewrite !optimizeTeams_accepted by (by apply notMultiple_false).
    destruct (runsLoop_total random playersRef teamSize maxNoImprovement roster
                Hsize Hmod (runCount runs) (or_intror Hmax) [] PosInf st Hroster)
      as (f1 & r1 & s1 & Hf1).
    clear Hf. revert fuel0 fuel.
    assert (forall n best bd s f f',
              runsLoop random n f playersRef teamSize maxNoImprovement best bd s
              = runsLoop random n f' playersRef teamSize maxNoImprovement
                  best bd s) as Hany.
    { induction n as [|n IH]; intros best bd s f f'; [done|].
      cbn [runsLoop]. unfold bind.
      assert (oneRun random f playersRef teamSize maxNoImprovement s
              = oneRun random f' playersRef teamSize maxNoImprovement s) as ->.
      { rewrite !oneRun_unfold.
        destruct (computeTeams _ teamSize) as [[t0 d0]| |]; try done.
        cbn [fst snd].
        assert ((Z.of_nat 0 <? maxNoImprovement) = false) as Hcond
          by (apply Z.ltb_ge; simpl; lia).
        destruct f, f'; cbn [search]; by rewrite Hcond. }
      destruct (oneRun _ _ _ _ _ s) as [[r| |] s']; try done.
      case_match; apply IH. }
    intros fuel0 fuel. apply Hany.
  - unfold members in Hm. simpl in Hm. by rewrite app_nil_r in Hm.
Qed.

End Optimize.

(** No call changes an array that was in the heap before it. *)
Lemma optimizeTeams_heap random fuel playersRef teamSize maxNoImprovement runs st :
  exists copies,
    heap (optimizeTeams random fuel playersRef teamSize maxNoImprovement runs
            st).2 = heap st ++ copies.
Proof.
  unfold optimizeTeams, bind, readArray. case_match.
  - exists []. by rewrite app_nil_r.
  - apply runsLoop_heap.
Qed.

(** * The claims *)



(** C2.  On a roster of five players with the default team size of five,
    the default 1000 steps and the default 500 runs, [optimizeTeams] does
    not return a team: whatever the fuel, the first iteration of the first
    search throws a [TypeError], the second team index being
    [undefined]. *)
Theorem optimizeTeams_single_team_throws :
  forall fuel,
    (optimizeTeams exampleRandom (S fuel) 0%nat 5 1000 500 fiveState).1
    = Throw TypeError.
Proof.
  intros fuel.
  destruct (optimizeTeams_single exampleRandom 0%nat 5 1000 500
              (take 5 exampleRoster) fiveState) with (fuel := fuel)
    as [st' ->]; try done.
Qed.





(** C7, as the specification states it, fails: with ten players, teams of
    five and zero runs, [optimizeTeams] throws nothing; it returns no team
    and the spread [Infinity]. *)
Lemma optimizeTeams_zero_runs_returns :
  optimizeTeams exampleRandom 0 0%nat 5 1000 0 exampleState
    = (Ok ([], PosInf), exampleState)
  /\ ~ (exists e st',
          optimizeTeams exampleRandom 0 0%nat 5 1000 0 exampleState
          = (Throw e, st')).
Proof. split; [reflexivity|]. intros (e & st' & H). discriminate H. Qed.

(** C7, amended.  When [teamSize] is zero or the length of the roster is
    not a multiple of it, [optimizeTeams] throws an [Error] that names the
    team size, and the state is the one of the call: no copy was made and no
    random number drawn.  [optimizeTeams] does not check [runs]: when the
    length is a multiple of [teamSize] and [runs] is not positive, it returns
    no team and the spread [Infinity], in the state of the call as well. *)
Theorem optimizeTeams_guard (random : nat -> nat) (fuel : nat)
    (playersRef : loc) (teamSize maxNoImprovement : Z) (runs : Q)
    (roster : list Player) (st : state) :
  heap st !! playersRef = Some roster ->
  (teamSize = 0 \/ Z.rem (Z.of_nat (length roster)) teamSize <> 0 ->
   optimizeTeams random fuel playersRef teamSize maxNoImprovement runs st
   = (Throw (Error ("Player count must be a multiple of "
                    ++ string_of_Z teamSize)), st))
  /\ (teamSize <> 0 -> Z.rem (Z.of_nat (length roster)) teamSize = 0 ->
      (runs <= 0)%Q ->
      optimizeTeams random fuel playersRef teamSize maxNoImprovement runs st
      = (Ok ([], PosInf), st)).
Proof.
  intros Hroster. split.
  - intros Hbad. apply (optimizeTeams_rejected _ _ _ _ _ roster); [done|].
    unfold notMultiple. destruct Hbad as [->|Hrem]; [done|].
    destruct (Z.eqb_spec (Z.rem (Z.of_nat (length roster)) teamSize) 0);
      [done|]. by rewrite orb_true_r.
  - intros Hts Hrem Hruns.
    rewrite (optimizeTeams_accepted _ _ _ _ _ roster); [|done|].
    + by rewrite (runCount_nonpos runs Hruns).
    + unfold notMultiple. rewrite Hrem.
      by destruct (Z.eqb_spec teamSize 0).
Qed.

Lemma optimizeTeams_guard_witness :
  optimizeTeams exampleRandom 0 0%nat 3 1000 1 exampleState
  = (Throw (Error "Player count must be a multiple of 3"), exampleState).
Proof.
  refine (proj1
    (optimizeTeams_guard exampleRandom 0 0%nat 3 1000 1 exampleRoster
       exampleState _) _).
  - reflexivity.
  - right. vm_compute. discriminate.
Defined.

(** C10.  Whatever the arguments, and whether [optimizeTeams] returns,
    throws or runs out of fuel, the array it was given holds the same
    participants in the same order afterwards; so does every other array
    that existed before the call. *)
Theorem optimizeTeams_keeps_players (random : nat -> nat) (fuel : nat)
    (playersRef : loc) (teamSize maxNoImprovement : Z) (runs : Q)
    (st : state) (ps : list Player) (a : loc) :
  heap st !! playersRef = Some ps ->
  heap (optimizeTeams random fuel playersRef teamSize maxNoImprovement runs
          st).2 !! playersRef = Some ps
  /\ (forall xs, heap st !! a = Some xs ->
        heap (optimizeTeams random fuel playersRef teamSize maxNoImprovement
                runs st).2 !! a = Some xs).
Proof.
  intros Hps.
  destruct (optimizeTeams_heap random fuel playersRef teamSize maxNoImprovement
              runs st) as [copies ->].
  split.
  - rewrite lookup_app_l; [done|]. by eapply lookup_lt_Some.
  - intros xs Hxs. rewrite lookup_app_l; [done|]. by eapply lookup_lt_Some.
Qed.

Lemma optimizeTeams_keeps_players_witness :
  heap (optimizeTeams exampleRandom 5000 0%nat 5 500 2 exampleState).2 !! 0%nat
  = Some exampleRoster.
Proof.
  refine (proj1
    (optimizeTeams_keeps_players exampleRandom 5000 0%nat 5 500 2 exampleState
       exampleRoster 0%nat _)).
  reflexivity.
Defined.

(** ** The draws determine the result *)

Section Draws.

Variables random1 random2 : nat -> nat.

Lemma alike_ret {A} (a : A) : alike random1 random2 (ret a) (ret a).
Proof. by intros st1 st2 H. Qed.

Lemma alike_throw {A} (e : exn) : alike random1 random2 (@throw A e) (throw e).
Proof. by intros st1 st2 H. Qed.

Lemma alike_outOfFuel {A} : alike random1 random2 (@outOfFuel A) outOfFuel.
Proof. by intros st1 st2 H. Qed.

Lemma alike_lift {A} (o : outcome A) : alike random1 random2 (lift o) (lift o).
Proof. by intros st1 st2 H. Qed.

Lemma alike_bind {A B} (m1 m2 : M A) (k1 k2 : A -> M B) :
  alike random1 random2 m1 m2 ->
  (forall a, alike random1 random2 (k1 a) (k2 a)) ->
  alike random1 random2 (bind m1 k1) (bind m2 k2).
Proof.
  intros Hm Hk st1 st2 H. unfold bind.
  destruct (Hm st1 st2 H) as [Ho Hs].
  destruct (m1 st1) as [[a1| |] s1], (m2 st2) as [[a2| |] s2];
    simplify_eq/=; try done.
  by apply Hk.
Qed.

Lemma sameDraws_advance st1 st2 n :
  sameDraws random1 random2 st1 st2 ->
  sameDraws random1 random2 (mkState (heap st1) (cursor st1 + n))
    (mkState (heap st2) (cursor st2 + n)).
Proof.
  intros [Hh Hr]. split; [done|]. intros k. cbn [cursor].
  rewrite <- !Nat.add_assoc. apply Hr.
Qed.

Lemma alike_random : alike random1 random2 (Math_random random1) (Math_random random2).
Proof.
  intros st1 st2 H. unfold Math_random. cbn [fst snd]. split.
  - destruct H as [_ Hr]. specialize (Hr 0%nat).
    rewrite !Nat.add_0_r in Hr. by rewrite Hr.
  - pose proof (sameDraws_advance st1 st2 1 H) as H1.
    by rewrite !Nat.add_1_r in H1.
Qed.

Lemma shuffleFrom_alike {T} (i : nat) :
  forall (l : list T) c1 c2,
    (forall k, random1 (c1 + k)%nat = random2 (c2 + k)%nat) ->
    (shuffleFrom random1 i l c1).1 = (shuffleFrom random2 i l c2).1.
Proof.
  induction i as [|i IH]; intros l c1 c2 Hr; [done|].
  cbn [shuffleFrom].
  pose proof (Hr 0%nat) as H0. rewrite !Nat.add_0_r in H0. rewrite H0.
  apply IH. intros k.
  replace (S c1 + k)%nat with (c1 + S k)%nat by lia.
  replace (S c2 + k)%nat with (c2 + S k)%nat by lia. apply Hr.
Qed.

Lemma shuffleArray_alike {T} (l : list T) st1 st2 :
  sameDraws random1 random2 st1 st2 ->
  (shuffleArray random1 l (cursor st1)).1
    = (shuffleArray random2 l (cursor st2)).1
  /\ sameDraws random1 random2
       (mkState (heap st1) (shuffleArray random1 l (cursor st1)).2)
       (mkState (heap st2) (shuffleArray random2 l (cursor st2)).2).
Proof.
  intros H. split.
  - apply shuffleFrom_alike, H.
  - rewrite !shuffleArray_cursor. by apply sameDraws_advance.
Qed.

Lemma alike_shuffleLocal {T} (l : list T) :
  alike random1 random2 (shuffleLocal random1 l) (shuffleLocal random2 l).
Proof.
  intros st1 st2 H. unfold shuffleLocal.
  destruct (shuffleArray_alike l st1 st2 H) as [H1 H2].
  destruct (shuffleArray random1 l (cursor st1)) as [xs1 c1].
  destruct (shuffleArray random2 l (cursor st2)) as [xs2 c2].
  simpl in *. by subst.
Qed.

Lemma alike_shuffle (a : loc) : alike random1 random2 (shuffle random1 a) (shuffle random2 a).
Proof.
  intros st1 st2 H. unfold shuffle.
  pose proof H as [Hh _]. rewrite <- Hh.
  destruct (shuffleArray_alike (default [] (heap st1 !! a)) st1 st2 H)
    as [H1 [H2 H3]].
  destruct (shuffleArray random1 _ (cursor st1)) as [xs1 c1].
  destruct (shuffleArray random2 _ (cursor st2)) as [xs2 c2].
  simpl in *. subst. split; [done|]. split; [|done]. simpl. by rewrite Hh.
Qed.

Lemma alike_readArray (a : loc) : alike random1 random2 (readArray a) (readArray a).
Proof.
  intros st1 st2 H. unfold readArray. simpl. split; [|done].
  destruct H as [-> _]. done.
Qed.

Lemma alike_allocArray (ps : list Player) : alike random1 random2 (allocArray ps) (allocArray ps).
Proof.
  intros st1 st2 [Hh Hr]. unfold allocArray. simpl. rewrite Hh.
  split; [done|]. split; done.
Qed.

Lemma alike_attempt (s : searchState) :
  alike random1 random2 (attempt random1 s) (attempt random2 s).
Proof.
  destruct s as [[teams d] n]. unfold attempt.
  apply alike_bind; [apply alike_shuffleLocal|]. intros indices.
  apply alike_bind; [apply alike_random|]. intros ra.
  destruct (teamAt teams (indices !! 0%nat)) as [teamA|];
    [|apply alike_throw].
  destruct (indices !! 0%nat) as [i|]; [|apply alike_throw].
  apply alike_bind; [apply alike_random|]. intros rb.
  destruct (teamAt teams (indices !! 1%nat)) as [teamB|];
    [|apply alike_throw].
  destruct (indices !! 1%nat) as [j|]; [|apply alike_throw].
  repeat case_match; try apply alike_throw; apply alike_ret.
Qed.

Lemma alike_search fuel maxNoImprovement (s : searchState) :
  alike random1 random2 (search random1 fuel maxNoImprovement s)
        (search random2 fuel maxNoImprovement s).
Proof.
  revert s. induction fuel as [|fuel IH]; intros [[teams d] n];
    cbn [search]; case_match;
    try apply alike_ret; try apply alike_outOfFuel.
  apply alike_bind; [apply alike_attempt|]. intros s'. apply IH.
Qed.

Lemma alike_oneRun fuel playersRef teamSize maxNoImprovement :
  alike random1 random2 (oneRun random1 fuel playersRef teamSize maxNoImprovement)
        (oneRun random2 fuel playersRef teamSize maxNoImprovement).
Proof.
  unfold oneRun.
  apply alike_bind; [apply alike_readArray|]. intros ps.
  apply alike_bind; [apply alike_allocArray|]. intros shuffled.
  apply alike_bind; [apply alike_shuffle|]. intros _.
  apply alike_bind; [apply alike_readArray|]. intros sh.
  apply alike_bind; [apply alike_lift|]. intros init.
  apply alike_search.
Qed.

Lemma alike_runsLoop n fuel playersRef teamSize maxNoImprovement :
  forall best bestDiff,
    alike random1 random2 (runsLoop random1 n fuel playersRef teamSize maxNoImprovement
             best bestDiff)
          (runsLoop random2 n fuel playersRef teamSize maxNoImprovement
             best bestDiff).
Proof.
  induction n as [|n IH]; intros best bd; cbn [runsLoop];
    [apply alike_ret|].
  apply alike_bind; [apply alike_oneRun|]. intros r.
  case_match; apply IH.
Qed.

Lemma alike_optimizeTeams fuel playersRef teamSize maxNoImprovement runs :
  alike random1 random2 (optimizeTeams random1 fuel playersRef teamSize maxNoImprovement runs)
        (optimizeTeams random2 fuel playersRef teamSize maxNoImprovement runs).
Proof.
  unfold optimizeTeams.
  apply alike_bind; [apply alike_readArray|]. intros ps.
  case_match; [apply alike_throw|apply alike_runsLoop].
Qed.

Lemma alike_generateBalancedTeams svc executionTime fuel ps runs :
  alike random1 random2 (generateBalancedTeams random1 svc executionTime fuel ps runs)
        (generateBalancedTeams random2 svc executionTime fuel ps runs).
Proof.
  unfold generateBalancedTeams.
  apply alike_bind; [apply alike_lift|]. intros _.
  apply alike_bind; [apply alike_lift|]. intros optimizationRuns.
  apply alike_bind; [apply alike_allocArray|]. intros teamgenPlayers.
  intros st1 st2 H.
  destruct (alike_optimizeTeams fuel teamgenPlayers (serviceTeamSize svc)
              (maxIterations optimizationRuns) optimizationRuns st1 st2 H)
    as [Ho Hs].
  destruct (optimizeTeams random1 _ _ _ _ _ st1) as [[r1| |] s1],
           (optimizeTeams random2 _ _ _ _ _ st2) as [[r2| |] s2];
    simplify_eq/=; try done.
  by case_match.
Qed.

End Draws.

(** C9, as the specification states it, fails: [optimizeTeams] takes no
    seed and draws from [Math.random]; called twice in a row on the same
    roster with the same arguments (one run, no search step), it returns
    different teams: the second call shuffles with the draws that follow
    the nine of the first. *)
Lemma successive_calls_differ :
  exists first second st',
    twice (optimizeTeams exampleRandom 0 0%nat 5 0 1) exampleState
      = (Ok (first, second), st')
    /\ first <> second.
Proof. do 3 eexists. split; [vm_compute; reflexivity|]. discriminate. Qed.

(** C9, amended.  The result of [optimizeTeams], and the result of
    [generateBalancedTeams], is a function of the arguments, of the arrays
    in the heap and of the values that [Math.random] returns from the call
    on: two calls that find equal heaps and the same sequence of draws to
    come return the same teams in the same order and the same spread, throw
    the same exception, or both run out of fuel. *)
Theorem same_draws_same_result (random1 random2 : nat -> nat) (fuel : nat)
    (playersRef : loc) (teamSize maxNoImprovement : Z) (runs : Q)
    (svc : TeamGenerationService) (executionTime : Z)
    (ps : list TournamentPlayer) (requestedRuns : value Q)
    (st1 st2 : state) :
  heap st1 = heap st2 ->
  (forall k, random1 (cursor st1 + k)%nat = random2 (cursor st2 + k)%nat) ->
  (optimizeTeams random1 fuel playersRef teamSize maxNoImprovement runs st1).1
  = (optimizeTeams random2 fuel playersRef teamSize maxNoImprovement runs st2).1
  /\ (generateBalancedTeams random1 svc executionTime fuel ps requestedRuns
        st1).1
     = (generateBalancedTeams random2 svc executionTime fuel ps requestedRuns
          st2).1.
Proof.
  intros Hh Hr. split.
  - by apply alike_optimizeTeams.
  - by apply alike_generateBalancedTeams.
Qed.

Lemma same_draws_same_result_witness :
  (optimizeTeams exampleRandom 2000 0%nat 5 5 1 exampleState).1
  = (optimizeTeams exampleRandom 2000 0%nat 5 5 1
       (mkState [exampleRoster] 11)).1.
Proof.
  refine (proj1
    (same_draws_same_result exampleRandom exampleRandom
       2000 0%nat 5 5 1 defaultService 0 [] VUndefined
       exampleState (mkState [exampleRoster] 11) _ _)).
  - reflexivity.
  - intros k. unfold exampleRandom. cbn [cursor exampleState].
    replace ((11 + k) * 7 + 3)%nat with (k * 7 + 3 + 7 * 11)%nat by lia.
    by rewrite Nat.Div0.mod_add.
Defined.

(** ** [TeamGenerationService] *)

Lemma Qltb_lt (a b : Q) : Qltb a b = true <-> (a < b)%Q.
Proof.
  unfold Qltb. rewrite negb_true_iff, <- not_true_iff_false, Qle_bool_iff.
  split; [apply Qnot_le_lt|apply Qlt_not_le].
Qed.

Lemma Qltb_ge (a b : Q) : Qltb a b = false <-> (b <= a)%Q.
Proof. unfold Qltb. by rewrite negb_false_iff, Qle_bool_iff. Qed.

Lemma generateBalancedTeams_invalid random svc executionTime fuel ps runs st e :
  validatePlayers svc ps = Throw e ->
  generateBalancedTeams random svc executionTime fuel ps runs st = (Throw e, st).
Proof. intros H. unfold generateBalancedTeams, bind, lift. by rewrite H. Qed.

Lemma generateBalancedTeams_bad_runs random svc executionTime fuel ps runs st e :
  validatePlayers svc ps = Ok tt -> validateRuns svc runs = Throw e ->
  generateBalancedTeams random svc executionTime fuel ps runs st = (Throw e, st).
Proof.
  intros H1 H2. unfold generateBalancedTeams, bind, lift. by rewrite H1, H2.
Qed.







(** ** [generateTeams] *)

Lemma nameUsedInTeamGen_not_empty (tp : TournamentPlayerRow) :
  nameUsedInTeamGen tp <> "".
Proof.
  unfold nameUsedInTeamGen, orElse.
  repeat case_match; simplify_eq; done.
Qed.

Lemma orElse_Some (s b : string) : s <> "" -> orElse (Some s) b = s.
Proof. by destruct s. Qed.

Section NameMap.

Lemma fold_setName_other (rows : list TournamentPlayerRow) m (k : string) :
  k ∉ map nameUsedInTeamGen rows ->
  fold_left setName rows m !! k = m !! k.
Proof.
  revert m. induction rows as [|r rows IH]; intros m Hk; [done|].
  cbn [fold_left]. rewrite IH.
  - unfold setName. apply lookup_insert_ne. intros Heq. apply Hk.
    rewrite <- Heq. simpl. left.
  - intros Hin. apply Hk. simpl. by right.
Qed.

Lemma fold_setName_Some (rows : list TournamentPlayerRow) m (k : string) row :
  fold_left setName rows m !! k = Some row ->
  (row ∈ rows /\ nameUsedInTeamGen row = k) \/ m !! k = Some row.
Proof.
  revert m. induction rows as [|r rows IH]; intros m Hk; [by right|].
  cbn [fold_left] in Hk. apply IH in Hk as [[Hin Hn]|Hk].
  - left. split; [by right|done].
  - unfold setName in Hk.
    destruct (decide (nameUsedInTeamGen r = k)) as [Heq|Hne].
    + rewrite <- Heq, lookup_insert_eq in Hk. injection Hk as <-.
      left. split; [left|done].
    + rewrite lookup_insert_ne in Hk by done. by right.
Qed.

(** Every row is found under its name when the names are distinct. *)
Lemma nameToPlayerMap_lookup (rows : list TournamentPlayerRow) row :
  NoDup (map nameUsedInTeamGen rows) -> row ∈ rows ->
  nameToPlayerMap rows !! nameUsedInTeamGen row = Some row.
Proof.
  unfold nameToPlayerMap. generalize (∅ : gmap string TournamentPlayerRow).
  induction rows as [|r rows IH]; intros m Hnd Hin.
  - by apply not_elem_of_nil in Hin.
  - cbn [map] in Hnd. apply NoDup_cons in Hnd as [Hr Hnd].
    cbn [fold_left]. apply elem_of_cons in Hin as [->|Hin].
    + rewrite fold_setName_other by done. unfold setName.
      apply lookup_insert_eq.
    + by apply IH.
Qed.

(** A name that is found is the name of the row it gives. *)
Lemma nameToPlayerMap_Some (rows : list TournamentPlayerRow) k row :
  nameToPlayerMap rows !! k = Some row ->
  row ∈ rows /\ nameUsedInTeamGen row = k.
Proof.
  unfold nameToPlayerMap. intros H.
  apply fold_setName_Some in H as [H|H]; [done|].
  by rewrite lookup_empty in H.
Qed.

End NameMap.

Lemma imap_players (f : nat -> Team -> GeneratedTeam) (teams : list Team) :
  (forall i t, gt_players (f i t) = map fromTeamgenPlayer (players t)) ->
  map gt_players (imap f teams)
  = map (fun t => map fromTeamgenPlayer (players t)) teams.
Proof.
  revert f. induction teams as [|t teams IH]; intros f Hf; [done|].
  cbn [imap map]. rewrite Hf. f_equal. apply IH. intros i u. apply Hf.
Qed.

Lemma convertFromTeamgenFormat_players (teams : list Team) :
  map gt_players (convertFromTeamgenFormat teams)
  = map (fun t => map fromTeamgenPlayer (players t)) teams.
Proof. by apply imap_players. Qed.

Section Mapping.

Variable m : gmap string TournamentPlayerRow.

Lemma mapPlayers_spec (ps : list Player) :
  Forall (fun p => is_Some (m !! name p)) ps ->
  exists ps',
    mapPlayers m (map fromTeamgenPlayer ps) = Ok ps'
    /\ map tp_id ps' = map (idByName m) ps
    /\ Forall (fun p' => exists row,
                 m !! tp_username p' = Some row /\ tp_id p' = playerId row) ps'.
Proof.
  induction ps as [|p ps IH]; intros Hall.
  - exists []. repeat split; constructor.
  - apply Forall_cons in Hall as [[row Hrow] Hall].
    destruct (IH Hall) as (ps' & Hmap & Hids & Hrows).
    cbn [map mapPlayers].
    change (tp_username (fromTeamgenPlayer p)) with (name p).
    rewrite Hrow, Hmap.
    eexists. split; [reflexivity|]. split.
    + cbn [map tp_id]. unfold idByName at 1. rewrite Hrow. by f_equal.
    + constructor; [|done]. by exists row.
Qed.

Lemma mapTeams_spec (gts : list GeneratedTeam) (teams : list Team) :
  map gt_players gts = map (fun t => map fromTeamgenPlayer (players t)) teams ->
  Forall (fun p => is_Some (m !! name p)) (members teams) ->
  exists out,
    mapTeams m gts = Ok out
    /\ teamIds out = map (idByName m) (members teams)
    /\ Forall (fun team =>
         Forall (fun p' => exists row,
                   m !! tp_username p' = Some row /\ tp_id p' = playerId row)
                (gt_players team)) out.
Proof.
  revert teams. induction gts as [|g gts IH]; intros [|t teams] Hg Hall;
    try done.
  - exists []. repeat split; constructor.
  - cbn [map] in Hg. injection Hg as Hg1 Hg2.
    unfold members in Hall. cbn [map concat] in Hall.
    apply Forall_app in Hall as [Ht Hall].
    destruct (mapPlayers_spec (players t) Ht) as (ps' & Hmap & Hids & Hrows).
    destruct (IH teams Hg2 Hall) as (out & Hout & Hoids & Horows).
    cbn [mapTeams]. rewrite Hg1, Hmap, Hout.
    eexists. split; [reflexivity|]. split.
    + unfold teamIds, members in *. cbn [map concat gt_players].
      by rewrite map_app, Hids, Hoids.
    + constructor; done.
Qed.

End Mapping.

Lemma filter_none {T} (P : T -> bool) (l : list T) :
  Forall (fun x => P x = false) l -> filter (fun x => P x = true) l = [].
Proof.
  induction 1 as [|x l Hx Hl IH]; [done|].
  rewrite filter_cons. destruct (decide (P x = true)); [congruence|done].
Qed.

Lemma convert_rows (rows : list TournamentPlayerRow) :
  convertToTeamgenFormat (map toTeamGenPlayer rows) = map rowPlayer rows.
Proof.
  unfold convertToTeamgenFormat. rewrite map_map. apply map_ext.
  intros row. unfold toTeamGenPlayer, rowPlayer. cbn [tp_display_name tp_adr].
  rewrite orElse_Some by apply nameUsedInTeamGen_not_empty.
  by destruct (row_adr row).
Qed.

Lemma firstBlankId_None (out : list GeneratedTeam) :
  Forall (fun id => allSpaces id = false) (teamIds out) ->
  firstBlankId out = None.
Proof.
  unfold firstBlankId, teamIds. intros Hall.
  assert (concat (map (fun team =>
            map (fun p => (gt_id team, tp_id p))
              (filter (fun p => allSpaces (tp_id p) = true) (gt_players team)))
            out) = []) as ->; [|done].
  induction out as [|g out IH]; [done|].
  cbn [map concat] in *. apply Forall_app in Hall as [Hg Hall].
  rewrite (IH Hall), app_nil_r.
  rewrite (filter_none (fun p => allSpaces (tp_id p))); [done|].
  by apply Forall_fmap in Hg.
Qed.

Section Pipeline.

Variable random : nat -> nat.
Variables (svc : TeamGenerationService) (executionTime : Z).
Variables (rows : list TournamentPlayerRow) (runs : value Q) (r : Q).
Hypothesis Hsvc : serviceTeamSize svc = 5.
Hypothesis Hruns : validateRuns svc runs = Ok r.
Hypothesis Hrpos : (0 < r)%Q.
Hypothesis Hlen : (10 <= length rows)%nat.
Hypothesis Hmod : Z.of_nat (length rows) mod 5 = 0.
Hypothesis Hadr :
  Forall (fun row => exists z, row_adr row = Some z /\ 0 <= z <= 99999) rows.

Lemma rows_valid : validatePlayers svc (map toTeamGenPlayer rows) = Ok tt.
Proof using Hsvc Hlen Hmod Hadr.
  unfold validatePlayers. rewrite length_map, Hsvc.
  destruct (Nat.eqb_spec (length rows) 0); [lia|].
  unfold notMultiple. rewrite Z.rem_mod_nonneg, Hmod by lia. cbn [orb negb Z.eqb].
  rewrite !filter_none; [done| |].
  - apply Forall_fmap. eapply Forall_impl; [exact Hadr|].
    intros row (z & Hz & Hrange). unfold compose, adrInvalid, toTeamGenPlayer.
    cbn [tp_adr]. rewrite Hz. lia.
  - apply Forall_fmap. eapply Forall_impl; [exact Hadr|].
    intros row (z & Hz & Hrange). unfold compose, adrMissing, toTeamGenPlayer.
    cbn [tp_adr]. by rewrite Hz.
Qed.

Lemma rows_all_rated : filter (fun p => row_adr p = None) rows = [].
Proof using Hadr.
  revert Hadr. clear. induction 1 as [|row l (z & Hz & _) Hl IH]; [done|].
  rewrite filter_cons.
  destruct (decide (row_adr row = None)); [congruence|exact IH].
Qed.

(** The optimizer returns a partition of the players of the rows. *)
Lemma rows_optimized st :
  exists fuel0 teams adrDiff st',
    partitionOf (map rowPlayer rows) 5 teams
    /\ forall fuel, (fuel0 <= fuel)%nat ->
         generateBalancedTeams random svc executionTime fuel
           (map toTeamGenPlayer rows) runs st
         = (Ok (mkTeamGenerationResult (convertFromTeamgenFormat teams)
                  adrDiff r), st').
Proof using Hsvc Hruns Hrpos Hlen Hmod Hadr.
  set (st1 := mkState (heap st ++ [map rowPlayer rows]) (cursor st)).
  assert (heap st1 !! length (heap st) = Some (map rowPlayer rows)) as Hl.
  { unfold st1. cbn [heap]. by rewrite lookup_app_r, Nat.sub_diag. }
  assert (Z.of_nat (length (map rowPlayer rows)) mod 5 = 0) as Hmod'
    by (by rewrite length_map).
  assert (0 < 5) as H5 by lia.
  destruct (optimizeTeams_returns random (length (heap st)) 5 (maxIterations r)
              r (map rowPlayer rows) st1 Hl H5 Hmod')
    as (fuel0 & [teams d] & st' & Hf).
  { left. rewrite length_map. apply Z.div_le_lower_bound; lia. }
  exists fuel0, teams, d, st'. split.
  - by destruct (optimizeTeams_Ok random _ _ _ _ _ st1 Hl H5 Hmod' Hrpos
                   _ _ _ _ (Hf fuel0 (le_n fuel0))) as (Hp & _).
  - intros fuel Hfuel.
    unfold generateBalancedTeams, bind, lift, allocArray.
    rewrite rows_valid, Hruns, convert_rows, Hsvc.
    fold st1. by rewrite (Hf fuel Hfuel).
Qed.

Hypothesis Hids : Forall (fun row => allSpaces (playerId row) = false) rows.
Hypothesis Hnames : NoDup (map nameUsedInTeamGen rows).

Lemma idByName_row row :
  row ∈ rows -> idByName (nameToPlayerMap rows) (rowPlayer row) = playerId row.
Proof using Hnames.
  intros Hin. unfold idByName, rowPlayer. cbn [name].
  by rewrite nameToPlayerMap_lookup.
Qed.

Lemma generateTeams_rows st :
  exists fuel0 out st',
    teamIds out ≡ₚ map playerId rows
    /\ Forall (fun team =>
         Forall (fun p => exists row,
                   row ∈ rows /\ nameUsedInTeamGen row = tp_username p
                   /\ tp_id p = playerId row) (gt_players team)) out
    /\ forall fuel, (fuel0 <= fuel)%nat ->
         generateTeams random svc executionTime fuel rows runs st = (Ok out, st').
Proof using All.
  destruct (rows_optimized st) as (fuel0 & teams & d & st' & Hpart & Hf).
  destruct Hpart as (_ & _ & Hmem).
  destruct (mapTeams_spec (nameToPlayerMap rows) (convertFromTeamgenFormat teams)
              teams (convertFromTeamgenFormat_players teams))
    as (out & Hout & Hoids & Horows).
  { rewrite Hmem. apply Forall_fmap, Forall_forall. intros row Hrow.
    unfold compose, rowPlayer. cbn [name].
    by rewrite nameToPlayerMap_lookup. }
  assert (teamIds out ≡ₚ map playerId rows) as Hperm.
  { rewrite Hoids, Hmem, map_map.
    erewrite map_ext_in; [reflexivity|].
    intros row Hrow. apply idByName_row. by apply list_elem_of_In. }
  exists fuel0, out, st'. split; [done|]. split.
  - eapply Forall_impl; [exact Horows|]. intros team Hteam.
    eapply Forall_impl; [exact Hteam|]. intros p (row & Hrow & Hid).
    apply nameToPlayerMap_Some in Hrow as [Hin Hname]. by exists row.
  - intros fuel Hfuel. unfold generateTeams.
    rewrite rows_all_rated. cbn [length]. rewrite Nat.ltb_irrefl.
    rewrite Z.rem_mod_nonneg, Hmod by lia. cbn [Z.eqb negb].
    rewrite (Hf fuel Hfuel). cbn [result_teams]. rewrite Hout.
    rewrite firstBlankId_None; [done|].
    rewrite Hperm. by apply Forall_fmap.
Qed.

End Pipeline.




(** * More of the code *)

(** ** [shuffle] and [computeTeams] *)

(** X1.  [shuffle] on an array of the heap leaves a permutation of its
    elements at the same address, draws one random number for each element
    but the last, and touches no other array. *)
Theorem shuffle_in_place (random : nat -> nat) (a : loc) (st : state)
    (ps : list Player) :
  heap st !! a = Some ps ->
  exists ps',
    heap (shuffle random a st).2 !! a = Some ps'
    /\ ps' ≡ₚ ps
    /\ cursor (shuffle random a st).2 = (cursor st + (length ps - 1))%nat
    /\ length (heap (shuffle random a st).2) = length (heap st)
    /\ forall b, b <> a ->
         heap (shuffle random a st).2 !! b = heap st !! b.
Proof.
  intros Ha. unfold shuffle. rewrite Ha. cbn [default from_option id].
  pose proof (shuffleArray_Permutation random ps (cursor st)) as HP.
  pose proof (shuffleArray_cursor random ps (cursor st)) as HC.
  destruct (shuffleArray random ps (cursor st)) as [ps' c]. cbn [fst snd] in *.
  exists ps'. cbn [heap cursor]. split; [|split; [done|split; [done|split]]].
  - apply list_lookup_insert_eq. by eapply lookup_lt_Some.
  - by rewrite length_insert.
  - intros b Hb. by rewrite list_lookup_insert_ne.
Qed.

Lemma shuffle_in_place_witness :
  exists ps',
    heap (shuffle exampleRandom 0%nat exampleState).2 !! 0%nat = Some ps'
    /\ ps' ≡ₚ exampleRoster
    /\ cursor (shuffle exampleRandom 0%nat exampleState).2 = 9%nat
    /\ length (heap (shuffle exampleRandom 0%nat exampleState).2) = 1%nat
    /\ forall b, b <> 0%nat ->
         heap (shuffle exampleRandom 0%nat exampleState).2 !! b
         = heap exampleState !! b.
Proof.
  apply (shuffle_in_place exampleRandom 0%nat exampleState exampleRoster).
  reflexivity.
Defined.

(** The teams of the placement keep the players they have, in front. *)
Lemma placeFrom_prefix (numTeams : Z) (ps : list Player) :
  forall i teams teams',
    placeFrom numTeams i ps teams = Ok teams' ->
    forall k t, teams !! k = Some t ->
      exists t', teams' !! k = Some t' /\ players t `prefix_of` players t'.
Proof.
  induction ps as [|p ps IH]; intros i teams teams' Hpl k t Hk.
  - injection Hpl as <-. by exists t.
  - cbn [placeFrom] in Hpl.
    destruct (teams !! Z.to_nat (Z.rem (Z.of_nat i) numTeams)) as [team|] eqn:Ht;
      [|done].
    set (r := Z.to_nat (Z.rem (Z.of_nat i) numTeams)) in *.
    destruct (decide (k = r)) as [->|Hne].
    + destruct (IH _ _ _ Hpl r (addPlayer team p)) as (t' & Ht' & Hpre).
      { apply list_lookup_insert_eq. by eapply lookup_lt_Some. }
      exists t'. split; [done|]. simplify_eq.
      etransitivity; [|exact Hpre]. by apply prefix_app_r.
    + apply (IH _ _ _ Hpl k t). by rewrite list_lookup_insert_ne.
Qed.

(** Where the placement puts the players: the player at index [q * nt + r]
    of the roster is member [q] of team [r]. *)
Lemma placeFrom_index (nt : nat) (ps : list Player) :
  forall (q r : nat) (teams teams' : list Team),
    (r < nt)%nat -> length teams = nt ->
    (forall k t, teams !! k = Some t ->
       length (players t) = (q + (if decide (k < r)%nat then 1 else 0))%nat) ->
    placeFrom (Z.of_nat nt) (q * nt + r) ps teams = Ok teams' ->
    forall j p, ps !! j = Some p ->
      exists t, teams' !! ((q * nt + r + j) mod nt)%nat = Some t
        /\ players t !! ((q * nt + r + j) / nt)%nat = Some p.
Proof.
  induction ps as [|p0 ps IH]; intros q r teams teams' Hr Hlen Hinv Hpl j p Hj;
    [done|].
  cbn [placeFrom] in Hpl.
  assert (Z.to_nat (Z.rem (Z.of_nat (q * nt + r)) (Z.of_nat nt)) = r) as Hidx.
  { rewrite Z.rem_mod_nonneg by lia.
    rewrite <- Nat2Z.inj_mod, Nat2Z.id.
    rewrite Nat.add_comm, Nat.Div0.mod_add. by apply Nat.mod_small. }
  rewrite Hidx in Hpl.
  destruct (teams !! r) as [team|] eqn:Hteam; [|done].
  set (teams1 := <[r := addPlayer team p0]> teams) in *.
  assert (length teams1 = nt) as Hlen1
    by (unfold teams1; by rewrite length_insert).
  assert (forall k t, teams1 !! k = Some t ->
            (S r < nt)%nat ->
            length (players t)
            = (q + (if decide (k < S r)%nat then 1 else 0))%nat) as Hinv1.
  { intros k t Hk _. unfold teams1 in Hk.
    destruct (decide (k = r)) as [->|Hne].
    - rewrite list_lookup_insert_eq in Hk by lia. simplify_eq/=.
      rewrite length_app, (Hinv _ _ Hteam). simpl. repeat case_decide; lia.
    - rewrite list_lookup_insert_ne in Hk by done.
      rewrite (Hinv _ _ Hk). repeat case_decide; lia. }
  assert (forall k t, teams1 !! k = Some t ->
            ~ (S r < nt)%nat ->
            length (players t)
            = (S q + (if decide (k < 0)%nat then 1 else 0))%nat) as Hinv2.
  { intros k t Hk Hge. unfold teams1 in Hk.
    pose proof (lookup_lt_Some _ _ _ Hk) as Hk'. rewrite length_insert in Hk'.
    destruct (decide (k = r)) as [->|Hne].
    - rewrite list_lookup_insert_eq in Hk by lia. simplify_eq/=.
      rewrite length_app, (Hinv _ _ Hteam). simpl. repeat case_decide; lia.
    - rewrite list_lookup_insert_ne in Hk by done.
      rewrite (Hinv _ _ Hk). repeat case_decide; lia. }
  destruct j as [|j].
  - injection Hj as ->. rewrite Nat.add_0_r.
    assert (((q * nt + r) mod nt)%nat = r) as ->.
    { rewrite Nat.add_comm, Nat.Div0.mod_add. by apply Nat.mod_small. }
    assert (((q * nt + r) / nt)%nat = q) as ->.
    { rewrite Nat.add_comm, Nat.div_add by lia.
      rewrite Nat.div_small by lia. lia. }
    destruct (placeFrom_prefix _ _ _ _ _ Hpl r (addPlayer team p))
      as (t' & Ht' & Hpre).
    { unfold teams1. apply list_lookup_insert_eq. by eapply lookup_lt_Some. }
    exists t'. split; [done|].
    eapply prefix_lookup_Some; [|exact Hpre]. cbn [addPlayer players].
    rewrite lookup_app_r by (rewrite (Hinv _ _ Hteam); case_decide; lia).
    rewrite (Hinv _ _ Hteam). case_decide; [lia|].
    by rewrite Nat.add_0_r, Nat.sub_diag.
  - cbn [lookup list_lookup] in Hj.
    replace (q * nt + r + S j)%nat with (S (q * nt + r) + j)%nat by lia.
    destruct (decide (S r < nt)%nat) as [Hlt|Hge].
    + replace (S (q * nt + r)) with (q * nt + S r)%nat in * by lia.
      eapply (IH q (S r) teams1 teams'); eauto.
    + replace (S (q * nt + r)) with (S q * nt + 0)%nat in * by lia.
      eapply (IH (S q) 0%nat teams1 teams'); eauto. lia.
Qed.

(** X2.  The round-robin placement of [computeTeams]: the participant at
    index [i] of the roster is the member at position [i / numTeams] of
    team [i mod numTeams]. *)
Theorem computeTeams_round_robin (ps : list Player) (teamSize : Z)
    (teams : list Team) (adrDiff : number) :
  0 < teamSize -> Z.of_nat (length ps) mod teamSize = 0 ->
  computeTeams ps teamSize = Ok (teams, adrDiff) ->
  forall i p, ps !! i = Some p ->
    exists t,
      teams !! (i mod length teams)%nat = Some t
      /\ players t !! (i / length teams)%nat = Some p.
Proof.
  intros Hts Hmod Hct i p Hi.
  destruct (computeTeams_spec ps teamSize Hts Hmod) as (teams0 & Hct0 & (Hn & _) & _).
  rewrite Hct in Hct0. injection Hct0 as -> _.
  unfold computeTeams in Hct. rewrite Z.quot_div_nonneg in Hct by lia.
  rewrite <- Hn in Hct.
  destruct (placeFrom (Z.of_nat (length teams0)) 0 ps _) as [teams'| |] eqn:Hpl;
    [|done..].
  injection Hct as Heq _. subst teams'.
  assert (0 < length teams0)%nat as Hpos.
  { apply lookup_lt_Some in Hi.
    destruct (length teams0) eqn:E; [|lia].
    pose proof (Z.div_mod (Z.of_nat (length ps)) teamSize ltac:(lia)) as HD.
    rewrite Hmod, <- Hn in HD. lia. }
  destruct (placeFrom_index (length teams0) ps 0 0
              (emptyTeams (Z.of_nat (length teams0))) teams0) with (j := i) (p := p)
    as (t & Ht & Hp); try done.
  - unfold emptyTeams. rewrite length_replicate. lia.
  - intros k t Hk. unfold emptyTeams in Hk.
    apply lookup_replicate_1 in Hk as [-> _]. simpl. repeat case_decide; lia.
  - by exists t.
Qed.

Lemma computeTeams_round_robin_witness :
  exists t,
    [mkTeam [mkPlayer "a" 1; mkPlayer "c" 3] 4;
     mkTeam [mkPlayer "b" 2; mkPlayer "d" 4] 6] !! (3 mod 2)%nat = Some t
    /\ players t !! (3 / 2)%nat = Some (mkPlayer "d" 4).
Proof.
  apply (computeTeams_round_robin
           [mkPlayer "a" 1; mkPlayer "b" 2; mkPlayer "c" 3; mkPlayer "d" 4] 2
           [mkTeam [mkPlayer "a" 1; mkPlayer "c" 3] 4;
            mkTeam [mkPlayer "b" 2; mkPlayer "d" 4] 6] (Fin 2) ltac:(lia)
           eq_refl eq_refl 3%nat (mkPlayer "d" 4) eq_refl).
Defined.

(** ** Spreads do not depend on the order of the teams *)

Lemma fold_left_Permutation {A B} (f : B -> A -> B) :
  (forall b x y, f (f b x) y = f (f b y) x) ->
  forall xs ys, xs ≡ₚ ys -> forall b, fold_left f xs b = fold_left f ys b.
Proof.
  intros Hf xs ys HP. induction HP as [|x xs ys HP IH|x y xs|xs ys zs _ IH1 _ IH2];
    intros b; simpl.
  - done.
  - apply IH.
  - by rewrite Hf.
  - by rewrite IH1.
Qed.

Lemma num_max2_swap b x y : num_max2 (num_max2 b x) y = num_max2 (num_max2 b y) x.
Proof.
  destruct b, x, y; simpl; try done;
    repeat (case_match; simpl; try done); f_equal; lia.
Qed.

Lemma num_min2_swap b x y : num_min2 (num_min2 b x) y = num_min2 (num_min2 b y) x.
Proof.
  destruct b, x, y; simpl; try done;
    repeat (case_match; simpl; try done); f_equal; lia.
Qed.

Lemma spread_Permutation (teams teams' : list Team) :
  teams ≡ₚ teams' -> spread teams = spread teams'.
Proof.
  intros HP. unfold spread, Math_max, Math_min.
  assert (map (fun t => Fin (totalAdr t)) teams
          ≡ₚ map (fun t => Fin (totalAdr t)) teams') as HP'
    by (by apply Permutation_map).
  by rewrite (fold_left_Permutation _ num_max2_swap _ _ HP'),
             (fold_left_Permutation _ num_min2_swap _ _ HP').
Qed.

Lemma num_ltb_irrefl a : num_ltb a a = false.
Proof. destruct a; simpl; try done. lia. Qed.

Lemma ratingRange_spread (roster : list Player) :
  ratingRange roster = spread (map (fun p => mkTeam [] (adr p)) roster).
Proof. unfold ratingRange, spread. by rewrite !map_map. Qed.

(** ** Teams of one *)

Section Singletons.

Variable random : nat -> nat.
Variable maxNoImprovement : Z.

Lemma singleton_team teams k t :
  singletons teams -> consistent teams -> teams !! k = Some t ->
  forall a p, players t !! a = Some p -> a = 0%nat /\ t = mkTeam [p] (adr p).
Proof.
  intros Hs Hc Hk a p Ha.
  assert (length (players t) = 1%nat) as Hlen.
  { eapply Forall_lookup_1 in Hs; [exact Hs|].
    unfold sizes. by rewrite list_lookup_fmap, Hk. }
  pose proof (Forall_lookup_1 _ _ _ _ Hc Hk) as Htot. simpl in Htot.
  destruct t as [[|p' [|? ?]] tot]; simpl in *; try done.
  destruct a as [|a]; [|done]. injection Ha as ->.
  split; [done|]. by rewrite Htot.
Qed.

(** With teams of one member a swap exchanges two totals, the spread is
    the same, and the swap is reverted. *)
Lemma attempt_singletons teams noImprovement st r st' :
  singletons teams -> consistent teams ->
  attempt random (teams, spread teams, noImprovement) st = (Ok r, st') ->
  r = (teams, spread teams, S noImprovement).
Proof.
  intros Hs Hc Hat.
  apply attempt_Ok in Hat
    as (i & j & a & b & tA & tB & pA & pB & Hi & Hj & Hij & Ha & Hb & _ & Hr).
  cbn zeta in Hr.
  rewrite (reverted_teams _ _ _ _ _ _ _ _ _ Hi Hj Hij Ha Hb Hc) in Hr.
  destruct (singleton_team _ _ _ Hs Hc Hi _ _ Ha) as [-> ->].
  destruct (singleton_team _ _ _ Hs Hc Hj _ _ Hb) as [-> ->].
  assert (assignPlayers teams i j 0 0 (mkTeam [pA] (adr pA))
            (mkTeam [pB] (adr pB)) pB pA ≡ₚ teams) as HP.
  { unfold assignPlayers, setPlayer, sumAdr. simpl.
    by apply Permutation_insert_swap. }
  by rewrite (spread_Permutation _ _ HP), num_ltb_irrefl in Hr.
Qed.

Lemma search_singletons teams :
  (2 <= length teams)%nat -> singletons teams -> consistent teams ->
  forall fuel noImprovement st,
    (Z.to_nat (maxNoImprovement - Z.of_nat noImprovement) <= fuel)%nat ->
    exists st',
      search random fuel maxNoImprovement (teams, spread teams, noImprovement) st
      = (Ok (teams, spread teams), st').
Proof.
  intros Hlen Hs Hc fuel.
  induction fuel as [|fuel IH]; intros n st Hfuel; cbn [search].
  - destruct (Z.ltb_spec (Z.of_nat n) maxNoImprovement); [lia|]. by eexists.
  - destruct (Z.ltb_spec (Z.of_nat n) maxNoImprovement); [|by eexists].
    destruct (attempt_total random teams (spread teams) n st Hlen)
      as (r & st1 & Hat).
    { eapply Forall_impl; [exact Hs|]. intros k ->. lia. }
    rewrite (attempt_singletons _ _ _ _ _ Hs Hc Hat) in Hat.
    unfold bind. rewrite Hat. apply IH. lia.
Qed.

End Singletons.

(** The spread of teams of one is the range of the ratings. *)
Lemma singletons_spread roster teams :
  partitionOf roster 1 teams -> consistent teams ->
  singletons teams /\ spread teams = ratingRange roster.
Proof.
  intros (_ & Hsz & Hm) Hc.
  assert (singletons teams) as Hs.
  { apply Forall_fmap. eapply Forall_impl; [exact Hsz|].
    intros t Ht. unfold compose. simpl in Ht. lia. }
  split; [done|].
  assert (map (fun t => Fin (totalAdr t)) teams
          = map (fun p => Fin (adr p)) (members teams)) as Heq.
  { clear Hm Hsz. unfold members.
    induction teams as [|t teams IH]; [done|].
    apply Forall_cons in Hc as [Ht Hc']. apply Forall_cons in Hs as [Hs1 Hs'].
    cbn [map concat]. rewrite map_app, <- (IH Hc' Hs'). simpl in Hs1.
    destruct t as [[|p [|? ?]] tot]; simpl in *; try done.
    unfold sumAdr in Ht. simpl in Ht. by subst tot. }
  unfold spread, ratingRange, Math_max, Math_min. rewrite Heq.
  assert (map (fun p => Fin (adr p)) (members teams)
          ≡ₚ map (fun p => Fin (adr p)) roster) as HP
    by (by apply Permutation_map).
  by rewrite (fold_left_Permutation _ num_max2_swap _ _ HP),
             (fold_left_Permutation _ num_min2_swap _ _ HP).
Qed.

Section SingletonRuns.

Variable random : nat -> nat.
Variables (playersRef : loc) (maxNoImprovement : Z) (roster : list Player).
Hypothesis Hlen : (2 <= length roster)%nat.

Lemma oneRun_singletons fuel st :
  heap st !! playersRef = Some roster ->
  (Z.to_nat maxNoImprovement <= fuel)%nat ->
  exists teams0 st',
    computeTeams (afterShuffle random playersRef st).1 1
      = Ok (teams0, ratingRange roster)
    /\ oneRun random fuel playersRef 1 maxNoImprovement st
       = (Ok (teams0, ratingRange roster), st')
    /\ heap st' !! playersRef = Some roster.
Proof using Hlen.
  intros Hl Hfuel.
  assert (0 < 1) as H1 by lia.
  assert (Z.of_nat (length roster) mod 1 = 0) as Hmod by apply Z.mod_1_r.
  destruct (initial_teams random playersRef 1 roster H1 Hmod st Hl)
    as (teams0 & Hct & Hp & Hc).
  destruct (singletons_spread roster teams0 Hp Hc) as [Hs Hsp].
  assert (2 <= length teams0)%nat as Hlen0.
  { destruct Hp as (Hn & _). rewrite Z.div_1_r in Hn. lia. }
  destruct (search_singletons random maxNoImprovement teams0 Hlen0 Hs Hc fuel
              0%nat (afterShuffle random playersRef st).2) as [st' Hsearch];
    [simpl; lia|].
  exists teams0, st'. rewrite <- Hsp. split; [done|].
  assert (oneRun random fuel playersRef 1 maxNoImprovement st
          = (Ok (teams0, spread teams0), st')) as Hrun
    by (by rewrite oneRun_unfold, Hct).
  split; [done|].
  pose proof (oneRun_roster random playersRef 1 maxNoImprovement roster fuel st Hl)
    as Hr. by rewrite Hrun in Hr.
Qed.

Lemma runsLoop_singletons n fuel :
  (Z.to_nat maxNoImprovement <= fuel)%nat ->
  forall best st,
    heap st !! playersRef = Some roster ->
    exists st',
      runsLoop random n fuel playersRef 1 maxNoImprovement best
        (ratingRange roster) st
      = (Ok (best, ratingRange roster), st').
Proof using Hlen.
  intros Hfuel. induction n as [|n IH]; intros best st Hl; [by eexists|].
  destruct (oneRun_singletons fuel st Hl Hfuel) as (teams0 & st1 & _ & Hrun & Hl1).
  cbn [runsLoop]. unfold bind. rewrite Hrun. cbn [fst snd].
  rewrite num_ltb_irrefl. by apply IH.
Qed.

End SingletonRuns.



(** ** How long the search runs *)

Lemma fold_max_le (zs : list Z) (a b : Z) :
  a <= b -> Forall (fun z => z <= b) zs -> fold_left Z.max zs a <= b.
Proof.
  intros Ha Hzs. revert a Ha.
  induction Hzs as [|z zs Hz _ IH]; intros a Ha; simpl; [done|].
  apply IH. lia.
Qed.

Lemma fold_min_ge (zs : list Z) (a b : Z) :
  b <= a -> Forall (fun z => b <= z) zs -> b <= fold_left Z.min zs a.
Proof.
  intros Ha Hzs. revert a Ha.
  induction Hzs as [|z zs Hz _ IH]; intros a Ha; simpl; [done|].
  apply IH. lia.
Qed.

(** The spread of teams whose totals lie between [lo] and [hi]. *)
Lemma spread_bounded (teams : list Team) (lo hi z : Z) :
  Forall (fun t => lo <= totalAdr t <= hi) teams ->
  spread teams = Fin z -> z <= hi - lo.
Proof.
  intros Hall Hz. destruct teams as [|t teams]; [done|].
  apply Forall_cons in Hall as [Ht Hall].
  unfold spread, Math_max, Math_min in Hz. cbn [map fold_left] in Hz.
  change (num_max2 NegInf (Fin (totalAdr t))) with (Fin (totalAdr t)) in Hz.
  change (num_min2 PosInf (Fin (totalAdr t))) with (Fin (totalAdr t)) in Hz.
  rewrite <- (map_map totalAdr Fin), Math_max_Fin, Math_min_Fin in Hz.
  injection Hz as <-.
  pose proof (fold_max_le (map totalAdr teams) (totalAdr t) hi) as H1.
  pose proof (fold_min_ge (map totalAdr teams) (totalAdr t) lo) as H2.
  assert (Forall (fun z => z <= hi) (map totalAdr teams)) as Hhi.
  { apply Forall_fmap. eapply Forall_impl; [exact Hall|]. intros u Hu.
    unfold compose. simpl in Hu. lia. }
  assert (Forall (fun z => lo <= z) (map totalAdr teams)) as Hlo.
  { apply Forall_fmap. eapply Forall_impl; [exact Hall|]. intros u Hu.
    unfold compose. simpl in Hu. lia. }
  specialize (H1 ltac:(lia) Hhi). specialize (H2 ltac:(lia) Hlo). lia.
Qed.

Lemma sumAdr_bounded (ps : list Player) (R : Z) :
  Forall (fun p => 0 <= adr p <= R) ps ->
  0 <= sumAdr ps <= Z.of_nat (length ps) * R.
Proof.
  unfold sumAdr. intros Hps.
  assert (forall a, fold_left (fun sum p => sum + adr p) ps a - a >= 0
            /\ fold_left (fun sum p => sum + adr p) ps a - a
               <= Z.of_nat (length ps) * R) as H; [|specialize (H 0); lia].
  induction Hps as [|p ps Hp _ IH]; intros a; simpl length; simpl fold_left;
    [lia|].
  specialize (IH (a + adr p)). nia.
Qed.

(** The totals of teams of [teamSize] members rated between 0 and [R]. *)
Lemma totals_bounded roster teamSize teams (R : Z) :
  partitionOf roster teamSize teams -> consistent teams ->
  Forall (fun p => 0 <= adr p <= R) roster ->
  Forall (fun t => 0 <= totalAdr t <= teamSize * R) teams.
Proof.
  intros (_ & Hsz & Hm) Hc HR.
  assert (Forall (fun p => 0 <= adr p <= R) (members teams)) as HR'
    by (by rewrite Hm).
  clear Hm HR. unfold members in HR'.
  induction teams as [|t teams IH]; [constructor|].
  apply Forall_cons in Hsz as [Hs1 Hsz]. apply Forall_cons in Hc as [Hc1 Hc].
  cbn [map concat] in HR'. apply Forall_app in HR' as [Ht HR'].
  constructor; [|by apply IH].
  simpl in Hs1, Hc1. rewrite Hc1, <- Hs1. by apply sumAdr_bounded.
Qed.

Section Bound.

Variable random : nat -> nat.
Variable maxNoImprovement : Z.

(** Every iteration that rejects a swap moves the counter towards
    [maxNoImprovement]; every iteration that accepts one lowers the spread by
    a hundredth at least. *)
Lemma search_bound fuel :
  forall teams noImprovement st z,
    (2 <= length teams)%nat -> Forall (fun n => (0 < n)%nat) (sizes teams) ->
    consistent teams -> spread teams = Fin z ->
    (Z.to_nat z * Z.to_nat maxNoImprovement
       + Z.to_nat (maxNoImprovement - Z.of_nat noImprovement) <= fuel)%nat ->
    exists r st',
      search random fuel maxNoImprovement (teams, Fin z, noImprovement) st
      = (Ok r, st').
Proof.
  induction fuel as [|fuel IH]; intros teams n st z Hlen Hne Hc Hsp Hfuel;
    cbn [search].
  - destruct (Z.ltb_spec (Z.of_nat n) maxNoImprovement); [lia|]. by eexists _, _.
  - destruct (Z.ltb_spec (Z.of_nat n) maxNoImprovement) as [Hlt|];
      [|by eexists _, _].
    destruct (attempt_total random teams (Fin z) n st Hlen Hne)
      as ([[teams1 d1] n1] & st1 & Hat).
    destruct (attempt_step random _ _ _ _ _ _ Hat Hc)
      as (_ & Hm & Hsz & Hc1 & Hcase). cbn [fst snd] in *.
    unfold bind. rewrite Hat.
    destruct Hcase as [[= -> -> ->]|(Hd1 & Hlt' & ->)].
    + apply IH; try done. lia.
    + assert (length teams1 = length teams) as Hlen1.
      { pose proof (f_equal length Hsz) as HL. unfold sizes in HL.
        by rewrite !length_map in HL. }
      destruct teams1 as [|t1 teams1]; [simpl in *; lia|].
      destruct (spread_cons t1 teams1) as (z1 & Hz1 & Hz1pos).
      rewrite Hz1 in Hd1. subst d1. unfold num_lt in Hlt'. simpl in Hlt'.
      apply IH; try done; [lia|by rewrite Hsz|].
      assert (Z.to_nat z1 < Z.to_nat z)%nat as Hz by lia.
      assert (1 <= Z.to_nat (maxNoImprovement - Z.of_nat n))%nat as H1 by lia.
      assert (Z.to_nat (maxNoImprovement - Z.of_nat 0)
              = Z.to_nat maxNoImprovement) as -> by (f_equal; lia).
      nia.
Qed.

End Bound.

(** The runs return as soon as the fuel covers one rejected swap per unit
    of the counter for every hundredth of the initial spread. *)
Lemma runsLoop_within (random : nat -> nat) (fuel : nat)
    (playersRef : loc) (teamSize maxNoImprovement : Z)
    (roster : list Player) (R : Z) (n : nat) :
  0 < teamSize ->
  Z.of_nat (length roster) mod teamSize = 0 ->
  2 <= Z.of_nat (length roster) / teamSize ->
  Forall (fun p => 0 <= adr p <= R) roster ->
  ((Z.to_nat (teamSize * R) + 1) * Z.to_nat maxNoImprovement <= fuel)%nat ->
  forall st best bestDiff,
    heap st !! playersRef = Some roster ->
    exists r st',
      runsLoop random n fuel playersRef teamSize maxNoImprovement
        best bestDiff st = (Ok r, st').
Proof.
  intros Hsize Hmod Hnt HR Hfuel.
  induction n as [|n IH]; intros st best bd Hl; [by eexists _, _|].
  cbn [runsLoop]. unfold bind.
  destruct (initial_teams random playersRef teamSize roster Hsize Hmod st Hl)
    as (teams0 & Hct & Hp & Hc).
  assert (exists r st1,
            oneRun random fuel playersRef teamSize maxNoImprovement st
            = (Ok r, st1)) as (r & st1 & Hrun).
  { rewrite oneRun_unfold, Hct. cbn [fst snd].
    pose proof Hp as (Hn & Hsz & _).
    destruct teams0 as [|t0 teams0]; [simpl in Hn; lia|].
    destruct (spread_cons t0 teams0) as (z & Hz & Hzpos). rewrite Hz.
    apply search_bound; try done.
    - lia.
    - apply Forall_fmap. eapply Forall_impl; [exact Hsz|].
      intros t Ht. unfold compose. simpl in Ht. lia.
    - pose proof (spread_bounded _ 0 (teamSize * R) z
                    (totals_bounded _ _ _ R Hp Hc HR) Hz) as Hzle.
      assert (Z.to_nat z <= Z.to_nat (teamSize * R))%nat as Hz' by lia.
      assert (Z.to_nat (maxNoImprovement - Z.of_nat 0)
              <= Z.to_nat maxNoImprovement)%nat as H0 by lia.
      nia. }
  rewrite Hrun.
  assert (heap st1 !! playersRef = Some roster) as Hl1.
  { pose proof (oneRun_roster random playersRef teamSize maxNoImprovement
                  roster fuel st Hl) as H. by rewrite Hrun in H. }
  destruct (num_ltb r.2 bd); by apply IH.
Qed.



(** ** The best of the runs *)

Lemma num_ltb_false_le a b :
  a <> NaN -> b <> NaN -> num_ltb a b = false -> num_le b a.
Proof.
  unfold num_le. destruct a, b; simpl; try done.
  intros _ _ H. apply Z.ltb_ge in H. by apply Z.leb_le.
Qed.

Lemma num_le_lt_trans a b c : num_le a b -> num_lt b c -> num_lt a c.
Proof. unfold num_le, num_lt. destruct a, b, c; simpl; try done. lia. Qed.

Lemma num_lt_le_trans a b c : num_lt a b -> num_le b c -> num_lt a c.
Proof. unfold num_le, num_lt. destruct a, b, c; simpl; try done. lia. Qed.

Section RunSpread.

Variable random : nat -> nat.

(** The tracked [adrDiff] is at any time the spread of some teams. *)
Lemma attempt_is_spread teams d n st teams' d' n' st' :
  attempt random (teams, d, n) st = (Ok (teams', d', n'), st') ->
  (exists ts, d = spread ts) -> exists ts, d' = spread ts.
Proof.
  intros Hat Hd.
  apply attempt_Ok in Hat
    as (i & j & a & b & tA & tB & pA & pB & _ & _ & _ & _ & _ & _ & Hr).
  cbn zeta in Hr.
  destruct (num_ltb _ d); injection Hr as _ -> _; [by eexists|done].
Qed.

Lemma search_is_spread maxNoImprovement fuel :
  forall teams d n st teams' d' st',
    search random fuel maxNoImprovement (teams, d, n) st
      = (Ok (teams', d'), st') ->
    (exists ts, d = spread ts) -> exists ts, d' = spread ts.
Proof.
  induction fuel as [|fuel IH]; intros teams d n st teams' d' st';
    cbn [search]; case_match; try done.
  - by intros [= _ <- _].
  - unfold bind.
    destruct (attempt random (teams, d, n) st) as [[[[t1 d1] n1]| |] st1]
      eqn:Hat; try done.
    intros Hs Hd. eapply IH; [exact Hs|]. by eapply attempt_is_spread.
  - by intros [= _ <- _].
Qed.

Lemma oneRun_is_spread fuel playersRef teamSize maxNoImprovement st r st' :
  oneRun random fuel playersRef teamSize maxNoImprovement st = (Ok r, st') ->
  exists ts, r.2 = spread ts.
Proof.
  rewrite oneRun_unfold. unfold computeTeams.
  destruct (placeFrom _ _ _ _) as [teams0| |]; try done. cbn [fst snd].
  destruct r as [teams d]. intros Hs.
  eapply search_is_spread; [exact Hs|]. by eexists.
Qed.

(** What the loop over the runs keeps: the first of the results of the runs
    that is below [bestDiff] and below or equal to all results, or
    [bestTeams] and [bestDiff] if no result is below [bestDiff]. *)
Lemma runsLoop_best fuel playersRef teamSize maxNoImprovement n :
  forall best bestDiff st teams d st',
    bestDiff <> NaN ->
    runsLoop random n fuel playersRef teamSize maxNoImprovement best bestDiff st
      = (Ok (teams, d), st') ->
    let rs := runResults random n fuel playersRef teamSize maxNoImprovement st in
    length rs = n
    /\ Forall (fun r => num_le d r.2) rs
    /\ (((teams, d) = (best, bestDiff))
        \/ (num_lt d bestDiff
            /\ exists k, rs !! k = Some (teams, d)
                 /\ forall k' r', (k' < k)%nat -> rs !! k' = Some r' ->
                      num_lt d r'.2)).
Proof.
  induction n as [|n IH]; intros best bd st teams d st' Hbd.
  - cbn [runsLoop runResults]. intros [= -> -> ->]. simpl. by auto.
  - cbn [runsLoop runResults]. unfold bind.
    destruct (oneRun random fuel playersRef teamSize maxNoImprovement st)
      as [[r| |] st1] eqn:Hrun; try done.
    destruct (oneRun_is_spread _ _ _ _ _ _ _ Hrun) as [ts Hts].
    assert (r.2 <> NaN) as Hr by (rewrite Hts; apply spread_not_NaN).
    destruct (num_ltb r.2 bd) eqn:Hlt; intros Hloop.
    + destruct (IH _ _ _ _ _ _ Hr Hloop) as (Hlen & Hall & Hcase).
      cbn zeta. split; [simpl; by rewrite Hlen|].
      assert (num_le d r.2) as Hd.
      { destruct Hcase as [[= -> ->]|[Hlt' _]];
          [by apply num_le_refl|by apply num_lt_le]. }
      split; [by constructor|]. right.
      split; [by eapply num_le_lt_trans|].
      destruct Hcase as [[= -> ->]|(Hlt' & k & Hk & Hfirst)].
      * exists 0%nat. split; [by destruct r|]. intros k' r' Hk'. lia.
      * exists (S k). split; [done|]. intros [|k'] r' Hk' Hr'.
        -- by injection Hr' as <-.
        -- apply (Hfirst k'); [lia|done].
    + destruct (IH _ _ _ _ _ _ Hbd Hloop) as (Hlen & Hall & Hcase).
      cbn zeta. split; [simpl; by rewrite Hlen|].
      assert (num_le bd r.2) as Hle by (by apply num_ltb_false_le).
      assert (num_le d r.2) as Hd.
      { destruct Hcase as [[= -> ->]|[Hlt' _]]; [done|].
        apply num_lt_le. by eapply num_lt_le_trans. }
      split; [by constructor|].
      destruct Hcase as [?|(Hlt' & k & Hk & Hfirst)]; [by left|right].
      split; [done|]. exists (S k). split; [done|].
      intros [|k'] r' Hk' Hr'.
      * injection Hr' as <-. by eapply num_lt_le_trans.
      * apply (Hfirst k'); [lia|done].
Qed.

End RunSpread.



(** ** Team sizes and rosters at the edge of the guard *)

(** A negative [teamSize] gives a negative number of teams, so no team at
    all: placing the first player throws. *)
Lemma computeTeams_no_team (ps : list Player) (teamSize : Z) :
  ps <> [] -> Z.quot (Z.of_nat (length ps)) teamSize <= 0 ->
  computeTeams ps teamSize = Throw TypeError.
Proof.
  intros Hps Hq. unfold computeTeams, emptyTeams.
  destruct ps as [|p ps]; [done|].
  replace (Z.to_nat _) with 0%nat by lia. reflexivity.
Qed.

(** X6.  The guard lets a negative [teamSize] through when it divides the
    number of players; the call then throws a [TypeError] in its first run,
    after the copy and the shuffle, whatever [maxNoImprovement] is. *)
Theorem optimizeTeams_negative_teamSize (random : nat -> nat) (fuel : nat)
    (playersRef : loc) (teamSize maxNoImprovement : Z) (runs : Q)
    (roster : list Player) (st : state) :
  heap st !! playersRef = Some roster ->
  roster <> [] ->
  teamSize < 0 ->
  Z.rem (Z.of_nat (length roster)) teamSize = 0 ->
  (0 < runs)%Q ->
  optimizeTeams random fuel playersRef teamSize maxNoImprovement runs st
  = (Throw TypeError, (afterShuffle random playersRef st).2).
Proof.
  intros Hl Hne Hneg Hrem Hruns.
  rewrite (optimizeTeams_accepted random _ _ _ _ roster st Hl).
  2:{ unfold notMultiple. rewrite Hrem.
      by destruct (Z.eqb_spec teamSize 0); [lia|]. }
  destruct (runCount_pos runs Hruns) as [n ->].
  cbn [runsLoop]. unfold bind. rewrite oneRun_unfold.
  rewrite computeTeams_no_team; [done| |].
  - unfold afterShuffle. rewrite Hl. cbn [default from_option id fst].
    intros Hnil.
    pose proof (shuffleArray_Permutation random roster (cursor st)) as Hp.
    rewrite Hnil in Hp. apply Permutation_nil in Hp. done.
  - assert (0 <= Z.of_nat (length (afterShuffle random playersRef st).1))
      as Hlen by lia.
    pose proof (Z.quot_opp_r
                  (Z.of_nat (length (afterShuffle random playersRef st).1))
                  (- teamSize) ltac:(lia)) as Ho.
    rewrite Z.opp_involutive in Ho. rewrite Ho.
    assert (0 <= Z.of_nat (length (afterShuffle random playersRef st).1)
                   ÷ - teamSize); [|lia].
    apply Z.quot_pos; lia.
Qed.

Lemma optimizeTeams_negative_teamSize_witness :
  optimizeTeams exampleRandom 10 0%nat (-5) 3 2 exampleState
  = (Throw TypeError, (afterShuffle exampleRandom 0%nat exampleState).2).
Proof.
  apply (optimizeTeams_negative_teamSize exampleRandom 10 0%nat (-5) 3 2
           exampleRoster exampleState).
  - reflexivity.
  - discriminate.
  - lia.
  - reflexivity.
  - reflexivity.
Defined.

Section EmptyRoster.

Variable random : nat -> nat.
Variable playersRef : loc.
Variable teamSize maxNoImprovement : Z.

Lemma afterShuffle_empty st :
  heap st !! playersRef = Some [] ->
  afterShuffle random playersRef st = ([], mkState (heap st ++ [[]]) (cursor st)).
Proof. intros Hl. unfold afterShuffle. by rewrite Hl. Qed.

Lemma computeTeams_empty : computeTeams [] teamSize = Ok ([], NegInf).
Proof. reflexivity. Qed.

(** The runs on an empty roster when the [while] loop is not entered: after
    the first run the best spread is [-Infinity], which no later run
    beats. *)
Lemma runsLoop_empty fuel n :
  maxNoImprovement <= 0 ->
  forall st best bestDiff,
    heap st !! playersRef = Some [] ->
    bestDiff = PosInf \/ (best = [] /\ bestDiff = NegInf) ->
    runsLoop random (S n) fuel playersRef teamSize maxNoImprovement
      best bestDiff st
    = (Ok ([], NegInf),
       mkState (heap st ++ replicate (S n) []) (cursor st)).
Proof.
  intros Hmax. induction n as [|n IH]; intros st best bd Hl Hbd.
  - cbn [runsLoop]. unfold bind.
    rewrite (oneRun_no_search random playersRef teamSize maxNoImprovement [] fuel st [] NegInf Hmax)
      by (rewrite afterShuffle_empty by done; apply computeTeams_empty).
    rewrite afterShuffle_empty by done. cbn [fst snd].
    by destruct Hbd as [->|[-> ->]].
  - change (runsLoop random (S (S n)) fuel playersRef teamSize maxNoImprovement
              best bd st)
      with (bind (oneRun random fuel playersRef teamSize maxNoImprovement)
              (fun r =>
                 if num_ltb r.2 bd then
                   runsLoop random (S n) fuel playersRef teamSize
                     maxNoImprovement r.1 r.2
                 else
                   runsLoop random (S n) fuel playersRef teamSize
                     maxNoImprovement best bd) st).
    unfold bind.
    rewrite (oneRun_no_search random playersRef teamSize maxNoImprovement [] fuel st [] NegInf Hmax)
      by (rewrite afterShuffle_empty by done; apply computeTeams_empty).
    rewrite afterShuffle_empty by done. cbn [fst snd].
    assert (heap (mkState (heap st ++ [[]]) (cursor st)) !! playersRef
            = Some []) as Hl1.
    { cbn [heap]. rewrite lookup_app_l; [done|]. by eapply lookup_lt_Some. }
    destruct Hbd as [->|[-> ->]]; cbn [num_ltb].
    + rewrite IH by (done || by right). cbn [heap cursor].
      by rewrite <- app_assoc.
    + rewrite IH by (done || by right). cbn [heap cursor].
      by rewrite <- app_assoc.
Qed.

End EmptyRoster.

(** X7.  On an empty array of players the guard passes for every non-zero
    [teamSize].  If the [while] loop is not entered, the call returns no
    team and the spread [-Infinity], having made one empty copy per run and
    no draw; otherwise the first iteration throws a [TypeError] after one
    draw. *)
Theorem optimizeTeams_empty_roster (random : nat -> nat) (fuel : nat)
    (playersRef : loc) (teamSize maxNoImprovement : Z) (runs : Q)
    (st : state) :
  heap st !! playersRef = Some [] ->
  teamSize <> 0 ->
  (0 < runs)%Q ->
  (maxNoImprovement <= 0 ->
     optimizeTeams random fuel playersRef teamSize maxNoImprovement runs st
     = (Ok ([], NegInf),
        mkState (heap st ++ replicate (runCount runs) []) (cursor st)))
  /\ (0 < maxNoImprovement ->
        optimizeTeams random (S fuel) playersRef teamSize maxNoImprovement
          runs st
        = (Throw TypeError, mkState (heap st ++ [[]]) (S (cursor st)))).
Proof.
  intros Hl Hts Hruns.
  assert (notMultiple (Z.of_nat (@length Player [])) teamSize = false) as Hn.
  { unfold notMultiple. cbn [length]. rewrite Z.rem_0_l by done.
    by destruct (Z.eqb_spec teamSize 0). }
  destruct (runCount_pos runs Hruns) as [n Hrc].
  split; intros Hmax;
    rewrite (optimizeTeams_accepted random _ _ _ _ [] st Hl) by done;
    rewrite Hrc.
  - apply runsLoop_empty; auto.
  - cbn [runsLoop]. unfold bind.
    rewrite oneRun_unfold, afterShuffle_empty by done.
    cbn [fst snd]. rewrite computeTeams_empty. cbn [fst snd search].
    destruct (Z.of_nat 0 <? maxNoImprovement) eqn:Hcond;
      [|apply Z.ltb_ge in Hcond; simpl in Hcond; lia].
    unfold bind. by rewrite attempt_none.
Qed.

Lemma optimizeTeams_empty_roster_witness :
  optimizeTeams exampleRandom 0 0%nat 5 0 2 (mkState [[]] 0)
    = (Ok ([], NegInf), mkState [[]; []; []] 0)
  /\ optimizeTeams exampleRandom 1 0%nat 5 1 2 (mkState [[]] 0)
     = (Throw TypeError, mkState [[]; []] 1).
Proof.
  split.
  - apply (proj1 (optimizeTeams_empty_roster exampleRandom 0 0%nat 5 0 2
                    (mkState [[]] 0) eq_refl ltac:(discriminate) eq_refl)).
    lia.
  - apply (proj2 (optimizeTeams_empty_roster exampleRandom 0 0%nat 5 1 2
                    (mkState [[]] 0) eq_refl ltac:(discriminate) eq_refl)).
    lia.
Defined.

(** * More of [TeamGenerationService] *)

(** ** What [validatePlayers] accepts *)

Lemma filter_nil_Forall {T} (P : T -> bool) (l : list T) :
  filter (fun x => P x = true) l = [] -> Forall (fun x => P x = false) l.
Proof.
  induction l as [|x l IH]; [constructor|].
  rewrite filter_cons. destruct (decide (P x = true)) as [Hx|Hx]; [done|].
  intros Hl. constructor; [by destruct (P x)|by apply IH].
Qed.

Lemma length_zero_nil {T} (l : list T) : (0 <? length l)%nat = false -> l = [].
Proof. destruct l; [done|]. simpl. done. Qed.

Lemma validatePlayers_Ok_inv (svc : TeamGenerationService)
    (ps : list TournamentPlayer) :
  validatePlayers svc ps = Ok tt ->
  ps <> []
  /\ notMultiple (Z.of_nat (length ps)) (serviceTeamSize svc) = false
  /\ Forall (fun p => exists z, tp_adr p = VNumber z /\ 0 <= z <= 99999) ps.
Proof.
  unfold validatePlayers.
  destruct ps as [|p0 ps']; [done|].
  change ((length (p0 :: ps') =? 0)%nat) with false. cbv iota.
  destruct (notMultiple _ _); [done|].
  destruct (0 <? length (filter (fun p => adrMissing p = true) (p0 :: ps')))%nat
    eqn:Hmiss; [done|].
  destruct (0 <? length (filter (fun p => adrInvalid p = true) (p0 :: ps')))%nat
    eqn:Hinv; [done|].
  intros _. split; [done|]. split; [done|].
  apply length_zero_nil, filter_nil_Forall in Hinv.
  eapply Forall_impl; [exact Hinv|]. intros p Hp. simpl in Hp.
  unfold adrInvalid in Hp. destruct (tp_adr p) as [| | |z]; try done.
  exists z. split; [done|].
  apply orb_false_iff in Hp as [H1 H2].
  apply Z.ltb_ge in H1, H2. lia.
Qed.

Lemma validatePlayers_Ok_intro (svc : TeamGenerationService)
    (ps : list TournamentPlayer) :
  ps <> [] ->
  notMultiple (Z.of_nat (length ps)) (serviceTeamSize svc) = false ->
  Forall (fun p => exists z, tp_adr p = VNumber z /\ 0 <= z <= 99999) ps ->
  validatePlayers svc ps = Ok tt.
Proof.
  unfold validatePlayers. intros Hne Hmul Hall.
  destruct ps as [|p0 ps']; [done|].
  change ((length (p0 :: ps') =? 0)%nat) with false. cbv iota. rewrite Hmul.
  rewrite (filter_none adrMissing).
  2:{ eapply Forall_impl; [exact Hall|]. intros p (z & Hz & _).
      unfold adrMissing. by rewrite Hz. }
  cbn [length Nat.ltb Nat.leb].
  rewrite (filter_none adrInvalid); [done|].
  eapply Forall_impl; [exact Hall|]. intros p (z & Hz & Hlo & Hhi).
  unfold adrInvalid. rewrite Hz. apply orb_false_iff.
  split; apply Z.ltb_ge; lia.
Qed.


(** ** The iterations granted to a run *)

Lemma Qfloor_div_ge (a : Z) (q : Q) (k : Z) :
  (0 < q)%Q -> (inject_Z k * q <= inject_Z a)%Q -> k <= Qfloor (inject_Z a / q).
Proof.
  intros Hq Hk.
  assert (inject_Z k <= inject_Z a / q)%Q as Hle.
  { apply Qle_shift_div_l; done. }
  apply Qfloor_resp_le in Hle. by rewrite Qfloor_Z in Hle.
Qed.

Lemma Qfloor_div_mul (a : Z) (q : Q) :
  (0 < q)%Q -> (inject_Z (Qfloor (inject_Z a / q)) * q <= inject_Z a)%Q.
Proof.
  intros Hq.
  pose proof (Qfloor_le (inject_Z a / q)) as Hf.
  apply (Qmult_le_compat_r _ _ q) in Hf; [|by apply Qlt_le_weak].
  eapply Qle_trans; [exact Hf|].
  unfold Qdiv. rewrite <- Qmult_assoc, (Qmult_comm (/ q)), Qmult_inv_r.
  - rewrite Qmult_1_r. apply Qle_refl.
  - intros Heq. rewrite Heq in Hq. by apply Qlt_irrefl in Hq.
Qed.



(** ** The identifiers of the generated teams *)

Lemma to_int_not_nil (z : Z) :
  Z.to_int z <> Decimal.Pos Decimal.Nil /\ Z.to_int z <> Decimal.Neg Decimal.Nil.
Proof.
  pose proof (DecimalZ.to_of (Z.to_int z)) as H.
  rewrite DecimalZ.of_to in H.
  split; intros Heq; rewrite Heq in H; discriminate.
Qed.

Lemma string_of_Z_inj (a b : Z) : string_of_Z a = string_of_Z b -> a = b.
Proof.
  unfold string_of_Z. intros H.
  apply DecimalZ.to_int_inj.
  destruct (to_int_not_nil a) as [Ha1 Ha2], (to_int_not_nil b) as [Hb1 Hb2].
  pose proof (NilZero.isi _ Ha1 Ha2) as Ia.
  pose proof (NilZero.isi _ Hb1 Hb2) as Ib.
  rewrite H in Ia. rewrite Ia in Ib. by injection Ib.
Qed.

Lemma generateTeamId_inj (a b : Z) : generateTeamId a = generateTeamId b -> a = b.
Proof.
  unfold generateTeamId. intros H. apply string_of_Z_inj.
  by simplify_eq/=.
Qed.

Lemma imap_ids {A} (f : nat -> A -> GeneratedTeam) (g : nat -> string)
    (l : list A) :
  (forall i x, gt_id (f i x) = g i) ->
  map gt_id (imap f l) = map g (seq 0 (length l)).
Proof.
  revert f g. induction l as [|x l IH]; intros f g Hf; [done|].
  cbn [imap map length seq]. rewrite Hf. f_equal.
  rewrite (IH (f ∘ S) (g ∘ S)) by (intros; apply Hf).
  by rewrite <- seq_shift, map_map.
Qed.

(** X10.  [convertFromTeamgenFormat] names the teams TEAM1, TEAM2, ... in
    the order of the optimizer's teams; no two generated teams have the
    same id. *)
Theorem convertFromTeamgenFormat_ids (teams : list Team) :
  map gt_id (convertFromTeamgenFormat teams)
  = map (fun i => generateTeamId (Z.of_nat i + 1)) (seq 0 (length teams))
  /\ NoDup (map gt_id (convertFromTeamgenFormat teams)).
Proof.
  assert (map gt_id (convertFromTeamgenFormat teams)
          = map (fun i => generateTeamId (Z.of_nat i + 1))
              (seq 0 (length teams))) as Hids.
  { unfold convertFromTeamgenFormat. by apply imap_ids. }
  split; [done|]. rewrite Hids.
  apply NoDup_fmap_2; [|apply NoDup_seq].
  intros i j Hij. apply generateTeamId_inj in Hij. lia.
Qed.

(** ** The result of [generateBalancedTeams] *)

Lemma imap_fmap_indep {A B C} (f : nat -> A -> B) (g : B -> C) (h : A -> C)
    (l : list A) :
  (forall i x, g (f i x) = h x) -> map g (imap f l) = map h l.
Proof.
  revert f. induction l as [|x l IH]; intros f Hf; [done|].
  cbn [imap map]. rewrite Hf. f_equal. apply IH. intros. apply Hf.
Qed.

(** The players of a generated team, converted for the optimizer again, are
    the players that the optimizer returned. *)
Lemma convert_round_trip (ps : list Player) :
  convertToTeamgenFormat (map fromTeamgenPlayer ps) = ps.
Proof.
  unfold convertToTeamgenFormat. rewrite map_map.
  rewrite <- (map_id ps) at 2. apply map_ext. intros [n a].
  unfold fromTeamgenPlayer. cbn [tp_display_name tp_username tp_adr name adr
                                   numberOf].
  by destruct n.
Qed.

Lemma validateRuns_pos (svc : TeamGenerationService) (runs : value Q) (q : Q) :
  (0 < defaultRuns svc)%Q -> validateRuns svc runs = Ok q -> (0 < q)%Q.
Proof.
  intros Hd. unfold validateRuns. destruct runs as [| | |r]; try done.
  - by intros [= <-].
  - destruct (Qltb r 1) eqn:H1; [done|]. destruct (Qltb _ r); [done|].
    intros [= <-]. apply Qltb_ge in H1.
    eapply Qlt_le_trans; [|exact H1]. done.
Qed.

Lemma notMultiple_mod (n teamSize : Z) :
  0 <= n -> 0 < teamSize -> notMultiple n teamSize = false ->
  n mod teamSize = 0.
Proof.
  unfold notMultiple. intros Hn Hts H.
  apply orb_false_iff in H as [_ H]. apply negb_false_iff, Z.eqb_eq in H.
  by rewrite Z.rem_mod_nonneg in H by lia.
Qed.

(** [generateBalancedTeams] from the call of the optimizer on. *)
Lemma generateBalancedTeams_valid random svc executionTime fuel ps runs q st :
  validatePlayers svc ps = Ok tt -> validateRuns svc runs = Ok q ->
  generateBalancedTeams random svc executionTime fuel ps runs st
  = match optimizeTeams random fuel (length (heap st)) (serviceTeamSize svc)
            (maxIterations q) q
            (mkState (heap st ++ [convertToTeamgenFormat ps]) (cursor st)) with
    | (Ok result, st') =>
        (Ok (mkTeamGenerationResult (convertFromTeamgenFormat result.1)
               result.2 q), st')
    | (Throw e, st') =>
        if 20000 <? executionTime then
          (Throw (TeamGenerationError (TimedOut q)), st')
        else (Throw e, st')
    | (OutOfFuel, st') => (OutOfFuel, st')
    end.
Proof.
  intros Hv Hr. unfold generateBalancedTeams, bind, lift, allocArray.
  by rewrite Hv, Hr.
Qed.



(** The ratings handed to the optimizer for players that passed
    [validatePlayers]. *)
Lemma convertToTeamgenFormat_bounded (ps : list TournamentPlayer) :
  Forall (fun p => exists z, tp_adr p = VNumber z /\ 0 <= z <= 99999) ps ->
  Forall (fun p => 0 <= adr p <= 99999) (convertToTeamgenFormat ps).
Proof.
  intros Hall. unfold convertToTeamgenFormat. apply Forall_fmap.
  eapply Forall_impl; [exact Hall|]. intros p (z & Hz & Hr).
  unfold compose. cbn [adr]. by rewrite Hz.
Qed.



(** ** A roster of a single team *)

Lemma maxIterations_pos (q : Q) :
  (0 < q)%Q -> (q <= 10000)%Q -> 0 < maxIterations q.
Proof.
  intros Hpos Hle. unfold maxIterations.
  change (10000 / q)%Q with (inject_Z 10000 / q)%Q.
  assert (1 <= Qfloor (inject_Z 10000 / q)); [|lia].
  apply Qfloor_div_ge; [done|]. by rewrite Qmult_1_l.
Qed.

Lemma rows_converted_valid (svc : TeamGenerationService)
    (rows : list TournamentPlayerRow) :
  rows <> [] ->
  notMultiple (Z.of_nat (length rows)) (serviceTeamSize svc) = false ->
  Forall (fun row => exists z, row_adr row = Some z /\ 0 <= z <= 99999) rows ->
  validatePlayers svc (map toTeamGenPlayer rows) = Ok tt.
Proof.
  intros Hne Hmul Hadr. apply validatePlayers_Ok_intro.
  - by destruct rows.
  - by rewrite length_map.
  - apply Forall_fmap. eapply Forall_impl; [exact Hadr|].
    intros row (z & Hz & Hr). unfold compose, toTeamGenPlayer. cbn [tp_adr].
    rewrite Hz. by exists z.
Qed.

Lemma rows_rated (rows : list TournamentPlayerRow) :
  Forall (fun row => exists z, row_adr row = Some z /\ 0 <= z <= 99999) rows ->
  filter (fun p => row_adr p = None) rows = [].
Proof.
  induction 1 as [|row l (z & Hz & _) Hl IH]; [done|].
  rewrite filter_cons. destruct (decide (row_adr row = None)) as [Hn|_]; [|done].
  by rewrite Hz in Hn.
Qed.

(** X13.  A tournament of exactly five rated players never gets its team:
    the roster passes every validation, the first iteration of the
    optimizer throws a [TypeError], and [generateTeams] reports a failed
    team generation, or a timeout if the clock has run past 20 seconds. *)
Theorem generateTeams_single_team_fails (random : nat -> nat)
    (svc : TeamGenerationService) (executionTime : Z) (fuel : nat)
    (rows : list TournamentPlayerRow) (runs : value Q) (q : Q) (st : state) :
  serviceTeamSize svc = 5 ->
  length rows = 5%nat ->
  Forall (fun row => exists z, row_adr row = Some z /\ 0 <= z <= 99999) rows ->
  validateRuns svc runs = Ok q ->
  (0 < q)%Q -> (q <= 10000)%Q ->
  validatePlayers svc (map toTeamGenPlayer rows) = Ok tt
  /\ exists st',
       generateTeams random svc executionTime (S fuel) rows runs st
       = (Throw (if 20000 <? executionTime
                 then TeamGenerationError (TimedOut q)
                 else TournamentError (TeamGenerationFailed None)), st').
Proof.
  intros Hsvc Hlen Hadr Hr Hpos Hle.
  assert (validatePlayers svc (map toTeamGenPlayer rows) = Ok tt) as Hv.
  { apply rows_converted_valid; [by destruct rows| |done].
    by rewrite Hsvc, Hlen. }
  split; [done|].
  unfold generateTeams. rewrite (rows_rated _ Hadr), Hlen.
  cbn [length Nat.ltb Nat.leb].
  change (negb (Z.rem (Z.of_nat 5) 5 =? 0)) with false. cbv beta iota.
  rewrite (generateBalancedTeams_valid _ _ _ _ _ _ q _ Hv Hr).
  set (roster := convertToTeamgenFormat (map toTeamGenPlayer rows)).
  set (st1 := mkState (heap st ++ [roster]) (cursor st)).
  assert (heap st1 !! length (heap st) = Some roster) as Hl.
  { unfold st1. cbn [heap]. by rewrite lookup_app_r, Nat.sub_diag. }
  assert (length roster = 5%nat) as Hlen'
    by (unfold roster, convertToTeamgenFormat; by rewrite !length_map).
  assert (0 < serviceTeamSize svc) as Hts by lia.
  destruct (optimizeTeams_single random (length (heap st)) (serviceTeamSize svc)
              (maxIterations q) q roster st1 Hl Hts) with (fuel := fuel)
    as [st2 ->].
  - rewrite Hlen', Hsvc. reflexivity.
  - done.
  - rewrite Hlen', Hsvc. reflexivity.
  - by apply maxIterations_pos.
  - exists st2. by destruct (20000 <? executionTime).
Qed.

Lemma generateTeams_single_team_fails_witness :
  validatePlayers defaultService (map toTeamGenPlayer (take 5 distinctRows))
    = Ok tt
  /\ exists st',
       generateTeams exampleRandom defaultService 0 1 (take 5 distinctRows)
         VUndefined emptyState
       = (Throw (if 20000 <? 0
                 then TeamGenerationError (TimedOut 200)
                 else TournamentError (TeamGenerationFailed None)), st').
Proof.
  apply (generateTeams_single_team_fails exampleRandom defaultService 0 0
           (take 5 distinctRows) VUndefined 200 emptyState).
  - reflexivity.
  - reflexivity.
  - repeat constructor; eexists; (split; [reflexivity|lia]).
  - reflexivity.
  - reflexivity.
  - discriminate.
Defined.

(** ** The checks of [generateTeams] *)

Lemma validatePlayers_throws (svc : TeamGenerationService)
    (ps : list TournamentPlayer) (e : exn) :
  validatePlayers svc ps = Throw e -> exists m, e = TeamGenerationError m.
Proof.
  unfold validatePlayers. repeat case_match; try done; intros [= <-]; by eexists.
Qed.

(** X14.  The order of the checks of [generateTeams], none of which
    allocates an array or draws a number: players without a rating are
    reported first, all of them, by username or else by id; then a count
    that is not a multiple of five; then what [validatePlayers] of the
    service rejects, whose error is passed on as it is. *)
Theorem generateTeams_checks (random : nat -> nat)
    (svc : TeamGenerationService) (executionTime : Z) (fuel : nat)
    (rows : list TournamentPlayerRow) (runs : value Q) (st : state) :
  (filter (fun p => row_adr p = None) rows <> [] ->
   generateTeams random svc executionTime fuel rows runs st
   = (Throw (TournamentError
               (MissingAdr (map (fun p => orElse (usernameOf p) (playerId p))
                              (filter (fun p => row_adr p = None) rows)))), st))
  /\ (filter (fun p => row_adr p = None) rows = [] ->
      Z.rem (Z.of_nat (length rows)) 5 <> 0 ->
      generateTeams random svc executionTime fuel rows runs st
      = (Throw (TournamentError (InvalidPlayerCount (Z.of_nat (length rows)))),
         st))
  /\ (forall e,
        filter (fun p => row_adr p = None) rows = [] ->
        Z.rem (Z.of_nat (length rows)) 5 = 0 ->
        validatePlayers svc (map toTeamGenPlayer rows) = Throw e ->
        generateTeams random svc executionTime fuel rows runs st
        = (Throw e, st)).
Proof.
  unfold generateTeams. split; [|split].
  - intros Hne.
    destruct (filter (fun p => row_adr p = None) rows) as [|r l]; done.
  - intros -> Hrem. cbn [length Nat.ltb Nat.leb].
    destruct (Z.eqb_spec (Z.rem (Z.of_nat (length rows)) 5) 0); done.
  - intros e -> Hrem Hv. cbn [length Nat.ltb Nat.leb]. rewrite Hrem.
    cbn [Z.eqb negb].
    rewrite (generateBalancedTeams_invalid _ _ _ _ _ _ _ _ Hv).
    by destruct (validatePlayers_throws _ _ _ Hv) as [m ->].
Qed.

Lemma generateTeams_checks_witness :
  generateTeams exampleRandom defaultService 0 0
    (<[1%nat := mkTournamentPlayerRow "2" None None]> distinctRows)
    VUndefined emptyState
  = (Throw (TournamentError (MissingAdr ["2"])), emptyState)
  /\ generateTeams exampleRandom defaultService 0 0 (take 7 distinctRows)
       VUndefined emptyState
     = (Throw (TournamentError (InvalidPlayerCount 7)), emptyState)
  /\ generateTeams exampleRandom defaultService 0 0 [] VUndefined emptyState
     = (Throw (TeamGenerationError NoPlayersProvided), emptyState).
Proof.
  split; [|split].
  - assert (filter (fun p => row_adr p = None)
              (<[1%nat := mkTournamentPlayerRow "2" None None]> distinctRows)
            <> []) as Hne by (vm_compute; discriminate).
    exact (proj1 (generateTeams_checks exampleRandom defaultService 0 0
                    (<[1%nat := mkTournamentPlayerRow "2" None None]> distinctRows)
                    VUndefined emptyState) Hne).
  - apply (proj1 (proj2 (generateTeams_checks exampleRandom defaultService 0 0
                           (take 7 distinctRows) VUndefined emptyState)));
      [reflexivity|vm_compute; discriminate].
  - apply (proj2 (proj2 (generateTeams_checks exampleRandom defaultService 0 0
                           [] VUndefined emptyState))); reflexivity.
Defined.

(** * [PermissionService] *)

Lemma includes_elem_of (xs : list string) (x : string) :
  includes xs x = true <-> x ∈ xs.
Proof.
  unfold includes. rewrite existsb_exists. split.
  - intros (y & Hy & Heq). apply String.eqb_eq in Heq. subst y.
    by apply list_elem_of_In.
  - intros Hx. exists x. split; [by apply list_elem_of_In|apply String.eqb_refl].
Qed.

(** X15.  [requireAdminPermission] returns exactly for an interaction with a
    member that has one of the configured admin roles, and throws a
    [PermissionError] otherwise: always in a direct message, and always when
    no admin role is configured. *)
Theorem requireAdminPermission_iff (svc : PermissionService)
    (interaction : DiscordInteraction) :
  (requireAdminPermission svc interaction = Normal tt
   <-> exists r m,
         r ∈ adminRoleIds svc /\ member interaction = Some m /\ r ∈ roles m)
  /\ (requireAdminPermission svc interaction <> Normal tt ->
      requireAdminPermission svc interaction = Abrupt InsufficientPermissions).
Proof.
  unfold requireAdminPermission. cbn zeta.
  assert (checkAdminPermission svc interaction = true
          <-> exists r m, r ∈ adminRoleIds svc
                /\ member interaction = Some m /\ r ∈ roles m) as Hiff.
  { unfold checkAdminPermission, extractUserRoles. cbn zeta.
    destruct (adminRoleIds svc) as [|r0 rs] eqn:Hids.
    - cbn [length Nat.eqb]. split; [done|].
      intros (r & m & Hr & _). by apply elem_of_nil in Hr.
    - change ((length (r0 :: rs) =? 0)%nat) with false. cbv iota.
      rewrite existsb_exists. split.
      + intros (r & Hr & Hin). apply includes_elem_of in Hin.
        destruct (member interaction) as [m|]; [|by apply elem_of_nil in Hin].
        exists r, m. split; [by apply list_elem_of_In|done].
      + intros (r & m & Hr & -> & Hm). exists r.
        split; [by apply list_elem_of_In|by apply includes_elem_of]. }
  destruct (checkAdminPermission svc interaction); cbn [negb]; split.
  - split; [intros _; by apply Hiff|done].
  - done.
  - split; [done|]. intros H. by apply Hiff in H.
  - done.
Qed.

(** ** The role ids of the environment *)

Lemma split_not_nil (sep : Ascii.ascii) (s : string) : split sep s <> [].
Proof.
  destruct s as [|c s]; [done|]. cbn [split].
  destruct (Ascii.eqb c sep); [done|]. by destruct (split sep s).
Qed.

Lemma chars_cons (c : Ascii.ascii) (s : string) :
  chars (String c s) = c :: chars s.
Proof. reflexivity. Qed.

(** No piece holds the separator. *)
Lemma split_no_sep (sep : Ascii.ascii) (s : string) :
  Forall (fun part => sep ∉ chars part) (split sep s).
Proof.
  induction s as [|c s IH]; cbn [split].
  - constructor; [|constructor]. apply not_elem_of_nil.
  - destruct (Ascii.eqb_spec c sep) as [->|Hc].
    + constructor; [apply not_elem_of_nil|done].
    + destruct (split sep s) as [|part parts].
      * constructor; [|constructor]. rewrite chars_cons.
        apply not_elem_of_cons. split; [done|apply not_elem_of_nil].
      * apply Forall_cons in IH as [Hp Hps]. constructor; [|done].
        rewrite chars_cons. apply not_elem_of_cons. by split.
Qed.

Lemma trimStart_chars (s : string) (c : Ascii.ascii) :
  c ∈ chars (trimStart s) -> c ∈ chars s.
Proof.
  induction s as [|d s IH]; [done|]. cbn [trimStart].
  destruct (isSpace d); [|done]. intros H. rewrite chars_cons.
  apply elem_of_cons. right. by apply IH.
Qed.

Lemma trimEnd_cons (c : Ascii.ascii) (s : string) :
  trimEnd (String c s)
  = match trimEnd s with
    | EmptyString => if isSpace c then EmptyString else String c EmptyString
    | rest => String c rest
    end.
Proof. reflexivity. Qed.

Lemma trimEnd_chars (s : string) (c : Ascii.ascii) :
  c ∈ chars (trimEnd s) -> c ∈ chars s.
Proof.
  induction s as [|d s IH]; [done|]. rewrite trimEnd_cons, chars_cons.
  destruct (trimEnd s) as [|e rest].
  - destruct (isSpace d); [by intros ?%elem_of_nil|].
    rewrite chars_cons. intros [->|?%elem_of_nil]%elem_of_cons; [|done].
    apply elem_of_cons. by left.
  - rewrite chars_cons. intros [->|H]%elem_of_cons; apply elem_of_cons;
      [by left|right; by apply IH].
Qed.

Lemma trim_chars (s : string) (c : Ascii.ascii) :
  c ∈ chars (trim s) -> c ∈ chars s.
Proof. intros H. by apply trimStart_chars, trimEnd_chars. Qed.

Lemma trimEnd_idem (s : string) : trimEnd (trimEnd s) = trimEnd s.
Proof.
  induction s as [|c s IH]; [done|]. rewrite trimEnd_cons.
  destruct (trimEnd s) as [|e rest] eqn:Hs.
  - destruct (isSpace c) eqn:Hc; [done|]. by rewrite trimEnd_cons, Hc.
  - by rewrite trimEnd_cons, IH.
Qed.

(** What [trimStart] leaves does not start with white space. *)
Lemma trimStart_head (s : string) (c : Ascii.ascii) (r : string) :
  trimStart s = String c r -> isSpace c = false.
Proof.
  induction s as [|d s IH]; [done|]. cbn [trimStart].
  destruct (isSpace d) eqn:Hd; [done|]. by intros [= <- _].
Qed.

(** [trimEnd] keeps the first character of a string that does not start
    with white space. *)
Lemma trimEnd_head (c : Ascii.ascii) (r : string) :
  isSpace c = false -> exists r', trimEnd (String c r) = String c r'.
Proof.
  intros Hc. rewrite trimEnd_cons. destruct (trimEnd r); rewrite ?Hc; by eexists.
Qed.

Lemma trim_idem (s : string) : trim (trim s) = trim s.
Proof.
  unfold trim. destruct (trimStart s) as [|c r] eqn:Hs; [done|].
  pose proof (trimStart_head _ _ _ Hs) as Hc.
  destruct (trimEnd_head c r Hc) as [r' Hr]. rewrite Hr.
  cbn [trimStart]. rewrite Hc, <- Hr. apply trimEnd_idem.
Qed.

Lemma length_pos_not_empty (s : string) :
  (0 < String.length s)%nat <-> s <> EmptyString.
Proof. destruct s; cbn; split; (done || lia). Qed.

(** X16.  Every admin role id that [fromEnvironment] reads from the
    variable is not empty, holds no comma, and has no white space at either
    end. *)
Theorem fromEnvironment_role_ids (s : string) :
  asciiOnly s ->
  Forall roleId (adminRoleIds (fromEnvironment (Some s))).
Proof.
  intros _. unfold fromEnvironment. cbn [adminRoleIds].
  destruct s as [|c s]; [constructor|].
  apply Forall_forall. intros id Hid.
  apply list_elem_of_filter in Hid as [Hlen Hid].
  apply list_elem_of_fmap in Hid as (part & -> & Hpart).
  split; [by apply length_pos_not_empty|]. split; [apply trim_idem|].
  intros Hc. apply trim_chars in Hc.
  pose proof (split_no_sep "," (String c s)) as Hsep.
  rewrite Forall_forall in Hsep. by apply (Hsep part).
Qed.

Lemma fromEnvironment_role_ids_witness :
  Forall roleId (adminRoleIds (fromEnvironment (Some "12, 34 ,,56"))).
Proof.
  apply (fromEnvironment_role_ids "12, 34 ,,56").
  unfold asciiOnly. repeat constructor.
Defined.

Lemma split_single (sep : Ascii.ascii) (s : string) :
  sep ∉ chars s -> split sep s = [s].
Proof.
  induction s as [|c s IH]; [done|]. rewrite chars_cons. cbn [split].
  intros [Hc Hs]%not_elem_of_cons.
  destruct (Ascii.eqb_spec c sep) as [->|_]; [done|]. by rewrite IH.
Qed.

Lemma split_app (sep : Ascii.ascii) (s rest : string) :
  sep ∉ chars s ->
  split sep (s ++ String sep rest) = s :: split sep rest.
Proof.
  induction s as [|c s IH].
  - intros _. change (String.append EmptyString (String sep rest))
      with (String sep rest).
    cbn [split]. by rewrite Ascii.eqb_refl.
  - rewrite chars_cons. intros [Hc Hs]%not_elem_of_cons.
    change (String.append (String c s) (String sep rest))
      with (String c (String.append s (String sep rest))).
    cbn [split]. destruct (Ascii.eqb_spec c sep) as [->|_]; [done|]. by rewrite IH.
Qed.

Lemma split_concat (sep : Ascii.ascii) (ids : list string) :
  ids <> [] -> Forall (fun id => sep ∉ chars id) ids ->
  split sep (String.concat (String sep EmptyString) ids) = ids.
Proof.
  intros Hne Hall. induction Hall as [|id ids Hid Hids IH]; [done|].
  destruct ids as [|id' ids].
  - cbn [String.concat]. by apply split_single.
  - change (String.concat (String sep EmptyString) (id :: id' :: ids))
      with (String.append id
              (String sep (String.concat (String sep EmptyString) (id' :: ids)))).
    rewrite split_app by done. f_equal. by apply IH.
Qed.

(** X17.  [fromEnvironment] reads back role ids joined with commas: for ids
    that are not empty, hold no comma and have no white space at either
    end, the service made of their join has exactly these ids, in order. *)
Theorem fromEnvironment_join (ids : list string) :
  Forall asciiOnly ids -> Forall roleId ids ->
  fromEnvironment (Some (String.concat "," ids)) = mkPermissionService ids.
Proof.
  intros _ Hids. unfold fromEnvironment. f_equal.
  destruct ids as [|id ids]; [done|].
  assert (String.concat "," (id :: ids) <> EmptyString) as Hne.
  { apply Forall_cons in Hids as [(Hid & _) _].
    destruct ids; cbn [String.concat]; [done|]. by destruct id. }
  destruct (String.concat "," (id :: ids)) as [|c s] eqn:Hjoin; [done|].
  rewrite <- Hjoin, split_concat; [|done|].
  2:{ eapply Forall_impl; [exact Hids|]. by intros x (_ & _ & Hx). }
  assert (map trim (id :: ids) = id :: ids) as ->.
  { rewrite <- (map_id (id :: ids)) at 2. apply map_ext_Forall.
    eapply Forall_impl; [exact Hids|]. by intros x (_ & Hx & _). }
  clear Hjoin Hne. induction Hids as [|x xs (Hx & _) _ IH]; [done|].
  rewrite filter_cons. apply length_pos_not_empty in Hx.
  destruct (decide (0 < String.length x)%nat); [|done]. by rewrite IH.
Qed.

Lemma fromEnvironment_join_witness :
  fromEnvironment (Some (String.concat "," ["12"; "34"; "56"]))
  = mkPermissionService ["12"; "34"; "56"].
Proof.
  apply (fromEnvironment_join ["12"; "34"; "56"]).
  - unfold asciiOnly. repeat constructor.
  - repeat constructor; try done;
      (intros Hc; repeat (apply elem_of_cons in Hc as [Hc|Hc]; [done|]);
       by apply elem_of_nil in Hc).
Defined.

(** X18.  Without a usable configuration nobody is an admin: when the
    variable is not set, or holds nothing but commas and white space,
    [requireAdminPermission] throws for every interaction. *)
Theorem no_configuration_no_admin (env : option string)
    (interaction : DiscordInteraction) :
  match env with
  | Some s => asciiOnly s /\ Forall (fun c => c = ","%char \/ isSpace c = true)
                               (chars s)
  | None => True
  end ->
  adminRoleIds (fromEnvironment env) = []
  /\ requireAdminPermission (fromEnvironment env) interaction
     = Abrupt InsufficientPermissions.
Proof.
  intros Henv.
  assert (adminRoleIds (fromEnvironment env) = []) as Hnone.
  { destruct env as [s|]; [|done]. destruct Henv as [_ Hs].
    unfold fromEnvironment. cbn [adminRoleIds].
    destruct s as [|c s]; [done|].
    generalize dependent (String c s). clear c s. intros s Hs.
    assert (Forall (fun part => trim part = EmptyString) (split "," s)) as Hparts.
    { unfold chars in Hs. induction s as [|c s IH]; cbn [split].
      - by constructor.
      - cbn in Hs. apply Forall_cons in Hs as [Hc Hs]. specialize (IH Hs).
        destruct (Ascii.eqb_spec c ",") as [->|Hne]; [by constructor|].
        destruct Hc as [->|Hc]; [done|].
        pose proof (split_not_nil "," s) as Hnil.
        destruct (split "," s) as [|part parts]; [done|].
        apply Forall_cons in IH as [Hp Hps]. constructor; [|done].
        unfold trim in *. cbn [trimStart]. by rewrite Hc. }
    induction Hparts as [|part parts Hp _ IH]; [done|].
    cbn [map]. rewrite filter_cons, Hp. cbn [String.length].
    destruct (decide (0 < 0)%nat); [lia|done]. }
  split; [done|].
  unfold requireAdminPermission, checkAdminPermission. by rewrite Hnone.
Qed.

Lemma no_configuration_no_admin_witness :
  adminRoleIds (fromEnvironment (Some " , ,")) = []
  /\ requireAdminPermission (fromEnvironment (Some " , ,"))
       (mkDiscordInteraction (Some (mkDiscordGuildMember ["12"])))
     = Abrupt InsufficientPermissions.
Proof.
  apply (no_configuration_no_admin (Some " , ,")
           (mkDiscordInteraction (Some (mkDiscordGuildMember ["12"])))).
  split.
  - unfold asciiOnly. repeat constructor.
  - repeat (constructor; [(by left) || (by right)|]). constructor.
Defined.

(** * Match strings *)

(** ** The regular expression *)

Lemma allChars_nil (p : Ascii.ascii -> bool) : allChars p EmptyString.
Proof. constructor. Qed.

Lemma allChars_cons (p : Ascii.ascii -> bool) (c : Ascii.ascii) (s : string) :
  allChars p (String c s) <-> p c = true /\ allChars p s.
Proof.
  unfold allChars. rewrite chars_cons.
  exact (Forall_cons (fun c => p c = true) c (chars s)).
Qed.

Lemma append_nil_l (s : string) : String.append EmptyString s = s.
Proof. reflexivity. Qed.

Lemma append_cons (c : Ascii.ascii) (s t : string) :
  String.append (String c s) t = String c (String.append s t).
Proof. reflexivity. Qed.

(** [span] cuts its argument in two; the first part is in [p], the second
    does not start in [p]. *)
Lemma span_spec (p : Ascii.ascii -> bool) (s : string) :
  s = String.append (span p s).1 (span p s).2
  /\ allChars p (span p s).1
  /\ match (span p s).2 with
     | EmptyString => True
     | String c _ => p c = false
     end.
Proof.
  induction s as [|c s (IH1 & IH2 & IH3)]; [by repeat split; constructor|].
  cbn [span]. destruct (p c) eqn:Hc.
  - destruct (span p s) as [m rest]. cbn [fst snd] in *.
    split; [by rewrite append_cons, <- IH1|].
    split; [by apply allChars_cons|done].
  - cbn [fst snd]. split; [done|]. split; [constructor|done].
Qed.

(** The cut is the only one of its kind. *)
Lemma span_app (p : Ascii.ascii -> bool) (m rest : string) :
  allChars p m ->
  match rest with EmptyString => True | String c _ => p c = false end ->
  span p (String.append m rest) = (m, rest).
Proof.
  intros Hm Hrest. induction m as [|c m IH].
  - rewrite append_nil_l. destruct rest as [|c r]; [done|].
    cbn [span]. by rewrite Hrest.
  - apply allChars_cons in Hm as [Hc Hm]. rewrite append_cons. cbn [span].
    by rewrite Hc, IH.
Qed.

Lemma plus_Some (p : Ascii.ascii -> bool) (s m rest : string) :
  plus p s = Some (m, rest)
  <-> s = String.append m rest /\ m <> EmptyString /\ allChars p m
      /\ match rest with EmptyString => True | String c _ => p c = false end.
Proof.
  unfold plus. split.
  - destruct (span_spec p s) as (H1 & H2 & H3).
    destruct (span p s) as [[|c m'] rest']; [done|].
    intros [= <- <-]. cbn [fst snd] in *. done.
  - intros (-> & Hne & Hm & Hrest). rewrite span_app by done.
    by destruct m.
Qed.

Lemma hyphen_Some (s rest : string) :
  hyphen s = Some rest <-> s = String "-" rest.
Proof.
  unfold hyphen. split; [|by intros ->].
  destruct s as [|c s]; [done|].
  destruct c as [[] [] [] [] [] [] [] []]; try done. by intros [= ->].
Qed.

(** The match of the regular expression, if any, is the decomposition of the
    string into its four groups. *)
Lemma matchGroups_Some (s team1Id score1Str score2Str team2Id : string) :
  matchGroups s = Some (team1Id, score1Str, score2Str, team2Id)
  <-> matchShape s team1Id score1Str score2Str team2Id.
Proof.
  unfold matchGroups, matchShape. split.
  - destruct (plus isUpperOrDigit s) as [[t1 r1]|] eqn:H1; [|done].
    cbn [mbind option_bind].
    destruct (hyphen r1) as [r1'|] eqn:Hh1; [|done]. cbn [mbind option_bind].
    destruct (plus isDigit r1') as [[d1 r2]|] eqn:H2; [|done].
    cbn [mbind option_bind].
    destruct (hyphen r2) as [r2'|] eqn:Hh2; [|done]. cbn [mbind option_bind].
    destruct (plus isDigit r2') as [[d2 r3]|] eqn:H3; [|done].
    cbn [mbind option_bind].
    destruct (hyphen r3) as [r3'|] eqn:Hh3; [|done]. cbn [mbind option_bind].
    destruct (plus isUpperOrDigit r3') as [[t2 r4]|] eqn:H4; [|done].
    cbn [mbind option_bind].
    destruct r4; [|done]. intros [= <- <- <- <-].
    apply plus_Some in H1 as (-> & ? & ? & _).
    apply plus_Some in H2 as (-> & ? & ? & _).
    apply plus_Some in H3 as (-> & ? & ? & _).
    apply plus_Some in H4 as (-> & ? & ? & _).
    apply hyphen_Some in Hh1 as ->. apply hyphen_Some in Hh2 as ->.
    apply hyphen_Some in Hh3 as ->.
    assert (forall t, String.append t EmptyString = t) as Hnil
      by (induction t as [|c t IHt]; [done|]; by rewrite append_cons, IHt).
    rewrite Hnil. done.
  - intros (-> & Hn1 & Ht1 & Hn2 & Hd1 & Hn3 & Hd2 & Hn4 & Ht2).
    assert (forall t, String.append t EmptyString = t) as Hnil
      by (induction t as [|c t IHt]; [done|]; by rewrite append_cons, IHt).
    assert (plus isUpperOrDigit team2Id = Some (team2Id, EmptyString)) as H4.
    { apply plus_Some. by rewrite Hnil. }
    rewrite (proj2 (plus_Some isUpperOrDigit _ team1Id _)) by done.
    cbn [mbind option_bind hyphen].
    rewrite (proj2 (plus_Some isDigit _ score1Str _)) by done.
    cbn [mbind option_bind hyphen].
    rewrite (proj2 (plus_Some isDigit _ score2Str _)) by done.
    cbn [mbind option_bind hyphen]. rewrite H4. done.
Qed.

(** ** The scores *)

(** [parseInt] of a group [(\d+)] is a number, and not a negative one. *)
Lemma parseInt10_digits (digits : string) :
  digits <> EmptyString -> allChars isDigit digits ->
  parseInt10 digits = Some (digitsValue digits) /\ 0 <= digitsValue digits.
Proof.
  intros Hne Hd. split.
  - destruct digits as [|c s]; [done|].
    pose proof Hd as [Hc Hs]%allChars_cons.
    unfold parseInt10.
    assert (trimStart (String c s) = String c s) as ->.
    { cbn [trimStart].
      by destruct c as [[] [] [] [] [] [] [] []]; try discriminate Hc. }
    assert (match String c s with
            | String "-" rest => (-1, rest)
            | String "+" rest => (1, rest)
            | _ => (1, String c s)
            end = (1, String c s)) as ->.
    { by destruct c as [[] [] [] [] [] [] [] []]; try discriminate Hc. }
    rewrite <- (append_nil_l (String c s)) at 1.
    assert (String.append EmptyString (String c s)
            = String.append (String c s) EmptyString) as ->.
    { rewrite append_nil_l.
      assert (forall t, String.append t EmptyString = t) as Hnil
        by (induction t as [|e t IHt]; [done|]; by rewrite append_cons, IHt).
      by rewrite Hnil. }
    rewrite span_app by done. by rewrite Z.mul_1_l.
  - unfold digitsValue. destruct (NilEmpty.uint_of_string digits); [|done].
    unfold Z.of_uint. lia.
Qed.

(** What [parseMatchString] does with a string of the expected form. *)
Lemma parseMatchString_shape (s team1Id score1Str score2Str team2Id : string) :
  matchShape s team1Id score1Str score2Str team2Id ->
  parseMatchString s
  = if String.eqb team1Id team2Id then Abrupt SameTeamMatch
    else Normal (mkParsedMatch team1Id (digitsValue score1Str)
                   (digitsValue score2Str) team2Id).
Proof.
  intros Hshape. unfold parseMatchString.
  rewrite (proj2 (matchGroups_Some _ _ _ _ _) Hshape).
  destruct Hshape as (_ & _ & _ & Hn1 & Hd1 & Hn2 & Hd2 & _).
  destruct (parseInt10_digits _ Hn1 Hd1) as [-> H1].
  destruct (parseInt10_digits _ Hn2 Hd2) as [-> H2].
  destruct (Z.ltb_spec (digitsValue score1Str) 0); [lia|].
  destruct (Z.ltb_spec (digitsValue score2Str) 0); [lia|]. done.
Qed.



(** ** Reading back what was written *)

Lemma string_of_uint_digits (d : Decimal.uint) :
  allChars isDigit (NilEmpty.string_of_uint d).
Proof.
  induction d; cbn [NilEmpty.string_of_uint];
    [constructor|apply allChars_cons; by split..].
Qed.

(** The decimal notation of an integer that is not negative is a string of
    digits, not empty, that denotes the integer. *)
Lemma string_of_Z_digits (n : Z) :
  0 <= n ->
  string_of_Z n <> EmptyString
  /\ allChars isDigit (string_of_Z n)
  /\ digitsValue (string_of_Z n) = n.
Proof.
  intros Hn. destruct n as [|p|p]; [by repeat split; repeat constructor| |lia].
  unfold string_of_Z. cbn [Z.to_int NilZero.string_of_int].
  pose proof (DecimalPos.Unsigned.to_uint_nonnil p) as Hnil.
  assert (NilZero.string_of_uint (Pos.to_uint p)
          = NilEmpty.string_of_uint (Pos.to_uint p)) as ->
    by (unfold NilZero.string_of_uint; by destruct (Pos.to_uint p)).
  split; [by destruct (Pos.to_uint p)|].
  split; [apply string_of_uint_digits|].
  unfold digitsValue. rewrite NilEmpty.usu. unfold Z.of_uint.
  by rewrite DecimalPos.Unsigned.of_to.
Qed.

Lemma matchShape_written (team1Id team2Id : string) (score1 score2 : Z) :
  team1Id <> EmptyString -> allChars isUpperOrDigit team1Id ->
  team2Id <> EmptyString -> allChars isUpperOrDigit team2Id ->
  0 <= score1 -> 0 <= score2 ->
  matchShape
    (String.append team1Id (String "-" (String.append (string_of_Z score1)
       (String "-" (String.append (string_of_Z score2) (String "-" team2Id))))))
    team1Id (string_of_Z score1) (string_of_Z score2) team2Id.
Proof.
  intros Hn1 Ht1 Hn2 Ht2 Hs1 Hs2.
  destruct (string_of_Z_digits score1 Hs1) as (? & ? & _).
  destruct (string_of_Z_digits score2 Hs2) as (? & ? & _).
  by repeat split.
Qed.

(** X20.  [parseMatchString] reads back a match written as
    [team1Id-score1-score2-team2Id]: for two different team ids made of
    capital letters and digits and two scores that are not negative, the
    parsed match has these ids and these scores. *)
Theorem parseMatchString_round_trip (team1Id team2Id : string)
    (score1 score2 : Z) :
  team1Id <> EmptyString -> allChars isUpperOrDigit team1Id ->
  team2Id <> EmptyString -> allChars isUpperOrDigit team2Id ->
  team1Id <> team2Id ->
  0 <= score1 < 2 ^ 53 -> 0 <= score2 < 2 ^ 53 ->
  parseMatchString
    (String.append team1Id (String "-" (String.append (string_of_Z score1)
       (String "-" (String.append (string_of_Z score2) (String "-" team2Id))))))
  = Normal (mkParsedMatch team1Id score1 score2 team2Id).
Proof.
  intros Hn1 Ht1 Hn2 Ht2 Hne [Hs1 _] [Hs2 _].
  rewrite (parseMatchString_shape _ team1Id (string_of_Z score1)
             (string_of_Z score2) team2Id)
    by (by apply matchShape_written).
  destruct (String.eqb_spec team1Id team2Id); [done|].
  destruct (string_of_Z_digits score1 Hs1) as (_ & _ & ->).
  by destruct (string_of_Z_digits score2 Hs2) as (_ & _ & ->).
Qed.

Lemma parseMatchString_round_trip_witness :
  parseMatchString
    (String.append "RED" (String "-" (String.append (string_of_Z 16)
       (String "-" (String.append (string_of_Z 9) (String "-" "BLUE2"))))))
  = Normal (mkParsedMatch "RED" 16 9 "BLUE2").
Proof.
  apply (parseMatchString_round_trip "RED" "BLUE2" 16 9);
    try done; try lia; repeat constructor.
Defined.

Lemma generateTeamId_chars (teamNumber : Z) :
  0 <= teamNumber ->
  generateTeamId teamNumber <> EmptyString
  /\ allChars isUpperOrDigit (generateTeamId teamNumber).
Proof.
  intros Hn. unfold generateTeamId. split; [done|].
  destruct (string_of_Z_digits teamNumber Hn) as (_ & Hd & _).
  change (String.app "TEAM" (string_of_Z teamNumber))
    with (String "T" (String "E" (String "A" (String "M"
            (string_of_Z teamNumber))))).
  repeat (apply allChars_cons; split; [done|]).
  unfold allChars in *. eapply Forall_impl; [exact Hd|].
  intros c Hc. unfold isUpperOrDigit. cbn zeta. rewrite Hc.
  apply orb_true_r.
Qed.

(** X21.  The ids that team generation gives the teams are ids that a match
    string can name: a match between two different generated teams, written
    with their ids, is parsed into these ids and its scores. *)
Theorem generated_ids_parse (i j : nat) (score1 score2 : Z) :
  i <> j ->
  0 <= score1 < 2 ^ 53 -> 0 <= score2 < 2 ^ 53 ->
  parseMatchString
    (String.append (generateTeamId (Z.of_nat i + 1))
       (String "-" (String.append (string_of_Z score1)
          (String "-" (String.append (string_of_Z score2)
             (String "-" (generateTeamId (Z.of_nat j + 1))))))))
  = Normal (mkParsedMatch (generateTeamId (Z.of_nat i + 1)) score1 score2
              (generateTeamId (Z.of_nat j + 1))).
Proof.
  intros Hij [Hs1 _] [Hs2 _].
  destruct (generateTeamId_chars (Z.of_nat i + 1)) as [Hn1 Ht1]; [lia|].
  destruct (generateTeamId_chars (Z.of_nat j + 1)) as [Hn2 Ht2]; [lia|].
  rewrite (parseMatchString_shape _ _ (string_of_Z score1)
             (string_of_Z score2) _)
    by (by apply matchShape_written).
  destruct (String.eqb_spec (generateTeamId (Z.of_nat i + 1))
              (generateTeamId (Z.of_nat j + 1))) as [Heq|_].
  { apply generateTeamId_inj in Heq. lia. }
  destruct (string_of_Z_digits score1 Hs1) as (_ & _ & ->).
  by destruct (string_of_Z_digits score2 Hs2) as (_ & _ & ->).
Qed.

Lemma generated_ids_parse_witness :
  parseMatchString
    (String.append (generateTeamId (Z.of_nat 0 + 1))
       (String "-" (String.append (string_of_Z 16)
          (String "-" (String.append (string_of_Z 9)
             (String "-" (generateTeamId (Z.of_nat 1 + 1))))))))
  = Normal (mkParsedMatch (generateTeamId (Z.of_nat 0 + 1)) 16 9
              (generateTeamId (Z.of_nat 1 + 1))).
Proof.
  apply (generated_ids_parse 0 1 16 9); lia.
Defined.

(** * Tournament ids *)

Lemma split_app_sep (sep : Ascii.ascii) (s rest : string) :
  split sep (String.append s (String sep rest)) = split sep s ++ split sep rest.
Proof.
  induction s as [|c s IH].
  - rewrite append_nil_l. cbn [split]. by rewrite Ascii.eqb_refl.
  - rewrite append_cons. cbn [split]. rewrite IH.
    destruct (Ascii.eqb c sep); [done|].
    pose proof (split_not_nil sep s) as Hs.
    by destruct (split sep s).
Qed.

Lemma digits_no_hyphen (s : string) :
  allChars isDigit s -> ("-" : Ascii.ascii) ∉ chars s.
Proof.
  unfold allChars. intros Hs Hin. rewrite Forall_forall in Hs.
  by specialize (Hs _ Hin).
Qed.

(** The last part of the id of a tournament is its sequence number. *)
Lemma lastPart_tournamentId (date : string) (k : Z) :
  0 <= k -> lastPart (tournamentId date k) = string_of_Z k.
Proof.
  intros Hk. unfold lastPart, tournamentId.
  destruct (string_of_Z_digits k Hk) as (_ & Hd & _).
  rewrite split_app_sep, (split_single "-" (string_of_Z k))
    by (by apply digits_no_hyphen).
  apply last_last.
Qed.

Lemma parseInt10_string_of_Z (k : Z) :
  0 <= k -> parseInt10 (string_of_Z k) = Some k.
Proof.
  intros Hk. destruct (string_of_Z_digits k Hk) as (Hne & Hd & Hv).
  destruct (parseInt10_digits _ Hne Hd) as [-> _]. by rewrite Hv.
Qed.

Lemma sequenceNumbers_tournamentIds (date : string) (ks : list Z) :
  Forall (fun k => 0 <= k) ks ->
  omap (fun id => parseInt10 (lastPart id)) (map (tournamentId date) ks) = ks.
Proof.
  induction 1 as [|k ks Hk _ IH]; [done|].
  cbn [map omap list_omap].
  change (list_omap ?f ?l) with (omap f l).
  by rewrite lastPart_tournamentId, parseInt10_string_of_Z, IH.
Qed.

(** On distinct numbers in ascending order, none below the start, the loop
    stops at the first number that is not in the list. *)
Lemma nextSequenceFrom_least (numbers : list Z) :
  forall start,
    StronglySorted Z.le numbers -> NoDup numbers ->
    Forall (fun k => start <= k) numbers ->
    start <= nextSequenceFrom start numbers
    /\ (nextSequenceFrom start numbers ∉ numbers)
    /\ forall m, start <= m < nextSequenceFrom start numbers -> m ∈ numbers.
Proof.
  induction numbers as [|num rest IH]; intros start Hsorted Hnd Hge.
  - cbn [nextSequenceFrom]. split; [lia|]. split; [apply not_elem_of_nil|].
    intros m Hm. lia.
  - apply StronglySorted_inv in Hsorted as [Hsorted Hall].
    apply NoDup_cons in Hnd as [Hnotin Hnd].
    apply Forall_cons in Hge as [Hnum Hge].
    cbn [nextSequenceFrom]. destruct (Z.eqb_spec num start) as [->|Hne].
    + destruct (IH (start + 1) Hsorted Hnd) as (H1 & H2 & H3).
      { rewrite Forall_forall in Hall |- *. intros k Hk.
        specialize (Hall k Hk).
        assert (k <> start) by (by intros ->). lia. }
      split; [lia|]. split.
      * apply not_elem_of_cons. split; [lia|done].
      * intros m Hm. apply elem_of_cons.
        destruct (decide (m = start)) as [->|?]; [by left|].
        right. apply H3. lia.
    + split; [lia|]. split; [|intros m Hm; lia].
      apply not_elem_of_cons. split; [done|].
      intros Hin. rewrite Forall_forall in Hall. specialize (Hall _ Hin). lia.
Qed.

Lemma append_inj_r (a x y : string) :
  String.append a x = String.append a y -> x = y.
Proof.
  induction a as [|c a IH]; [done|]. rewrite !append_cons.
  intros [= H]. by apply IH.
Qed.

Lemma tournamentId_inj (date : string) (a b : Z) :
  tournamentId date a = tournamentId date b -> a = b.
Proof.
  unfold tournamentId. intros H%append_inj_r. injection H as H.
  by apply string_of_Z_inj.
Qed.

(** X22.  When the tournaments of the date are numbered by distinct
    positive integers, [generateTournamentId] returns the id with the least
    positive sequence number that is not in use; this id is not the id of
    an existing tournament. *)
Theorem generateTournamentId_fresh (date : string) (ks : list Z) :
  NoDup ks ->
  Forall (fun k => 1 <= k < 2 ^ 53) ks ->
  exists n,
    generateTournamentId date (map (tournamentId date) ks)
      = tournamentId date n
    /\ 1 <= n
    /\ (n ∉ ks)
    /\ (forall m, 1 <= m < n -> m ∈ ks)
    /\ (generateTournamentId date (map (tournamentId date) ks)
        ∉ map (tournamentId date) ks).
Proof.
  intros Hnd Hks.
  unfold generateTournamentId, sequenceNumbers.
  rewrite sequenceNumbers_tournamentIds
    by (eapply Forall_impl; [exact Hks|]; intros k Hk; simpl in Hk; lia).
  pose proof (merge_sort_Permutation Z.le ks) as Hperm.
  pose proof (StronglySorted_merge_sort Z.le ks) as Hsorted.
  destruct (nextSequenceFrom_least (merge_sort Z.le ks) 1 Hsorted)
    as (H1 & H2 & H3).
  { by rewrite Hperm. }
  { rewrite Hperm. eapply Forall_impl; [exact Hks|].
    intros k Hk. simpl in Hk. lia. }
  set (n := nextSequenceFrom 1 (merge_sort Z.le ks)) in *.
  exists n. split; [done|]. split; [done|].
  assert (n ∉ ks) as Hn by (by rewrite <- Hperm).
  split; [done|]. split.
  - intros m Hm. rewrite <- Hperm. by apply H3.
  - fold (tournamentId date n). intros Hin.
    apply list_elem_of_fmap in Hin as (k & Heq & Hk).
    apply tournamentId_inj in Heq. by subst k.
Qed.

Lemma generateTournamentId_fresh_witness :
  exists n,
    generateTournamentId "2024-01-15" (map (tournamentId "2024-01-15") [2; 1; 4])
      = tournamentId "2024-01-15" n
    /\ 1 <= n
    /\ (n ∉ [2; 1; 4])
    /\ (forall m, 1 <= m < n -> m ∈ [2; 1; 4])
    /\ (generateTournamentId "2024-01-15"
          (map (tournamentId "2024-01-15") [2; 1; 4])
        ∉ map (tournamentId "2024-01-15") [2; 1; 4]).
Proof.
  apply (generateTournamentId_fresh "2024-01-15" [2; 1; 4]).
  - by apply (bool_decide_unpack _).
  - repeat constructor; lia.
Defined.

(** * Matches *)

(** ** The teams of a match *)

Lemma includes_filtered (db : Database) (tournamentId team1 team2 id : string) :
  id = team1 \/ id = team2 ->
  includes
    (map teamRowId
       (filter (fun t => teamTournamentId t = tournamentId
                         /\ (teamRowId t = team1 \/ teamRowId t = team2))
               (teamsTable db))) id = true
  <-> id ∈ teamIdsOf db tournamentId.
Proof.
  intros Hid. rewrite includes_elem_of. unfold teamIdsOf.
  rewrite !list_elem_of_fmap. split.
  - intros (t & -> & Ht). apply list_elem_of_filter in Ht as [[Htid _] Ht].
    exists t. split; [done|]. by apply list_elem_of_filter.
  - intros (t & -> & Ht). apply list_elem_of_filter in Ht as [Htid Ht].
    exists t. split; [done|]. apply list_elem_of_filter. by repeat split.
Qed.

Lemma validateTeamsExist_filter (db : Database)
    (tournamentId team1 team2 : string) :
  validateTeamsExist db tournamentId team1 team2
  = filter (fun id => id ∉ teamIdsOf db tournamentId) [team1; team2].
Proof.
  unfold validateTeamsExist. cbn zeta.
  pose proof (includes_filtered db tournamentId team1 team2 team1
                (or_introl eq_refl)) as H1.
  pose proof (includes_filtered db tournamentId team1 team2 team2
                (or_intror eq_refl)) as H2.
  rewrite !filter_cons, filter_nil.
  destruct (includes _ team1);
    destruct (includes _ team2);
    destruct (decide (team1 ∉ teamIdsOf db tournamentId)) as [N1|N1];
    destruct (decide (team2 ∉ teamIdsOf db tournamentId)) as [N2|N2];
    try done; exfalso;
    try (apply N1; by apply H1); try (apply N2; by apply H2);
    try (apply N1; intros Hin; by apply H1 in Hin);
    try (apply N2; intros Hin; by apply H2 in Hin).
Qed.

Lemma validateTeamsExist_nil (db : Database)
    (tournamentId team1 team2 : string) :
  validateTeamsExist db tournamentId team1 team2 = []
  <-> team1 ∈ teamIdsOf db tournamentId /\ team2 ∈ teamIdsOf db tournamentId.
Proof.
  rewrite validateTeamsExist_filter, !filter_cons, filter_nil.
  destruct (decide (team1 ∉ teamIdsOf db tournamentId)) as [N1|N1];
    destruct (decide (team2 ∉ teamIdsOf db tournamentId)) as [N2|N2];
    split; try done; try (by intros [? ?]).
  intros _. split; [by apply dec_stable|by apply dec_stable].
Qed.

(** X23.  [validateTeamsExist] returns, in the order of its arguments, those
    of the two ids that are not ids of teams of the tournament; it returns
    no id exactly when both are. *)
Theorem validateTeamsExist_spec (db : Database)
    (tournamentId team1 team2 : string) :
  validateTeamsExist db tournamentId team1 team2
  = filter (fun id => id ∉ teamIdsOf db tournamentId) [team1; team2]
  /\ (validateTeamsExist db tournamentId team1 team2 = []
      <-> team1 ∈ teamIdsOf db tournamentId
          /\ team2 ∈ teamIdsOf db tournamentId).
Proof.
  split; [apply validateTeamsExist_filter|apply validateTeamsExist_nil].
Qed.

(** ** What [recordMatch] writes *)

(** What [parseMatchString] returns has two different ids and scores that
    are not negative. *)
Lemma parseMatchString_Normal (s : string) (parsed : ParsedMatch) :
  parseMatchString s = Normal parsed ->
  pm_team1Id parsed <> pm_team2Id parsed
  /\ 0 <= pm_score1 parsed /\ 0 <= pm_score2 parsed
  /\ exists score1Str score2Str,
       matchShape s (pm_team1Id parsed) score1Str score2Str (pm_team2Id parsed)
       /\ pm_score1 parsed = digitsValue score1Str
       /\ pm_score2 parsed = digitsValue score2Str.
Proof.
  destruct (matchGroups s) as [[[[t1 d1] d2] t2]|] eqn:Hg.
  - apply matchGroups_Some in Hg.
    rewrite (parseMatchString_shape _ _ _ _ _ Hg).
    destruct (String.eqb_spec t1 t2) as [|Hne]; [done|].
    intros [= <-]. cbn [pm_team1Id pm_team2Id pm_score1 pm_score2].
    pose proof Hg as (_ & _ & _ & Hn1 & Hd1 & Hn2 & Hd2 & _).
    destruct (parseInt10_digits _ Hn1 Hd1) as [_ H1].
    destruct (parseInt10_digits _ Hn2 Hd2) as [_ H2].
    repeat split; try done. by exists d1, d2.
  - unfold parseMatchString. by rewrite Hg.
Qed.



(** ** Sums over teams and matches *)

Lemma sumOver_cons {A} (f : A -> Z) (x : A) (l : list A) :
  sumOver f (x :: l) = f x + sumOver f l.
Proof. reflexivity. Qed.

Lemma sumOver_app {A} (f : A -> Z) (l1 l2 : list A) :
  sumOver f (l1 ++ l2) = sumOver f l1 + sumOver f l2.
Proof.
  induction l1 as [|x l1 IH]; [done|].
  cbn [app]. rewrite !sumOver_cons, IH. lia.
Qed.

Lemma sumOver_ext {A} (f g : A -> Z) (l : list A) :
  Forall (fun x => f x = g x) l -> sumOver f l = sumOver g l.
Proof.
  induction 1 as [|x l Hx _ IH]; [done|]. by rewrite !sumOver_cons, Hx, IH.
Qed.

Lemma sumOver_zero {A} (f : A -> Z) (l : list A) :
  Forall (fun x => f x = 0) l -> sumOver f l = 0.
Proof.
  induction 1 as [|x l Hx _ IH]; [done|]. rewrite sumOver_cons. lia.
Qed.

Lemma sumOver_plus {A} (f g : A -> Z) (l : list A) :
  sumOver (fun x => f x + g x) l = sumOver f l + sumOver g l.
Proof.
  induction l as [|x l IH]; [done|]. rewrite !sumOver_cons, IH. lia.
Qed.

Lemma sumOver_map {A B} (f : B -> Z) (g : A -> B) (l : list A) :
  sumOver f (map g l) = sumOver (fun x => f (g x)) l.
Proof.
  induction l as [|x l IH]; [done|]. cbn [map]. by rewrite !sumOver_cons, IH.
Qed.

Lemma sumOver_filter {A} (P : A -> Prop) `{!forall x, Decision (P x)}
    (f : A -> Z) (l : list A) :
  sumOver f (filter P l) = sumOver (fun x => if decide (P x) then f x else 0) l.
Proof.
  induction l as [|x l IH]; [done|].
  rewrite filter_cons, sumOver_cons.
  destruct (decide (P x)); [by rewrite sumOver_cons, IH|by rewrite IH].
Qed.

(** The two sums of a table can be taken in either order. *)
Lemma sumOver_swap {A B} (f : A -> B -> Z) (l1 : list A) (l2 : list B) :
  sumOver (fun a => sumOver (f a) l2) l1
  = sumOver (fun b => sumOver (fun a => f a b) l1) l2.
Proof.
  induction l1 as [|a l1 IH].
  - cbn. symmetry. by apply sumOver_zero, Forall_forall.
  - rewrite sumOver_cons, IH, <- sumOver_plus.
    apply sumOver_ext, Forall_forall. intros b _. by rewrite sumOver_cons.
Qed.

(** The sum over distinct ids of what is zero but at one id of them. *)
Lemma sumOver_one (g : string -> Z) (ids : list string) (a : string) :
  NoDup ids -> a ∈ ids -> (forall t, t <> a -> g t = 0) ->
  sumOver g ids = g a.
Proof.
  intros Hnd Ha Hg. induction Hnd as [|t ids Ht Hnd IH].
  - by apply elem_of_nil in Ha.
  - rewrite sumOver_cons. apply elem_of_cons in Ha as [->|Ha].
    + rewrite sumOver_zero; [lia|]. apply Forall_forall. intros u Hu.
      apply Hg. by intros ->.
    + rewrite IH by done. rewrite Hg; [lia|]. by intros ->.
Qed.

(** The sum over distinct ids of what is zero but at two of them. *)
Lemma sumOver_two (g : string -> Z) (ids : list string) (a b : string) :
  NoDup ids -> a ∈ ids -> b ∈ ids -> a <> b ->
  (forall t, t <> a -> t <> b -> g t = 0) ->
  sumOver g ids = g a + g b.
Proof.
  intros Hnd Ha Hb Hab Hg.
  assert (sumOver g ids
          = sumOver (fun t => if decide (t = a) then g a else 0) ids
            + sumOver (fun t => if decide (t = b) then g b else 0) ids) as ->.
  { rewrite <- sumOver_plus. apply sumOver_ext, Forall_forall. intros t _.
    destruct (decide (t = a)) as [Hta|Hta], (decide (t = b)) as [Htb|Htb].
    - congruence.
    - subst t. lia.
    - subst t. lia.
    - rewrite Hg by done. lia. }
  rewrite (sumOver_one _ ids a), (sumOver_one _ ids b); try done.
  - by destruct (decide (a = a)), (decide (b = b)).
  - intros t Ht. by destruct (decide (t = b)).
  - intros t Ht. by destruct (decide (t = a)).
Qed.

(** ** The statistics of a team *)

(** The counters after the loop are the sums of what each match adds. *)
Lemma tally_fold (teamId : string) (ms : list Match) :
  forall acc,
    fold_left (tallyMatch teamId) ms acc
    = mkTally
        (wins acc + sumOver (fun m => wins (matchTally teamId m)) ms)
        (losses acc + sumOver (fun m => losses (matchTally teamId m)) ms)
        (totalScoreFor acc
         + sumOver (fun m => totalScoreFor (matchTally teamId m)) ms)
        (totalScoreAgainst acc
         + sumOver (fun m => totalScoreAgainst (matchTally teamId m)) ms).
Proof.
  induction ms as [|m ms IH]; intros acc.
  - destruct acc as [w l f a]. unfold sumOver.
    cbn [fold_left fold_right wins losses totalScoreFor totalScoreAgainst].
    f_equal; lia.
  - cbn [fold_left]. rewrite IH, !sumOver_cons.
    unfold matchTally, tallyMatch.
    destruct (String.eqb (team1Id m) teamId);
      cbn [wins losses totalScoreFor totalScoreAgainst];
      repeat case_match; f_equal; lia.
Qed.

Lemma teamMatches_filter (db : Database) (tournamentId teamId : string) :
  teamMatches db tournamentId teamId
  = filter (involves teamId) (getMatches db tournamentId).
Proof.
  unfold teamMatches, getMatches, involves. rewrite list_filter_filter.
  apply list_filter_iff. intros m. tauto.
Qed.

(** One column of the statistics of a team, as a sum over all matches of the
    tournament. *)
Lemma column_sum (db : Database) (tournamentId teamId : string)
    (column : Tally -> Z) :
  column (mkTally 0 0 0 0) = 0 ->
  (forall a b c d a' b' c' d',
     column (mkTally (a + a') (b + b') (c + c') (d + d'))
     = column (mkTally a b c d) + column (mkTally a' b' c' d')) ->
  column (tally (getTeamStats db tournamentId teamId))
  = sumOver (fun m => if decide (involves teamId m)
                      then column (matchTally teamId m) else 0)
      (getMatches db tournamentId).
Proof.
  intros Hzero Hadd. unfold getTeamStats. cbn [tally].
  rewrite tally_fold, teamMatches_filter. cbn [wins losses totalScoreFor
                                                   totalScoreAgainst].
  rewrite <- sumOver_filter.
  induction (filter (involves teamId) (getMatches db tournamentId))
    as [|m ms IH]; [by cbn|].
  rewrite !sumOver_cons, <- IH.
  rewrite !Hadd, Hzero. destruct (matchTally teamId m). cbn. lia.
Qed.

(** ** The statistics of all teams *)

Section Balance.

Variables (db : Database) (tournamentId : string).
Hypothesis Hkey : NoDup (teamIdsOf db tournamentId).
Hypothesis Hsound : matchesSound db tournamentId.

(** Summed over the teams, what the matches add to the teams they involve is
    what each match adds to its two teams. *)
Lemma teams_sum (h : string -> Match -> Z) :
  sumOver (fun t =>
             sumOver (fun m => if decide (involves t m) then h t m else 0)
               (getMatches db tournamentId))
    (teamIdsOf db tournamentId)
  = sumOver (fun m => h (team1Id m) m + h (team2Id m) m)
      (getMatches db tournamentId).
Proof using Hkey Hsound.
  rewrite sumOver_swap. apply sumOver_ext.
  eapply Forall_impl; [exact Hsound|]. intros m (Hne & H1 & H2).
  cbn beta.
  rewrite (sumOver_two
             (fun t => if decide (involves t m) then h t m else 0)
             _ (team1Id m) (team2Id m)) by
    (try done; intros t Ht1 Ht2; destruct (decide (involves t m)) as [[?|?]|?];
     congruence).
  unfold involves.
  destruct (decide (team1Id m = team1Id m \/ team2Id m = team1Id m))
    as [_|Hn]; [|exfalso; apply Hn; by left].
  destruct (decide (team1Id m = team2Id m \/ team2Id m = team2Id m))
    as [_|Hn]; [|exfalso; apply Hn; by right].
  done.
Qed.

Lemma column_teams_sum (column : Tally -> Z) :
  column (mkTally 0 0 0 0) = 0 ->
  (forall a b c d a' b' c' d',
     column (mkTally (a + a') (b + b') (c + c') (d + d'))
     = column (mkTally a b c d) + column (mkTally a' b' c' d')) ->
  sumOver (fun t => column (tally (getTeamStats db tournamentId t)))
    (teamIdsOf db tournamentId)
  = sumOver (fun m => column (matchTally (team1Id m) m)
                      + column (matchTally (team2Id m) m))
      (getMatches db tournamentId).
Proof using Hkey Hsound.
  intros Hzero Hadd.
  rewrite <- (teams_sum (fun t m => column (matchTally t m))).
  apply sumOver_ext, Forall_forall. intros t _. by apply column_sum.
Qed.

(** What a match adds to its two teams. *)
Lemma matchTally_team1 (m : Match) :
  matchTally (team1Id m) m
  = mkTally (if score2 m <? score1 m then 1 else 0)
            (if score2 m <? score1 m then 0
             else if score1 m <? score2 m then 1 else 0)
            (score1 m) (score2 m).
Proof.
  unfold matchTally, tallyMatch. rewrite String.eqb_refl.
  cbn [wins losses totalScoreFor totalScoreAgainst].
  by repeat case_match.
Qed.

Lemma matchTally_team2 (m : Match) :
  team1Id m <> team2Id m ->
  matchTally (team2Id m) m
  = mkTally (if score1 m <? score2 m then 1 else 0)
            (if score1 m <? score2 m then 0
             else if score2 m <? score1 m then 1 else 0)
            (score2 m) (score1 m).
Proof.
  intros Hne. unfold matchTally, tallyMatch.
  destruct (String.eqb_spec (team1Id m) (team2Id m)); [done|].
  cbn [wins losses totalScoreFor totalScoreAgainst].
  by repeat case_match.
Qed.

Lemma goalDifference_balance :
  sumOver (fun t =>
             totalScoreFor (tally (getTeamStats db tournamentId t))
             - totalScoreAgainst (tally (getTeamStats db tournamentId t)))
    (teamIdsOf db tournamentId) = 0.
Proof using Hkey Hsound.
  rewrite (column_teams_sum
             (fun t => totalScoreFor t - totalScoreAgainst t));
    [|done|intros; cbn; lia].
  apply sumOver_zero. eapply Forall_impl; [exact Hsound|].
  intros m (Hne & _). cbn beta.
  rewrite matchTally_team1, matchTally_team2 by done. cbn. lia.
Qed.

Lemma wins_losses_balance :
  sumOver (fun t => wins (tally (getTeamStats db tournamentId t)))
    (teamIdsOf db tournamentId)
  = sumOver (fun t => losses (tally (getTeamStats db tournamentId t)))
      (teamIdsOf db tournamentId).
Proof using Hkey Hsound.
  assert (sumOver (fun t =>
                     wins (tally (getTeamStats db tournamentId t))
                     - losses (tally (getTeamStats db tournamentId t)))
            (teamIdsOf db tournamentId) = 0) as Hdiff.
  { rewrite (column_teams_sum (fun t => wins t - losses t));
      [|done|intros; cbn; lia].
    apply sumOver_zero. eapply Forall_impl; [exact Hsound|].
    intros m (Hne & _). cbn beta.
    rewrite matchTally_team1, matchTally_team2 by done. cbn.
    repeat case_match; lia. }
  pose proof (sumOver_plus
                (fun t => wins (tally (getTeamStats db tournamentId t))
                          - losses (tally (getTeamStats db tournamentId t)))
                (fun t => losses (tally (getTeamStats db tournamentId t)))
                (teamIdsOf db tournamentId)) as Hplus.
  rewrite Hdiff in Hplus.
  transitivity
    (sumOver (fun t =>
                wins (tally (getTeamStats db tournamentId t))
                - losses (tally (getTeamStats db tournamentId t))
                + losses (tally (getTeamStats db tournamentId t)))
       (teamIdsOf db tournamentId)); [|lia].
  apply sumOver_ext, Forall_forall. intros t _. lia.
Qed.

Lemma length_sumOver {A} (l : list A) :
  Z.of_nat (length l) = sumOver (fun _ => 1) l.
Proof.
  induction l as [|x l IH]; [done|]. rewrite sumOver_cons. cbn [length]. lia.
Qed.

Lemma totalMatches_balance :
  sumOver (fun t => totalMatches (getTeamStats db tournamentId t))
    (teamIdsOf db tournamentId)
  = 2 * Z.of_nat (length (getMatches db tournamentId)).
Proof using Hkey Hsound.
  assert (forall t, totalMatches (getTeamStats db tournamentId t)
                    = sumOver (fun m => if decide (involves t m) then 1 else 0)
                        (getMatches db tournamentId)) as Hcount.
  { intros t. unfold getTeamStats. cbn [totalMatches].
    by rewrite teamMatches_filter, length_sumOver, sumOver_filter. }
  rewrite (sumOver_ext _ _ _ (proj2 (Forall_forall _ _)
                                 (fun t _ => Hcount t))).
  rewrite (teams_sum (fun _ _ => 1)), length_sumOver. clear Hcount.
  induction (getMatches db tournamentId) as [|m ms IH]; [done|].
  rewrite !sumOver_cons, IH. lia.
Qed.

End Balance.

(** The wins and the losses of a team are counted among its matches. *)
Lemma wins_losses_bound (db : Database) (tournamentId teamId : string) :
  0 <= wins (tally (getTeamStats db tournamentId teamId))
  /\ 0 <= losses (tally (getTeamStats db tournamentId teamId))
  /\ wins (tally (getTeamStats db tournamentId teamId))
     + losses (tally (getTeamStats db tournamentId teamId))
     <= totalMatches (getTeamStats db tournamentId teamId).
Proof.
  unfold getTeamStats. cbn [tally totalMatches]. rewrite tally_fold.
  cbn [wins losses]. rewrite length_sumOver.
  induction (teamMatches db tournamentId teamId) as [|m ms IH]; [cbn; lia|].
  rewrite !sumOver_cons.
  assert (0 <= wins (matchTally teamId m)
          /\ 0 <= losses (matchTally teamId m)
          /\ wins (matchTally teamId m) + losses (matchTally teamId m) <= 1)
    as Hm.
  { unfold matchTally, tallyMatch. destruct (String.eqb (team1Id m) teamId);
      cbn [wins losses]; repeat case_match; lia. }
  lia.
Qed.

Lemma summary_rows (db : Database) (tournamentId : string)
    (column : TeamSummary -> Z) (f : string -> Z) :
  (forall t, column
               (mkTeamSummary t
                  (wins (tally (getTeamStats db tournamentId t)))
                  (losses (tally (getTeamStats db tournamentId t)))
                  (totalMatches (getTeamStats db tournamentId t))
                  (totalScoreFor (tally (getTeamStats db tournamentId t))
                   - totalScoreAgainst (tally (getTeamStats db tournamentId t))))
             = f t) ->
  sumOver column (teamStats (getTournamentSummary db tournamentId))
  = sumOver f (teamIdsOf db tournamentId).
Proof.
  intros Hcol. unfold getTournamentSummary, teamIdsOf. cbn [teamStats].
  rewrite !sumOver_map. apply sumOver_ext, Forall_forall. intros team _.
  cbn zeta. apply Hcol.
Qed.



(** ** The matches that [recordMatch] has written *)

Lemma teamIdsOf_teams (db db' : Database) (tournamentId : string) :
  teamsTable db' = teamsTable db ->
  teamIdsOf db' tournamentId = teamIdsOf db tournamentId.
Proof. unfold teamIdsOf. by intros ->. Qed.

(** A call of [recordMatch] keeps the matches of the tournament sound, and
    adds one match at most. *)
Lemma recordMatch_sound (tournamentId matchString : string) (db : Database) :
  matchesSound db tournamentId ->
  teamsTable (recordMatch tournamentId matchString db).2 = teamsTable db
  /\ matchesSound (recordMatch tournamentId matchString db).2 tournamentId
  /\ (length (getMatches (recordMatch tournamentId matchString db).2
                tournamentId)
      <= S (length (getMatches db tournamentId)))%nat.
Proof.
  intros Hsound. unfold recordMatch.
  destruct (parseMatchString matchString) as [parsed|e] eqn:Hp;
    [|cbn [snd]; split; [done|split; [done|lia]]].
  destruct (validateTeamsExist db tournamentId _ _) as [|id ids] eqn:Hv;
    [|cbn [snd]; split; [done|split; [done|lia]]].
  cbn [snd teamsTable]. split; [done|].
  apply validateTeamsExist_nil in Hv as [H1 H2].
  destruct (parseMatchString_Normal _ _ Hp) as (Hne & _).
  assert (getMatches
            (mkDatabase (teamsTable db)
               (matchesTable db
                ++ [mkMatch tournamentId (pm_team1Id parsed)
                      (pm_team2Id parsed) (pm_score1 parsed)
                      (pm_score2 parsed)])) tournamentId
          = getMatches db tournamentId
            ++ [mkMatch tournamentId (pm_team1Id parsed) (pm_team2Id parsed)
                  (pm_score1 parsed) (pm_score2 parsed)]) as Hms.
  { unfold getMatches. cbn [matchesTable]. rewrite filter_app, filter_cons.
    cbn [matchTournamentId].
    by destruct (decide (tournamentId = tournamentId)). }
  split.
  - unfold matchesSound. rewrite Hms. apply Forall_app. split; [done|].
    constructor; [|constructor]. done.
  - rewrite Hms, length_app. cbn [length]. lia.
Qed.



(** * Team assignments *)

Lemma filter_length_le_1 {A} (f : A -> string) (p : string) (l : list A) :
  NoDup (map f l) -> (length (filter (fun x => f x = p) l) <= 1)%nat.
Proof.
  induction l as [|x l IH]; [cbn; lia|].
  cbn [map]. intros [Hx Hnd]%NoDup_cons. rewrite filter_cons.
  destruct (decide (f x = p)) as [Hp|_]; [|by apply IH].
  assert (filter (fun y => f y = p) l = []) as ->; [|cbn; lia].
  destruct (filter (fun y => f y = p) l) as [|y l'] eqn:Hf; [done|].
  exfalso. apply Hx.
  assert (y ∈ filter (fun y => f y = p) l) as Hy
    by (rewrite Hf; apply list_elem_of_here).
  apply list_elem_of_filter in Hy as [Hfy Hy].
  apply list_elem_of_fmap. exists y. split; [congruence|done].
Qed.

Lemma playerRows_filter (teamPlayers : list TeamPlayerRow)
    (tournamentId playerId : string) :
  playerRows teamPlayers tournamentId playerId
  = filter (fun r => rowPlayerId r = playerId)
      (filter (fun r => rowTournamentId r = tournamentId) teamPlayers).
Proof.
  unfold playerRows. rewrite list_filter_filter.
  apply list_filter_iff. intros r. tauto.
Qed.

(** A player that is assigned once has one row. *)
Lemma playerRows_unique (teamPlayers : list TeamPlayerRow)
    (tournamentId playerId : string) (r : TeamPlayerRow) :
  assignedOnce teamPlayers tournamentId ->
  getPlayerTeam teamPlayers tournamentId playerId = Some r ->
  playerRows teamPlayers tournamentId playerId = [r].
Proof.
  unfold assignedOnce, getPlayerTeam. intros Hnd Hhead.
  pose proof (filter_length_le_1 rowPlayerId playerId _ Hnd) as Hlen.
  rewrite <- playerRows_filter in Hlen.
  destruct (playerRows teamPlayers tournamentId playerId) as [|r' [|r'' l]];
    cbn in *; [done|by injection Hhead as ->|lia].
Qed.

Lemma getPlayerTeam_Some (teamPlayers : list TeamPlayerRow)
    (tournamentId playerId : string) (r : TeamPlayerRow) :
  getPlayerTeam teamPlayers tournamentId playerId = Some r ->
  r ∈ teamPlayers /\ rowTournamentId r = tournamentId
  /\ rowPlayerId r = playerId.
Proof.
  unfold getPlayerTeam, playerRows. intros Hhead.
  assert (r ∈ filter (fun r => rowTournamentId r = tournamentId
                               /\ rowPlayerId r = playerId) teamPlayers) as Hin.
  { destruct (filter _ teamPlayers) as [|r' l]; [done|].
    injection Hhead as ->. apply list_elem_of_here. }
  apply list_elem_of_filter in Hin as [[? ?] ?]. done.
Qed.

Section Exchange.

Variables (tournamentId player1Id player2Id : string).
Variables (team1 team2 : string).
Hypothesis Hplayers : player1Id <> player2Id.

Local Abbreviation moved :=
  (movedRow tournamentId player1Id player2Id team1 team2).

(** The two updates of [exchangePlayers], as one pass over the table. *)
Lemma updates_map (teamPlayers : list TeamPlayerRow) :
  setTeamId tournamentId player2Id team1
    (setTeamId tournamentId player1Id team2 teamPlayers)
  = map moved teamPlayers.
Proof using Hplayers.
  unfold setTeamId. rewrite map_map. apply map_ext. intros r.
  unfold movedRow.
  destruct (decide (rowTournamentId r = tournamentId
                    /\ rowPlayerId r = player1Id)) as [[Ht Hp]|Hn1].
  - cbn [rowTournamentId rowPlayerId].
    destruct (decide (_ /\ _)) as [[_ Hp2]|_]; [congruence|done].
  - done.
Qed.

Lemma moved_player (r : TeamPlayerRow) : rowPlayerId (moved r) = rowPlayerId r.
Proof. unfold movedRow. by repeat case_decide. Qed.

Lemma moved_tournament (r : TeamPlayerRow) :
  rowTournamentId (moved r) = rowTournamentId r.
Proof. unfold movedRow. by repeat case_decide. Qed.

Lemma moved_playerRows (teamPlayers : list TeamPlayerRow) (playerId : string) :
  playerRows (map moved teamPlayers) tournamentId playerId
  = map moved (playerRows teamPlayers tournamentId playerId).
Proof.
  unfold playerRows. induction teamPlayers as [|r l IH]; [done|].
  cbn [map]. rewrite !filter_cons, moved_player, moved_tournament.
  destruct (decide (_ /\ _)); cbn [map]; by rewrite IH.
Qed.

Variable teamPlayers : list TeamPlayerRow.
Variables (r1 r2 : TeamPlayerRow).
Hypothesis Hrows1 : playerRows teamPlayers tournamentId player1Id = [r1].
Hypothesis Hrows2 : playerRows teamPlayers tournamentId player2Id = [r2].
Hypothesis Hteam1 : rowTeamId r1 = team1.
Hypothesis Hteam2 : rowTeamId r2 = team2.

(** Every team has as many players after the two updates as before. *)
Lemma moved_teamRows (teamId : string) :
  length (teamRows (map moved teamPlayers) tournamentId teamId)
  = length (teamRows teamPlayers tournamentId teamId).
Proof using Hplayers Hrows1 Hrows2 Hteam1 Hteam2.
  apply Nat2Z.inj. unfold teamRows.
  rewrite !length_sumOver, !sumOver_filter, sumOver_map.
  set (d1 := fun r : TeamPlayerRow =>
               (if decide (team2 = teamId) then 1 else 0)
               - (if decide (rowTeamId r = teamId) then 1 else 0)).
  set (d2 := fun r : TeamPlayerRow =>
               (if decide (team1 = teamId) then 1 else 0)
               - (if decide (rowTeamId r = teamId) then 1 else 0)).
  transitivity
    (sumOver (fun r =>
                ((if decide (rowTournamentId r = tournamentId
                             /\ rowTeamId r = teamId) then 1 else 0)
                 + (if decide (rowTournamentId r = tournamentId
                               /\ rowPlayerId r = player1Id)
                    then d1 r else 0))
                + (if decide (rowTournamentId r = tournamentId
                              /\ rowPlayerId r = player2Id)
                   then d2 r else 0))
       teamPlayers).
  - apply sumOver_ext, Forall_forall. intros r _. unfold d1, d2, movedRow.
    destruct (decide (rowTournamentId r = tournamentId
                      /\ rowPlayerId r = player1Id)) as [[Ht Hp]|Hn1].
    + cbn [rowTournamentId rowTeamId].
      destruct (decide (rowTournamentId r = tournamentId
                        /\ rowPlayerId r = player2Id)) as [[_ Hp2]|_];
        [congruence|].
      repeat case_decide; try lia; try tauto.
    + destruct (decide (rowTournamentId r = tournamentId
                        /\ rowPlayerId r = player2Id)) as [[Ht Hp]|Hn2].
      * cbn [rowTournamentId rowTeamId].
        repeat case_decide; try lia; try tauto.
      * lia.
  - rewrite !sumOver_plus, <- !sumOver_filter.
    fold (playerRows teamPlayers tournamentId player1Id).
    fold (playerRows teamPlayers tournamentId player2Id).
    rewrite Hrows1, Hrows2. unfold d1, d2, sumOver. cbn [fold_right].
    rewrite Hteam1, Hteam2.
    repeat case_decide; lia.
Qed.

End Exchange.

(** X27.  [exchangePlayers] of the repository, on a table in which no
    player of the tournament is assigned twice: when it returns, the two
    players were on two different teams and each is now on the team of the
    other; the table has the same players of the same tournaments, row by
    row; every team has as many players as before; and still no player is
    assigned twice. *)
Theorem exchangePlayers_spec (tournamentId player1Id player2Id : string)
    (teamPlayers teamPlayers' : list TeamPlayerRow) :
  assignedOnce teamPlayers tournamentId ->
  exchangePlayers tournamentId player1Id player2Id teamPlayers
    = Normal teamPlayers' ->
  exists team1 team2,
    team1 <> team2
    /\ getPlayerTeam teamPlayers tournamentId player1Id
       = Some (mkTeamPlayerRow team1 tournamentId player1Id)
    /\ getPlayerTeam teamPlayers tournamentId player2Id
       = Some (mkTeamPlayerRow team2 tournamentId player2Id)
    /\ getPlayerTeam teamPlayers' tournamentId player1Id
       = Some (mkTeamPlayerRow team2 tournamentId player1Id)
    /\ getPlayerTeam teamPlayers' tournamentId player2Id
       = Some (mkTeamPlayerRow team1 tournamentId player2Id)
    /\ map rowPlayerId teamPlayers' = map rowPlayerId teamPlayers
    /\ map rowTournamentId teamPlayers' = map rowTournamentId teamPlayers
    /\ (forall teamId,
          length (teamRows teamPlayers' tournamentId teamId)
          = length (teamRows teamPlayers tournamentId teamId))
    /\ assignedOnce teamPlayers' tournamentId.
Proof.
  intros Honce. unfold exchangePlayers.
  destruct (getPlayerTeam teamPlayers tournamentId player1Id) as [r1|] eqn:H1;
    [|done].
  destruct (getPlayerTeam teamPlayers tournamentId player2Id) as [r2|] eqn:H2;
    [|done].
  destruct (String.eqb_spec (rowTeamId r1) (rowTeamId r2)) as [|Hteams];
    [done|].
  intros [= <-].
  destruct (getPlayerTeam_Some _ _ _ _ H1) as (_ & Ht1 & Hp1).
  destruct (getPlayerTeam_Some _ _ _ _ H2) as (_ & Ht2 & Hp2).
  assert (player1Id <> player2Id) as Hplayers.
  { intros Heq. rewrite Heq, H2 in H1. by injection H1 as ->. }
  pose proof (playerRows_unique _ _ _ _ Honce H1) as Hrows1.
  pose proof (playerRows_unique _ _ _ _ Honce H2) as Hrows2.
  rewrite (updates_map _ _ _ _ _ Hplayers).
  exists (rowTeamId r1), (rowTeamId r2).
  split; [done|].
  split; [by destruct r1; simplify_eq/=|].
  split; [by destruct r2; simplify_eq/=|].
  split.
  { unfold getPlayerTeam. rewrite moved_playerRows, Hrows1. cbn [map head].
    unfold movedRow. rewrite decide_True by done. by rewrite Ht1, Hp1. }
  split.
  { unfold getPlayerTeam. rewrite moved_playerRows, Hrows2. cbn [map head].
    unfold movedRow.
    rewrite decide_False by (intros [_ ?]; congruence).
    rewrite decide_True by done. by rewrite Ht2, Hp2. }
  split.
  { rewrite map_map. apply map_ext. intros r. apply moved_player. }
  split.
  { rewrite map_map. apply map_ext. intros r. apply moved_tournament. }
  split.
  { intros teamId.
    by apply (moved_teamRows tournamentId player1Id player2Id _ _ Hplayers
                teamPlayers r1 r2). }
  unfold assignedOnce in *.
  assert (forall l,
            map rowPlayerId
              (filter (fun r => rowTournamentId r = tournamentId)
                 (map (movedRow tournamentId player1Id player2Id
                         (rowTeamId r1) (rowTeamId r2)) l))
            = map rowPlayerId
                (filter (fun r => rowTournamentId r = tournamentId) l)) as Hsame.
  { induction l as [|r l IH]; [done|]. cbn [map].
    rewrite !filter_cons, moved_tournament.
    destruct (decide (rowTournamentId r = tournamentId)); cbn [map];
      by rewrite ?moved_player, IH. }
  by rewrite Hsame.
Qed.

Lemma exchangePlayers_spec_witness :
  exists teamPlayers' team1 team2,
    exchangePlayers "2024-01-15-1" "1" "4" exampleAssignments
      = Normal teamPlayers'
    /\ team1 <> team2
    /\ getPlayerTeam exampleAssignments "2024-01-15-1" "1"
       = Some (mkTeamPlayerRow team1 "2024-01-15-1" "1")
    /\ getPlayerTeam exampleAssignments "2024-01-15-1" "4"
       = Some (mkTeamPlayerRow team2 "2024-01-15-1" "4")
    /\ getPlayerTeam teamPlayers' "2024-01-15-1" "1"
       = Some (mkTeamPlayerRow team2 "2024-01-15-1" "1")
    /\ getPlayerTeam teamPlayers' "2024-01-15-1" "4"
       = Some (mkTeamPlayerRow team1 "2024-01-15-1" "4")
    /\ map rowPlayerId teamPlayers' = map rowPlayerId exampleAssignments
    /\ map rowTournamentId teamPlayers'
       = map rowTournamentId exampleAssignments
    /\ (forall teamId,
          length (teamRows teamPlayers' "2024-01-15-1" teamId)
          = length (teamRows exampleAssignments "2024-01-15-1" teamId))
    /\ assignedOnce teamPlayers' "2024-01-15-1".
Proof.
  eexists.
  assert (assignedOnce exampleAssignments "2024-01-15-1") as Honce
    by (unfold assignedOnce; by apply (bool_decide_unpack _)).
  destruct (exchangePlayers_spec "2024-01-15-1" "1" "4" exampleAssignments _
              Honce eq_refl) as (team1 & team2 & H).
  exists team1, team2. split; [reflexivity|exact H].
Defined.

(** X28.  [addPlayerToTeam] of the repository returns only for a team of
    the tournament that has fewer than five players and a player that has
    no team in the tournament; it then adds the one row that puts the
    player on the team.  No player is assigned twice afterwards if none was
    before, and no team has more than five players if none had. *)
Theorem addPlayerToTeam_spec (teams : list TeamRow)
    (tournamentId playerId teamId : string)
    (teamPlayers teamPlayers' : list TeamPlayerRow) :
  addPlayerToTeam teams tournamentId playerId teamId teamPlayers
    = Normal teamPlayers' ->
  assignedOnce teamPlayers tournamentId ->
  withinCapacity teamPlayers tournamentId ->
  teamId ∈ map teamRowId
             (filter (fun t => teamTournamentId t = tournamentId) teams)
  /\ (length (teamRows teamPlayers tournamentId teamId) < 5)%nat
  /\ getPlayerTeam teamPlayers tournamentId playerId = None
  /\ teamPlayers'
     = teamPlayers ++ [mkTeamPlayerRow teamId tournamentId playerId]
  /\ getPlayerTeam teamPlayers' tournamentId playerId
     = Some (mkTeamPlayerRow teamId tournamentId playerId)
  /\ assignedOnce teamPlayers' tournamentId
  /\ withinCapacity teamPlayers' tournamentId.
Proof.
  unfold addPlayerToTeam. cbn zeta.
  destruct (filter (fun t => teamTournamentId t = tournamentId
                             /\ teamRowId t = teamId) teams)
    as [|t ts] eqn:Hteam; [done|].
  cbn [take length Nat.eqb].
  destruct (Nat.leb_spec 5 (length (teamRows teamPlayers tournamentId teamId)))
    as [|Hsize]; [done|].
  destruct (playerRows teamPlayers tournamentId playerId) as [|r rs] eqn:Hrows;
    [|done].
  cbn [take]. intros [= <-] Honce Hcap.
  split.
  { assert (t ∈ filter (fun t => teamTournamentId t = tournamentId
                                 /\ teamRowId t = teamId) teams) as Ht
      by (rewrite Hteam; apply list_elem_of_here).
    apply list_elem_of_filter in Ht as [[Htid <-] Ht].
    apply list_elem_of_fmap. exists t. split; [done|].
    by apply list_elem_of_filter. }
  split; [done|].
  split; [unfold getPlayerTeam; by rewrite Hrows|].
  split; [done|].
  split.
  { unfold getPlayerTeam, playerRows in *.
    rewrite filter_app, Hrows, filter_cons. cbn [rowTournamentId rowPlayerId].
    by rewrite decide_True. }
  split.
  { unfold assignedOnce in *. rewrite filter_app, filter_cons.
    cbn [rowTournamentId]. rewrite decide_True by done.
    rewrite filter_nil, map_app. cbn [map rowPlayerId].
    apply NoDup_app. split; [done|]. split; [|apply NoDup_singleton].
    intros p Hp [->|Hn]%elem_of_cons; [|by apply elem_of_nil in Hn].
    apply list_elem_of_fmap in Hp as (r & Hr & Hin).
    apply list_elem_of_filter in Hin as [Htid Hin].
    assert (r ∈ playerRows teamPlayers tournamentId playerId) as Hrow
      by (by apply list_elem_of_filter).
    rewrite Hrows in Hrow. by apply elem_of_nil in Hrow. }
  intros team. specialize (Hcap team). unfold teamRows in *.
  rewrite filter_app, filter_cons, filter_nil, length_app.
  cbn [rowTournamentId rowTeamId].
  destruct (decide (tournamentId = tournamentId /\ teamId = team))
    as [[_ <-]|_]; cbn [length]; lia.
Qed.

Lemma addPlayerToTeam_spec_witness :
  exists teamPlayers',
    addPlayerToTeam (teamsTable exampleDatabase) "2024-01-15-1" "5" "TEAM2"
      exampleAssignments = Normal teamPlayers'
    /\ "TEAM2" ∈ map teamRowId
                   (filter (fun t => teamTournamentId t = "2024-01-15-1")
                      (teamsTable exampleDatabase))
    /\ (length (teamRows exampleAssignments "2024-01-15-1" "TEAM2") < 5)%nat
    /\ getPlayerTeam exampleAssignments "2024-01-15-1" "5" = None
    /\ teamPlayers'
       = exampleAssignments ++ [mkTeamPlayerRow "TEAM2" "2024-01-15-1" "5"]
    /\ getPlayerTeam teamPlayers' "2024-01-15-1" "5"
       = Some (mkTeamPlayerRow "TEAM2" "2024-01-15-1" "5")
    /\ assignedOnce teamPlayers' "2024-01-15-1"
    /\ withinCapacity teamPlayers' "2024-01-15-1".
Proof.
  eexists. split; [reflexivity|].
  apply (addPlayerToTeam_spec (teamsTable exampleDatabase) "2024-01-15-1" "5"
           "TEAM2" exampleAssignments).
  - reflexivity.
  - unfold assignedOnce. by apply (bool_decide_unpack _).
  - intros team. unfold teamRows, exampleAssignments.
    rewrite !filter_cons, filter_nil. cbn [rowTournamentId rowTeamId].
    repeat case_decide; cbn [length]; lia.
Defined.
